(** * fastcgi++ SQL facilities ([include/fastcgi++/sql.hpp])

    A shallow embedding of the data-binding types ([Nullable], [Set],
    [SetContainer]) and of the worker pool of [ConnectionPar] ([start],
    [terminate], [intHandler], [queue]), with the properties of the
    specification stated over it.

    Conventions.
    - [size_t] values (sizes, indices) are [nat]: they count objects that
      exist in memory, so no wrap-around can be reached.  The [int]
      members [threads], [maxThreads] and [typeVal] are [Z].
    - A [char] buffer is a [list ascii]; a C string is a buffer read up
      to its first NUL.
    - An operation whose behaviour C++ leaves undefined returns [None]
      (or the dedicated constructor of its result type).
    - The pool is an interleaving of its threads, one statement of the
      source at a time.  Creating a thread succeeds; a callback
      returns, throws nothing and calls no member of the pool; a
      statement's [execute] shows nothing but its outcome; [threads]
      stays far from the ends of [int]. *)

From Stdlib Require Import ZArith Lia Ascii String.
From stdpp Require Import base option list numbers.

Set Default Proof Using "Type".
Local Open Scope Z_scope.

(** ** C strings and [<cstring>] *)

Module CStr.

Definition NUL : ascii := zero.

Definition is_nul (c : ascii) : bool :=
  if ascii_dec c NUL then true else false.

(** [std::strlen(p)]: the number of characters before the first NUL of
    the buffer [p] points into.  The buffer is the memory from [p] to
    the end of its allocation; running off it is undefined. *)
Fixpoint strlen (p : list ascii) : option nat :=
  match p with
  | [] => None
  | c :: r => if is_nul c then Some 0%nat else S <$> strlen r
  end.

(** Pointer arithmetic [p + n] inside one allocation. *)
Definition ptr_add (p : list ascii) (n : nat) : list ascii := drop n p.

(** [new char[n]]: the contents are indeterminate; every use below
    overwrites all [n] characters before they are read. *)
Definition new_char (n : nat) : list ascii := replicate n NUL.

(** [std::memcpy(dst, src, n)]: undefined when either buffer is shorter
    than [n]. *)
Definition memcpy (dst src : list ascii) (n : nat) : option (list ascii) :=
  if decide (n ≤ length src ∧ n ≤ length dst)%nat
  then Some (take n src ++ drop n dst)
  else None.

(** The string a [const char*] denotes: the characters before the NUL. *)
Fixpoint c_str (p : list ascii) : list ascii :=
  match p with
  | [] => []
  | c :: r => if is_nul c then [] else c :: c_str r
  end.

(** The buffer of a string literal: its characters and the terminator.
    (Rocq's [string] shadows nothing here: the literal is turned into
    the character list at once.) *)
Definition literal (s : string) : list ascii :=
  list_ascii_of_string s ++ [NUL].

Definition no_nul (s : list ascii) : Prop := Forall (λ c, is_nul c = false) s.

End CStr.

(** ** [namespace Data] *)

Module Data.

(** [enum Type] *)
Inductive Type_ : Set :=
| U_TINY | U_SHORT | U_INT | U_BIGINT | TINY | SHORT | INT | BIGINT
| FLOAT | DOUBLE | TIME | DATE | DATETIME | BLOB | TEXT | WTEXT | CHAR
| BINARY | BIT
| U_TINY_N | U_SHORT_N | U_INT_N | U_BIGINT_N | TINY_N | SHORT_N | INT_N
| BIGINT_N | FLOAT_N | DOUBLE_N | TIME_N | DATE_N | DATETIME_N | BLOB_N
| TEXT_N | WTEXT_N | CHAR_N | BINARY_N | BIT_N
| NOTHING.

(** *** [NullablePar] and [Nullable<T>]

    [NullablePar] holds the flag; [Nullable<T>] adds the object.  "If
    nullness is true then the value is null." *)
Record Nullable (T : Type) : Type := mkNullable {
  nullness : bool;
  object : T
}.
Arguments mkNullable {T} _ _.
Arguments nullness {T} _.
Arguments object {T} _.

(** [Nullable(): NullablePar(false) {}].  The member [object] is
    default-initialised; [dflt] is whatever that leaves in it. *)
Definition Nullable_default {T : Type} (dflt : T) : Nullable T :=
  mkNullable false dflt.

(** [Nullable(const T& x): NullablePar(false), object(x) { }] *)
Definition Nullable_of {T : Type} (x : T) : Nullable T :=
  mkNullable false x.

(** [operator T() { return object; }] *)
Definition Nullable_to {T : Type} (n : Nullable T) : T := object n.

(** The test [x.nullness] of the stream inserter, as a predicate. *)
Definition is_null {T : Type} (n : Nullable T) : bool := nullness n.

(** *** [struct Set]

    What a call of a value-returning member function yields: the value
    of its [return] statement, or nothing defined when control flows
    off the end of the body. *)
Inductive Returns (A : Type) : Type :=
| Value (a : A)
| FlowsOffEnd.
Arguments Value {A} _.
Arguments FlowsOffEnd {A}.

Definition Ptr : Type := option nat.

(** A class derived from [Set], given by what it defines: the three
    pure virtual functions, and [getSqlSize] if it overrides it. *)
Record SetClass : Type := mkSetClass {
  numberOfSqlElements : nat;
  getSqlType : nat → Type_;
  getSqlSize_override : option (nat → nat);
  getConstPtr : nat → Ptr
}.

(** The body of [Set::getSqlSize]: [{ }]. *)
Definition Set_getSqlSize (index : nat) : Returns nat := FlowsOffEnd.

(** Virtual dispatch of [s.getSqlSize(index)]. *)
Definition getSqlSize (s : SetClass) (index : nat) : Returns nat :=
  match getSqlSize_override s with
  | Some f => Value (f index)
  | None => Set_getSqlSize index
  end.

(** [getSqlPtr(index)] forwards to [getConstPtr]. *)
Definition getSqlPtr (s : SetClass) (index : nat) : Ptr := getConstPtr s index.

(** The kinds [getSqlSize] is documented to be called for. *)
Definition fixed_kind (t : Type_) : bool :=
  match t with
  | BINARY | CHAR | BINARY_N | CHAR_N => true
  | _ => false
  end.

(** The [TestSet] of the documentation block; its members live at the
    addresses [base], [base+1], ... *)
Definition TestSet (base : nat) : SetClass := {|
  numberOfSqlElements := 7;
  getSqlType index :=
    match index with
    | 0 => DOUBLE_N | 1 => DATE_N | 2 => TIME | 3 => DATETIME_N
    | 4 => WTEXT_N | 5 => BLOB_N | 6 => BINARY | _ => NOTHING
    end%nat;
  getSqlSize_override := Some (λ index,
    match index with 6 => 16 | _ => 0 end%nat);
  getConstPtr index :=
    if decide (index < 7)%nat then Some (base + index)%nat else None
|}.

(** The same class without its [getSqlSize]. *)
Definition TestSet_no_size (base : nat) : SetClass := {|
  numberOfSqlElements := numberOfSqlElements (TestSet base);
  getSqlType := getSqlType (TestSet base);
  getSqlSize_override := None;
  getConstPtr := getConstPtr (TestSet base)
|}.

(** *** [SetContainerPar] and [SetContainer<T>]

    [Cont] is a [std::list] of shared pointers.  A shared pointer is
    the address of its object; the objects live in [objs], where an
    address is an index and [new T] takes the next one.  A
    [Cont::iterator] is a position in [data], [data.end()] being the
    position past the last element. *)
Section SetContainer.
Context {T : Type}.
(** The value [new T] constructs. *)
Variable T_new : T.

Record SetContainer : Type := mkSetContainer {
  objs : list T;
  data : list nat
}.

Definition iterator : Type := nat.

(** A container as its constructor leaves it. *)
Definition SetContainer_init : SetContainer := mkSetContainer [] [].

Definition size (c : SetContainer) : nat := length (data c).
Definition empty (c : SetContainer) : bool := bool_decide (data c = []).

Definition begin_ (c : SetContainer) : iterator := 0%nat.
Definition end_ (c : SetContainer) : iterator := length (data c).

(** [--it]: undefined on the iterator to the first position. *)
Definition iter_dec (it : iterator) : option iterator :=
  match it with O => None | S n => Some n end.

(** [++it] *)
Definition iter_inc (it : iterator) : iterator := S it.

(** [std::list::erase(it)]: [it] must point at an element. *)
Definition erase (l : list nat) (it : iterator) : option (list nat) :=
  if decide (it < length l)%nat then Some (delete it l) else None.

(** [Cont::iterator manufacture()
     { data.push_back(boost::shared_ptr<Set>(new T)); return --data.end(); }] *)
Definition manufacture (c : SetContainer) : option (SetContainer * iterator) :=
  let p := length (objs c) in
  let c' := mkSetContainer (objs c ++ [T_new]) (data c ++ [p]) in
  it ← iter_dec (end_ c');
  Some (c', it).

(** [void trim() { data.erase(--data.end()); }] *)
Definition trim (c : SetContainer) : option SetContainer :=
  it ← iter_dec (end_ c);
  d ← erase (data c) it;
  Some (mkSetContainer (objs c) d).

(** [it->get()]: the shared pointer an iterator points at. *)
Definition iter_get (c : SetContainer) (it : iterator) : option nat :=
  data c !! it.

(** The iterator's dereference operator: the object behind [it->get()]. *)
Definition iter_deref (c : SetContainer) (it : iterator) : option T :=
  p ← iter_get c it; objs c !! p.

(** [T& back()] *)
Definition back (c : SetContainer) : option T :=
  p ← list.last (data c); objs c !! p.

(** The client loop
    [for(it = c.begin(); it != c.end(); ++it) visit(it)], collecting
    what [visit] sees: the shared pointer and the object.  [fuel]
    bounds the number of iterations. *)
Fixpoint iterate_from (fuel : nat) (c : SetContainer) (it : iterator)
  : option (list (nat * T)) :=
  if decide (it = end_ c) then Some []
  else match fuel with
       | O => None
       | S fuel' =>
           p ← iter_get c it;
           x ← iter_deref c it;
           r ← iterate_from fuel' c (iter_inc it);
           Some ((p, x) :: r)
       end.

Definition iterate (fuel : nat) (c : SetContainer) : option (list (nat * T)) :=
  iterate_from fuel c (begin_ c).

(** The operations a fetch applies to a container. *)
Inductive Op : Set := OpManufacture | OpTrim.

Definition apply_op (c : SetContainer) (o : Op) : option SetContainer :=
  match o with
  | OpManufacture => fst <$> manufacture c
  | OpTrim => trim c
  end.

Fixpoint apply_ops (c : SetContainer) (os : list Op) : option SetContainer :=
  match os with
  | [] => Some c
  | o :: os' => c' ← apply_op c o; apply_ops c' os'
  end.

(** [K] appends in a row. *)
Definition manufacture_n (K : nat) (c : SetContainer) : option SetContainer :=
  apply_ops c (replicate K OpManufacture).

Global Instance Op_eq_dec : EqDecision Op.
Proof. solve_decision. Defined.

Fixpoint count_op (o : Op) (os : list Op) : nat :=
  match os with
  | [] => 0
  | x :: os' => (if decide (x = o) then 1 else 0) + count_op o os'
  end%nat.

(** Every shared pointer of the list points at an allocated object. *)
Definition wf (c : SetContainer) : Prop :=
  Forall (λ p, p < length (objs c))%nat (data c).

(** The elements in list order, each with its object. *)
Definition contents (c : SetContainer) : list (nat * T) :=
  omap (λ p, (λ x, (p, x)) <$> objs c !! p) (data c).

End SetContainer.
Arguments SetContainer : clear implicits.

End Data.

(** ** [namespace Sql]: statements, queries and the worker pool *)

Module Sql.
Import CStr.

(** Modelled from the spec: [Fastcgipp::Message] is declared in
    [fastcgi++/message.hpp], which is not part of the sources at hand.
    The completion message "carries a type tag and a byte payload";
    [intHandler] uses its members [type], [size] and [data] (a shared
    character array, empty until [reset]). *)
Record Message : Type := mkMessage {
  type : Z;
  size : nat;
  data : option (list ascii)
}.

(** The payload a receiver reads: [size] characters of [data]. *)
Definition payload (m : Message) : list ascii :=
  match data m with
  | Some d => take (size m) d
  | None => []
  end.

(** How a call of [Statement::execute] leaves: by returning, by
    throwing an object derived from [std::exception] ([what] is the
    buffer [e.what()] points into), or by throwing anything else. *)
Inductive Outcome : Type :=
| Returns
| ThrowsStd (what : list ascii)
| ThrowsOther.

(** The template parameter [T] of [ConnectionPar<T>]: a statement
    class with an [execute] member.  Only the way the call leaves is
    modelled, not what it does to the database or to its out
    parameters. *)
Class Statement (T : Type) : Type :=
  execute : T → Data.Ptr → Data.Ptr → Data.Ptr → Data.Ptr → Outcome.

(** A [boost::function<void (Message)>], by identity. *)
Definition Callback : Type := nat.

(** [struct Query] *)
Record Query (T : Type) : Type := mkQuery {
  statement : T;
  parameters : Data.Ptr;
  results : Data.Ptr;
  insertId : Data.Ptr;
  rows : Data.Ptr;
  callback : Callback
}.
Arguments mkQuery {T} _ _ _ _ _ _.
Arguments statement {T} _.
Arguments parameters {T} _.
Arguments results {T} _.
Arguments insertId {T} _.
Arguments rows {T} _.
Arguments callback {T} _.

(** What lines 639-652 of [intHandler] make of a dequeued query. *)
Inductive Handled : Type :=
| Completed (message : Message)
| Uncaught
| Undefined.

Section Handler.
Context {T : Type} `{Statement T}.

(** The [catch(std::exception& e)] block:
    [message.size=std::strlen(e.what()+1);]
    [message.data.reset(new char[message.size]);]
    [std::memcpy(message.data.get(), e.what(), message.size);] *)
Definition on_catch (message : Message) (what : list ascii) : option Message :=
  n ← strlen (ptr_add what 1);
  buf ← memcpy (new_char n) what n;
  Some (mkMessage (type message) n (Some buf)).

(** [Message message; message.type=typeVal; message.size=0;
     try { query.statement->execute(...); } catch(std::exception& e) {...}] *)
Definition handle (typeVal : Z) (query : Query T) : Handled :=
  let message := mkMessage typeVal 0 None in
  match execute (statement query) (parameters query) (results query)
                (insertId query) (rows query) with
  | Returns => Completed message
  | ThrowsStd what =>
      match on_catch message what with
      | Some message' => Completed message'
      | None => Undefined
      end
  | ThrowsOther => Uncaught
  end.
End Handler.

(** *** The threads of the process

    Every thread is at a program point of one of the four member
    functions; program points are named after the source line of the
    statement to execute next.  [..w] is the second half of a
    condition wait (blocked until notified, then re-locking), [..ret]
    is "returned". *)
Inductive StartPc : Set :=
| S584 | S585 | S586 | S588 | S589 | S591 | S592 | S592w | S594 | Sret.

Inductive TerminatePc : Set :=
| T599 | T600 | T601 | T602 | T604 | T605 | T606 | T606w | T607 | Tret.

Inductive QueuePc : Set :=
| Q666 | Q667 | Q677 | Q678 | Qret.

Inductive HandlerPc (T : Type) : Type :=
| H612 | H613 | H614 | H615
| H622 | H623 | H625 | H627 | H628 | H630 | H630w | H631
| H635
| H637 (query : Query T)
| H639 (query : Query T)
| H654 (query : Query T) (message : Message)
| H658 | H659 | H660 | H661 | H662 | Hret.
Arguments H612 {T}. Arguments H613 {T}. Arguments H614 {T}.
Arguments H615 {T}. Arguments H622 {T}. Arguments H623 {T}.
Arguments H625 {T}. Arguments H627 {T}. Arguments H628 {T}.
Arguments H630 {T}. Arguments H630w {T}. Arguments H631 {T}.
Arguments H635 {T}. Arguments H637 {T} _. Arguments H639 {T} _.
Arguments H654 {T} _ _. Arguments H658 {T}. Arguments H659 {T}.
Arguments H660 {T}. Arguments H661 {T}. Arguments H662 {T}.
Arguments Hret {T}.

Inductive Thread (T : Type) : Type :=
| InStart (pc : StartPc)
| InTerminate (pc : TerminatePc)
| InQueue (pc : QueuePc) (query : Query T)
| InHandler (pc : HandlerPc T).
Arguments InStart {T} _.
Arguments InTerminate {T} _.
Arguments InQueue {T} _ _.
Arguments InHandler {T} _.

Inductive MutexId : Set := ThreadsMutex | TerminateMutex | QueriesMutex.
Inductive CondId : Set := ThreadsChanged | WakeUp.

Global Instance MutexId_eq_dec : EqDecision MutexId.
Proof. solve_decision. Defined.
Global Instance CondId_eq_dec : EqDecision CondId.
Proof. solve_decision. Defined.

(** The statement at a program point, over the primitives the four
    functions are written with.  Continuations are program points. *)
Inductive Instr (T : Type) : Type :=
| ILock (m : MutexId) (k : Thread T)
| IUnlock (m : MutexId) (k : Thread T)
| IWait (cv : CondId) (m : MutexId) (k : Thread T)
| IWake (cv : CondId) (m : MutexId) (k : Thread T)
| INotifyOne (cv : CondId) (k : Thread T)
| INotifyAll (cv : CondId) (k : Thread T)
| ISetTerminate (b : bool) (k : Thread T)
| IAddThreads (d : Z) (k : Thread T)
| IIfTerminate (kt kf : Thread T)
| IIfThreadsBelowMax (kt kf : Thread T)
| IIfThreads (kt kf : Thread T)
| IIfNoQueries (kt kf : Thread T)
| ISpawn (k : Thread T)
| IPush (query : Query T) (k : Thread T)
| IPop (k : Query T → Thread T)
| IExecute (query : Query T) (k : Message → Thread T)
| ICallback (query : Query T) (message : Message) (k : Thread T)
| IReturned.
Arguments ILock {T} _ _. Arguments IUnlock {T} _ _.
Arguments IWait {T} _ _ _. Arguments IWake {T} _ _ _.
Arguments INotifyOne {T} _ _. Arguments INotifyAll {T} _ _.
Arguments ISetTerminate {T} _ _. Arguments IAddThreads {T} _ _.
Arguments IIfTerminate {T} _ _. Arguments IIfThreadsBelowMax {T} _ _.
Arguments IIfThreads {T} _ _. Arguments IIfNoQueries {T} _ _.
Arguments ISpawn {T} _. Arguments IPush {T} _ _. Arguments IPop {T} _.
Arguments IExecute {T} _ _. Arguments ICallback {T} _ _ _.
Arguments IReturned {T}.

(** [ConnectionPar<T>::start()] *)
Definition start_code {T} (pc : StartPc) : Instr T :=
  match pc with
  | S584 => ILock TerminateMutex (InStart S585)
  | S585 => ISetTerminate false (InStart S586)
  | S586 => IUnlock TerminateMutex (InStart S588)
  | S588 => ILock ThreadsMutex (InStart S589)
  | S589 => IIfThreadsBelowMax (InStart S591) (InStart S594)
  | S591 => ISpawn (InStart S592)
  | S592 => IWait ThreadsChanged ThreadsMutex (InStart S592w)
  | S592w => IWake ThreadsChanged ThreadsMutex (InStart S589)
  | S594 => IUnlock ThreadsMutex (InStart Sret)
  | Sret => IReturned
  end.

(** [ConnectionPar<T>::terminate()] *)
Definition terminate_code {T} (pc : TerminatePc) : Instr T :=
  match pc with
  | T599 => ILock TerminateMutex (InTerminate T600)
  | T600 => ISetTerminate true (InTerminate T601)
  | T601 => IUnlock TerminateMutex (InTerminate T602)
  | T602 => INotifyAll WakeUp (InTerminate T604)
  | T604 => ILock ThreadsMutex (InTerminate T605)
  | T605 => IIfThreads (InTerminate T606) (InTerminate T607)
  | T606 => IWait ThreadsChanged ThreadsMutex (InTerminate T606w)
  | T606w => IWake ThreadsChanged ThreadsMutex (InTerminate T605)
  | T607 => IUnlock ThreadsMutex (InTerminate Tret)
  | Tret => IReturned
  end.

(** [ConnectionPar<T>::queue(...)]: the new [Query] is pushed and
    filled in under the lock; [IPush] is the filled-in element. *)
Definition queue_code {T} (pc : QueuePc) (query : Query T) : Instr T :=
  match pc with
  | Q666 => ILock QueriesMutex (InQueue Q667 query)
  | Q667 => IPush query (InQueue Q677 query)
  | Q677 => INotifyOne WakeUp (InQueue Q678 query)
  | Q678 => IUnlock QueriesMutex (InQueue Qret query)
  | Qret => IReturned
  end.

(** [ConnectionPar<T>::intHandler()].  After [break] the thread still
    owns [terminateLock]; it is released by the destructor at the end
    of the function ([H662]). *)
Definition handler_code {T} (pc : HandlerPc T) : Instr T :=
  match pc with
  | H612 => ILock ThreadsMutex (InHandler H613)
  | H613 => IAddThreads 1 (InHandler H614)
  | H614 => IUnlock ThreadsMutex (InHandler H615)
  | H615 => INotifyOne ThreadsChanged (InHandler H622)
  | H622 => ILock TerminateMutex (InHandler H623)
  | H623 => IIfTerminate (InHandler H658) (InHandler H625)
  | H625 => IUnlock TerminateMutex (InHandler H627)
  | H627 => ILock QueriesMutex (InHandler H628)
  | H628 => IIfNoQueries (InHandler H630) (InHandler H635)
  | H630 => IWait WakeUp QueriesMutex (InHandler H630w)
  | H630w => IWake WakeUp QueriesMutex (InHandler H631)
  | H631 => IUnlock QueriesMutex (InHandler H622)
  | H635 => IPop (λ query, InHandler (H637 query))
  | H637 query => IUnlock QueriesMutex (InHandler (H639 query))
  | H639 query => IExecute query (λ message, InHandler (H654 query message))
  | H654 query message => ICallback query message (InHandler H622)
  | H658 => ILock ThreadsMutex (InHandler H659)
  | H659 => IAddThreads (-1) (InHandler H660)
  | H660 => IUnlock ThreadsMutex (InHandler H661)
  | H661 => INotifyOne ThreadsChanged (InHandler H662)
  | H662 => IUnlock TerminateMutex (InHandler Hret)
  | Hret => IReturned
  end.

Definition code {T} (th : Thread T) : Instr T :=
  match th with
  | InStart pc => start_code pc
  | InTerminate pc => terminate_code pc
  | InQueue pc query => queue_code pc query
  | InHandler pc => handler_code pc
  end.

(** The body [boost::thread] runs: [intHandler] from its first line. *)
Definition thread_entry {T} : Thread T := InHandler H612.

(** *** The state of the process

    A mutex is its owner, if any; a condition variable is the list of
    the threads blocked in [wait] on it.  Threads are numbered in the
    order they come into being. *)
Inductive Status : Set :=
| Running
| Terminated          (* an exception left [intHandler]: [std::terminate] *)
| UndefinedBehaviour.

Section Pool.
Context {T : Type} `{Statement T}.

Record Pool : Type := mkPool {
  (* class Connection *)
  typeVal : Z;
  maxThreads : Z;
  threadsMutex : option nat;
  threadsChanged : list nat;
  threads : Z;
  wakeUp : list nat;
  terminateMutex : option nat;
  terminateBool : bool;
  (* class ConnectionPar: [queries] is a queue and a mutex *)
  queries : list (Query T);
  queriesMutex : option nat;
  (* the threads of the process, and whether it still runs *)
  procs : list (Thread T);
  status : Status;
  (* history variables: what was pushed, popped and called back, and
     the statements executed so far, each with its thread *)
  enqueued : list (Query T);
  dequeued : list (Query T);
  delivered : list (Callback * Message);
  history : list (nat * Thread T)
}.

(** [Connection(typeVal_, maxThreads_)] initialises [threads] only;
    [terminateBool] starts with an indeterminate value [tb]. *)
Definition Connection (typeVal_ maxThreads_ : Z) (tb : bool) : Pool :=
  {| typeVal := typeVal_; maxThreads := maxThreads_;
     threadsMutex := None; threadsChanged := []; threads := 0;
     wakeUp := []; terminateMutex := None; terminateBool := tb;
     queries := []; queriesMutex := None;
     procs := []; status := Running;
     enqueued := []; dequeued := []; delivered := []; history := [] |}.

Definition owner (s : Pool) (m : MutexId) : option nat :=
  match m with
  | ThreadsMutex => threadsMutex s
  | TerminateMutex => terminateMutex s
  | QueriesMutex => queriesMutex s
  end.

Definition waiters (s : Pool) (cv : CondId) : list nat :=
  match cv with
  | ThreadsChanged => threadsChanged s
  | WakeUp => wakeUp s
  end.

Definition set_threadsMutex (o : option nat) (s : Pool) : Pool :=
  {| typeVal := typeVal s; maxThreads := maxThreads s; threadsMutex := o;
     threadsChanged := threadsChanged s; threads := threads s;
     wakeUp := wakeUp s; terminateMutex := terminateMutex s;
     terminateBool := terminateBool s; queries := queries s;
     queriesMutex := queriesMutex s; procs := procs s;
     status := status s; enqueued := enqueued s; dequeued := dequeued s;
     delivered := delivered s; history := history s |}.

Definition set_terminateMutex (o : option nat) (s : Pool) : Pool :=
  {| typeVal := typeVal s; maxThreads := maxThreads s;
     threadsMutex := threadsMutex s; threadsChanged := threadsChanged s;
     threads := threads s; wakeUp := wakeUp s; terminateMutex := o;
     terminateBool := terminateBool s; queries := queries s;
     queriesMutex := queriesMutex s; procs := procs s;
     status := status s; enqueued := enqueued s; dequeued := dequeued s;
     delivered := delivered s; history := history s |}.

Definition set_queriesMutex (o : option nat) (s : Pool) : Pool :=
  {| typeVal := typeVal s; maxThreads := maxThreads s;
     threadsMutex := threadsMutex s; threadsChanged := threadsChanged s;
     threads := threads s; wakeUp := wakeUp s;
     terminateMutex := terminateMutex s;
     terminateBool := terminateBool s; queries := queries s;
     queriesMutex := o; procs := procs s; status := status s;
     enqueued := enqueued s; dequeued := dequeued s;
     delivered := delivered s; history := history s |}.

Definition set_threadsChanged (l : list nat) (s : Pool) : Pool :=
  {| typeVal := typeVal s; maxThreads := maxThreads s;
     threadsMutex := threadsMutex s; threadsChanged := l;
     threads := threads s; wakeUp := wakeUp s;
     terminateMutex := terminateMutex s;
     terminateBool := terminateBool s; queries := queries s;
     queriesMutex := queriesMutex s; procs := procs s;
     status := status s; enqueued := enqueued s; dequeued := dequeued s;
     delivered := delivered s; history := history s |}.

Definition set_wakeUp (l : list nat) (s : Pool) : Pool :=
  {| typeVal := typeVal s; maxThreads := maxThreads s;
     threadsMutex := threadsMutex s; threadsChanged := threadsChanged s;
     threads := threads s; wakeUp := l;
     terminateMutex := terminateMutex s;
     terminateBool := terminateBool s; queries := queries s;
     queriesMutex := queriesMutex s; procs := procs s;
     status := status s; enqueued := enqueued s; dequeued := dequeued s;
     delivered := delivered s; history := history s |}.

Definition set_threads (z : Z) (s : Pool) : Pool :=
  {| typeVal := typeVal s; maxThreads := maxThreads s;
     threadsMutex := threadsMutex s; threadsChanged := threadsChanged s;
     threads := z; wakeUp := wakeUp s;
     terminateMutex := terminateMutex s;
     terminateBool := terminateBool s; queries := queries s;
     queriesMutex := queriesMutex s; procs := procs s;
     status := status s; enqueued := enqueued s; dequeued := dequeued s;
     delivered := delivered s; history := history s |}.

Definition set_terminateBool (b : bool) (s : Pool) : Pool :=
  {| typeVal := typeVal s; maxThreads := maxThreads s;
     threadsMutex := threadsMutex s; threadsChanged := threadsChanged s;
     threads := threads s; wakeUp := wakeUp s;
     terminateMutex := terminateMutex s; terminateBool := b;
     queries := queries s; queriesMutex := queriesMutex s;
     procs := procs s; status := status s; enqueued := enqueued s;
     dequeued := dequeued s; delivered := delivered s;
     history := history s |}.

Definition set_procs (l : list (Thread T)) (s : Pool) : Pool :=
  {| typeVal := typeVal s; maxThreads := maxThreads s;
     threadsMutex := threadsMutex s; threadsChanged := threadsChanged s;
     threads := threads s; wakeUp := wakeUp s;
     terminateMutex := terminateMutex s;
     terminateBool := terminateBool s; queries := queries s;
     queriesMutex := queriesMutex s; procs := l; status := status s;
     enqueued := enqueued s; dequeued := dequeued s;
     delivered := delivered s; history := history s |}.

Definition set_status (st : Status) (s : Pool) : Pool :=
  {| typeVal := typeVal s; maxThreads := maxThreads s;
     threadsMutex := threadsMutex s; threadsChanged := threadsChanged s;
     threads := threads s; wakeUp := wakeUp s;
     terminateMutex := terminateMutex s;
     terminateBool := terminateBool s; queries := queries s;
     queriesMutex := queriesMutex s; procs := procs s; status := st;
     enqueued := enqueued s; dequeued := dequeued s;
     delivered := delivered s; history := history s |}.

Definition push (q : Query T) (s : Pool) : Pool :=
  {| typeVal := typeVal s; maxThreads := maxThreads s;
     threadsMutex := threadsMutex s; threadsChanged := threadsChanged s;
     threads := threads s; wakeUp := wakeUp s;
     terminateMutex := terminateMutex s;
     terminateBool := terminateBool s; queries := queries s ++ [q];
     queriesMutex := queriesMutex s; procs := procs s;
     status := status s; enqueued := enqueued s ++ [q];
     dequeued := dequeued s; delivered := delivered s;
     history := history s |}.

Definition pop (q : Query T) (rest : list (Query T)) (s : Pool) : Pool :=
  {| typeVal := typeVal s; maxThreads := maxThreads s;
     threadsMutex := threadsMutex s; threadsChanged := threadsChanged s;
     threads := threads s; wakeUp := wakeUp s;
     terminateMutex := terminateMutex s;
     terminateBool := terminateBool s; queries := rest;
     queriesMutex := queriesMutex s; procs := procs s;
     status := status s; enqueued := enqueued s;
     dequeued := dequeued s ++ [q]; delivered := delivered s;
     history := history s |}.

Definition deliver (q : Query T) (m : Message) (s : Pool) : Pool :=
  {| typeVal := typeVal s; maxThreads := maxThreads s;
     threadsMutex := threadsMutex s; threadsChanged := threadsChanged s;
     threads := threads s; wakeUp := wakeUp s;
     terminateMutex := terminateMutex s;
     terminateBool := terminateBool s; queries := queries s;
     queriesMutex := queriesMutex s; procs := procs s;
     status := status s; enqueued := enqueued s; dequeued := dequeued s;
     delivered := delivered s ++ [(callback q, m)]; history := history s |}.

Definition record (t : nat) (th : Thread T) (s : Pool) : Pool :=
  {| typeVal := typeVal s; maxThreads := maxThreads s;
     threadsMutex := threadsMutex s; threadsChanged := threadsChanged s;
     threads := threads s; wakeUp := wakeUp s;
     terminateMutex := terminateMutex s;
     terminateBool := terminateBool s; queries := queries s;
     queriesMutex := queriesMutex s; procs := procs s;
     status := status s; enqueued := enqueued s; dequeued := dequeued s;
     delivered := delivered s; history := history s ++ [(t, th)] |}.

Definition set_owner (m : MutexId) (o : option nat) (s : Pool) : Pool :=
  match m with
  | ThreadsMutex => set_threadsMutex o s
  | TerminateMutex => set_terminateMutex o s
  | QueriesMutex => set_queriesMutex o s
  end.

Definition set_waiters (cv : CondId) (l : list nat) (s : Pool) : Pool :=
  match cv with
  | ThreadsChanged => set_threadsChanged l s
  | WakeUp => set_wakeUp l s
  end.

(** Thread [t] moves on to program point [k]. *)
Definition goto (t : nat) (k : Thread T) (s : Pool) : Pool :=
  set_procs (<[t := k]> (procs s)) s.

(** [boost::mutex::lock]: blocks ([None]) while the mutex is owned. *)
Definition lock (m : MutexId) (t : nat) (s : Pool) : option Pool :=
  match owner s m with
  | None => Some (set_owner m (Some t) s)
  | Some _ => None
  end.

Definition unlock (m : MutexId) (s : Pool) : Pool := set_owner m None s.

(** [condition_variable::notify_one]: one of the waiting threads, if
    there is any, stops waiting; which one is not specified: [pick]
    chooses. *)
Definition notify_one (pick : nat) (l : list nat) : list nat :=
  match l with
  | [] => []
  | _ :: _ => delete (pick mod length l)%nat l
  end.

(** [condition_variable::notify_all] *)
Definition notify_all (l : list nat) : list nat := [].

(** One statement of thread [t]; [None] when the thread cannot move
    (blocked on a mutex or in a wait, or returned). *)
Definition exec_instr (t pick : nat) (i : Instr T) (s : Pool) : option Pool :=
  match i with
  | ILock m k => goto t k <$> lock m t s
  | IUnlock m k => Some (goto t k (unlock m s))
  | IWait cv m k =>
      Some (goto t k (set_waiters cv (waiters s cv ++ [t]) (unlock m s)))
  | IWake cv m k =>
      if decide (t ∈ waiters s cv) then None else goto t k <$> lock m t s
  | INotifyOne cv k =>
      Some (goto t k (set_waiters cv (notify_one pick (waiters s cv)) s))
  | INotifyAll cv k =>
      Some (goto t k (set_waiters cv (notify_all (waiters s cv)) s))
  | ISetTerminate b k => Some (goto t k (set_terminateBool b s))
  | IAddThreads d k => Some (goto t k (set_threads (threads s + d) s))
  | IIfTerminate kt kf =>
      Some (goto t (if terminateBool s then kt else kf) s)
  | IIfThreadsBelowMax kt kf =>
      Some (goto t (if decide (threads s < maxThreads s) then kt else kf) s)
  | IIfThreads kt kf =>
      Some (goto t (if decide (threads s ≠ 0) then kt else kf) s)
  | IIfNoQueries kt kf =>
      Some (goto t (match queries s with [] => kt | _ :: _ => kf end) s)
  | ISpawn k =>
      Some (goto t k (set_procs (procs s ++ [thread_entry]) s))
  | IPush q k => Some (goto t k (push q s))
  | IPop k =>
      match queries s with
      | q :: rest => Some (goto t (k q) (pop q rest s))
      | [] => Some (set_status UndefinedBehaviour s)
      end
  | IExecute q k =>
      match handle (typeVal s) q with
      | Completed m => Some (goto t (k m) s)
      | Uncaught => Some (set_status Terminated s)
      | Undefined => Some (set_status UndefinedBehaviour s)
      end
  | ICallback q m k => Some (goto t k (deliver q m s))
  | IReturned => None
  end.

(** Thread [t] executes the statement it is at. *)
Definition step (t pick : nat) (s : Pool) : option Pool :=
  match status s with
  | Running =>
      th ← procs s !! t;
      s' ← exec_instr t pick (code th) s;
      Some (record t th s')
  | _ => None
  end.

(** What the rest of the program and the platform do: schedule a
    thread, call a member function from a new thread, or let a wait
    return without a notification. *)
Inductive Event : Type :=
| Run (t pick : nat)
| CallStart
| CallTerminate
| CallQueue (query : Query T)
| Spurious (cv : CondId) (t : nat).

Definition call (th : Thread T) (s : Pool) : option Pool :=
  match status s with
  | Running => Some (set_procs (procs s ++ [th]) s)
  | _ => None
  end.

Definition spurious (cv : CondId) (t : nat) (s : Pool) : option Pool :=
  match status s with
  | Running =>
      if decide (t ∈ waiters s cv)
      then Some (set_waiters cv (filter (λ t', t' ≠ t) (waiters s cv)) s)
      else None
  | _ => None
  end.

Definition exec (e : Event) (s : Pool) : option Pool :=
  match e with
  | Run t pick => step t pick s
  | CallStart => call (InStart S584) s
  | CallTerminate => call (InTerminate T599) s
  | CallQueue q => call (InQueue Q666 q) s
  | Spurious cv t => spurious cv t s
  end.

Fixpoint run (es : list Event) (s : Pool) : option Pool :=
  match es with
  | [] => Some s
  | e :: es' => s' ← exec e s; run es' s'
  end.

(** The states an execution from [s0] passes through. *)
Inductive reachable (s0 : Pool) : Pool → Prop :=
| reachable_refl : reachable s0 s0
| reachable_step s e s' :
    reachable s0 s → exec e s = Some s' → reachable s0 s'.

End Pool.
Arguments Pool T : clear implicits.
Arguments Event T : clear implicits.

End Sql.

(** * What a thread holds, counts for and carries at each program point *)

Module PoolSpec.
Import Sql.

Section Tables.
Context {T : Type} `{Statement T}.

(** The mutexes a thread owns when it is at a program point: from
    the [lock] (or the return of a [wait]) to the [unlock], the
    [wait] or the end of the scope of the guard. *)
Definition holds (th : Thread T) (m : MutexId) : bool :=
  match th, m with
  | InStart (S585 | S586), TerminateMutex => true
  | InStart (S589 | S591 | S592 | S594), ThreadsMutex => true
  | InTerminate (T600 | T601), TerminateMutex => true
  | InTerminate (T605 | T606 | T607), ThreadsMutex => true
  | InQueue (Q667 | Q677 | Q678) _, QueriesMutex => true
  | InHandler (H613 | H614), ThreadsMutex => true
  | InHandler (H623 | H625), TerminateMutex => true
  | InHandler (H628 | H630 | H631 | H635 | H637 _), QueriesMutex => true
  | InHandler (H658 | H659 | H660 | H661 | H662), TerminateMutex => true
  | _, _ => false
  end
  || match th, m with
     | InHandler (H659 | H660), ThreadsMutex => true
     | _, _ => false
     end.

(** A worker is counted in [threads] from its [++threads] to its
    [--threads]. *)
Definition live (th : Thread T) : bool :=
  match th with
  | InHandler (H612 | H613 | H660 | H661 | H662 | Hret) => false
  | InHandler _ => true
  | _ => false
  end.

Fixpoint live_count (l : list (Thread T)) : Z :=
  match l with
  | [] => 0
  | th :: l' => (if live th then 1 else 0) + live_count l'
  end.

(** The query a worker has popped and not yet called back. *)
Definition inflight (th : Thread T) : list (Query T) :=
  match th with
  | InHandler (H637 q | H639 q | H654 q _) => [q]
  | _ => []
  end.

Definition inflight_all (l : list (Thread T)) : list (Query T) :=
  l ≫= inflight.

(** What a thread has found out about [threads] under
    [threadsMutex] and can still rely on. *)
Definition knows (th : Thread T) (s : Pool T) : Prop :=
  match th with
  | InStart S591 => threads s < maxThreads s
  | InStart S594 => ¬ threads s < maxThreads s
  | InTerminate T607 => threads s = 0
  | _ => True
  end.

(** Threads that can still pop a query or bring up a worker: a
    [start()] that has not returned, and a worker that has not seen
    the stop flag. *)
Definition active (th : Thread T) : bool :=
  match th with
  | InStart Sret => false
  | InStart _ => true
  | InHandler (H658 | H659 | H660 | H661 | H662 | Hret) => false
  | InHandler _ => true
  | _ => false
  end.

(** Every worker has left its loop and no [start()] is under way. *)
Definition stopped (s : Pool T) : Prop :=
  ∀ t th, procs s !! t = Some th → active th = false.

Definition is_CallStart (e : Event T) : bool :=
  match e with CallStart => true | _ => false end.

(** How far a [terminate()] of thread [t] has got, read off the
    history: the statements of lines 600, 602 and 607 it has
    executed, in this order. *)
Definition did (h : list (nat * Thread T)) (i t : nat) (th : Thread T) : Prop :=
  h !! i = Some (t, th).

Definition terminate_progress (t : nat) (pc : TerminatePc)
    (h : list (nat * Thread T)) : Prop :=
  match pc with
  | T599 | T600 => True
  | T601 | T602 => ∃ i, did h i t (InTerminate T600)
  | T604 | T605 | T606 | T606w | T607 =>
      ∃ i j, (i < j)%nat ∧ did h i t (InTerminate T600) ∧
             did h j t (InTerminate T602)
  | Tret =>
      ∃ i j k, (i < j < k)%nat ∧ did h i t (InTerminate T600) ∧
               did h j t (InTerminate T602) ∧
               did h k t (InTerminate T607)
  end.

(** ** The invariants of the pool *)

Definition mutex_inv (s : Pool T) : Prop :=
  ∀ t th m, procs s !! t = Some th → holds th m = true →
            owner s m = Some t.

Definition count_inv (s : Pool T) : Prop :=
  threads s = live_count (procs s).

Definition fifo_inv (s : Pool T) : Prop :=
  enqueued s = dequeued s ++ queries s.

Definition callback_inv (s : Pool T) : Prop :=
  callback <$> dequeued s ≡ₚ
    (fst <$> delivered s) ++ (callback <$> inflight_all (procs s)).

Definition knows_inv (s : Pool T) : Prop :=
  ∀ t th, procs s !! t = Some th → knows th s.

Definition history_inv (s : Pool T) : Prop :=
  ∀ t pc, procs s !! t = Some (InTerminate pc) →
          terminate_progress t pc (history s).

(** A worker about to take [queries.front()] has seen the queue
    non-empty under the lock. *)
Definition front_inv (s : Pool T) : Prop :=
  ∀ t, procs s !! t = Some (InHandler H635) → queries s ≠ [].

(** The program point a thread blocked in a [wait] on [cv] is at. *)
Definition waits (th : Thread T) (cv : CondId) : bool :=
  match th, cv with
  | InStart S592w, ThreadsChanged => true
  | InTerminate T606w, ThreadsChanged => true
  | InHandler H630w, WakeUp => true
  | _, _ => false
  end.

(** Only threads blocked in a [wait] are in the list of a condition
    variable. *)
Definition waiters_inv (s : Pool T) : Prop :=
  ∀ cv t, t ∈ waiters s cv →
          ∃ th, procs s !! t = Some th ∧ waits th cv = true.

(** The program points a call enters at. *)
Definition entry (th : Thread T) : Prop :=
  th = InStart S584 ∨ th = InTerminate T599 ∨ ∃ q, th = InQueue Q666 q.

Record inv (s : Pool T) : Prop := mkInv {
  inv_mutex : mutex_inv s;
  inv_count : count_inv s;
  inv_fifo : fifo_inv s;
  inv_callback : callback_inv s;
  inv_knows : knows_inv s;
  inv_history : history_inv s;
  inv_front : front_inv s;
  inv_waiters : waiters_inv s
}.

(** ** [start()] left alone on a stopped pool

    What holds while one [start()], called on a pool in which every
    thread has returned, and the workers it creates are the only
    threads that move. *)

Definition returned (th : Thread T) : bool :=
  match th with
  | InStart Sret | InTerminate Tret | InQueue Qret _ | InHandler Hret => true
  | _ => false
  end.

(** A worker that has not seen the stop flag set. *)
Definition inloop (th : Thread T) : bool :=
  match th with
  | InHandler (H658 | H659 | H660 | H661 | H662 | Hret) => false
  | InHandler _ => true
  | _ => false
  end.

(** The workers that have not yet signalled that they are up, by how far
    they are. *)
Definition at612 (th : Thread T) : bool :=
  match th with InHandler H612 => true | _ => false end.

Definition at613 (th : Thread T) : bool :=
  match th with InHandler H613 => true | _ => false end.

Definition at614_615 (th : Thread T) : bool :=
  match th with InHandler (H614 | H615) => true | _ => false end.

(** The number of threads that satisfy [f]. *)
Fixpoint tally (f : Thread T → bool) (l : list (Thread T)) : Z :=
  match l with
  | [] => 0
  | th :: l' => (if f th then 1 else 0) + tally f l'
  end.

(** A worker that has signalled that it is up and is in its loop. *)
Definition up (th : Thread T) : Prop :=
  inloop th = true ∧ at612 th = false ∧ at613 th = false ∧
  at614_615 th = false.

(** The run in which [start()], thread [b], and each worker in turn get
    the processor exactly when they can move: [start()] tests, creates
    worker [w] and waits; the worker locks, counts itself, unlocks and
    signals; [start()] wakes up. *)
Definition round (b w : nat) : list (Event T) :=
  replicate 3 (Run b 0%nat) ++ replicate 4 (Run w 0%nat) ++ [Run b 0%nat].

Fixpoint rounds (b w n : nat) : list (Event T) :=
  match n with
  | O => []
  | S n' => round b w ++ rounds b (S w) n'
  end.

Definition start_schedule (b n : nat) : list (Event T) :=
  [CallStart] ++ replicate 4 (Run b 0%nat) ++ rounds b (S b) n ++
  replicate 2 (Run b 0%nat).

(** [start()], thread [b], is at the test of its loop: it owns
    [threadsMutex] and nobody waits for the counter. *)
Definition at_test (b : nat) (s : Pool T) : Prop :=
  status s = Running ∧ procs s !! b = Some (InStart S589) ∧
  threadsMutex s = Some b ∧ threadsChanged s = [].

Definition is_Run (e : Event T) : bool :=
  match e with Run _ _ => true | _ => false end.

(** Every thread has returned, nobody holds the two mutexes [start()]
    takes, nobody waits for the counter. *)
Record at_rest (s : Pool T) : Prop := mkAtRest {
  rest_status : status s = Running;
  rest_threadsMutex : threadsMutex s = None;
  rest_terminateMutex : terminateMutex s = None;
  rest_threadsChanged : threadsChanged s = [];
  rest_returned : ∀ t th, procs s !! t = Some th → returned th = true
}.

(** The not-yet-up workers and the waiting [start()] (thread [b]) go
    together. *)
Definition sync (b : nat) (pc : StartPc) (s : Pool T) : Prop :=
  let n612 := tally at612 (procs s) in
  let n613 := tally at613 (procs s) in
  let n645 := tally at614_615 (procs s) in
  match pc with
  | S592 => n612 = 1 ∧ n613 = 0 ∧ n645 = 0 ∧ threadsChanged s = []
  | S592w =>
      (threadsChanged s = [b] ∧ n612 + n613 + n645 = 1) ∨
      (threadsChanged s = [] ∧ n612 + n613 + n645 = 0)
  | _ => n612 + n613 + n645 = 0 ∧ threadsChanged s = []
  end.

Definition early (pc : StartPc) : bool :=
  match pc with S584 | S585 | S586 | S588 => true | _ => false end.

Record alone (b : nat) (s : Pool T) : Prop := mkAlone {
  alone_inv : inv s;
  alone_class : ∀ t th, procs s !! t = Some th →
    ((t < b)%nat ∧ returned th = true) ∨
    (t = b ∧ ∃ pc, th = InStart pc) ∨
    ((b < t)%nat ∧ inloop th = true);
  alone_start : ∃ pc,
    procs s !! b = Some (InStart pc) ∧
    sync b pc s ∧
    (pc = S584 ∨ pc = S585 ∨ terminateBool s = false) ∧
    (early pc = true → tally inloop (procs s) = 0) ∧
    (pc = Sret → maxThreads s ≤ threads s);
  alone_length :
    tally inloop (procs s) = Z.of_nat (length (procs s)) - Z.of_nat b - 1;
  alone_max : tally inloop (procs s) ≤ Z.max 0 (maxThreads s)
}.

End Tables.

End PoolSpec.

(** * A concrete statement type and concrete executions *)

Module Demo.
Import Sql.
Local Open Scope string_scope.

(** Statements are numbered; what [execute] does depends on the number
    alone. *)
Global Instance demo_statement : Statement nat := λ st _ _ _ _,
  match st with
  | 0 => Returns
  | 1 => ThrowsStd (CStr.literal "duplicate key")
  | 2 => ThrowsStd (CStr.literal "x")
  | _ => ThrowsOther
  end%nat.

Definition query (st : nat) (cb : Callback) : Query nat :=
  mkQuery st None None None None cb.

Arguments query (st cb)%_nat.

(** Thread [t] takes [n] steps in a row. *)
Definition runs (t n : nat) : list (Event nat) := replicate n (Run t 0%nat).

(** A pool of one worker, with message type 7. *)
Definition pool1 : Pool nat := Connection 7 1 true.

(** Thread 0 calls [start()], which brings up thread 1 as the worker
    and returns. *)
Definition start_up : list (Event nat) :=
  [CallStart] ++ runs 0 7 ++ runs 1 4 ++ runs 0 3.

(** A new thread [t] calls [queue] and returns. *)
Definition enqueue (st : nat) (cb : Callback) (t : nat) : list (Event nat) :=
  [CallQueue (query st cb)] ++ runs t 4.

Arguments enqueue (st cb t)%_nat.

(** Thread 3 calls [terminate()] and sets the flag before worker 1 has
    looked at the queue; the worker leaves; [terminate()] is at its
    last statement. *)
Definition shut_down : list (Event nat) :=
  [CallTerminate] ++ runs 3 7 ++ runs 1 7 ++ runs 3 2.

(** Thread 4 calls [start()] again; thread 5 is the new worker and
    serves the queue. *)
Definition restart : list (Event nat) :=
  [CallStart] ++ runs 4 7 ++ runs 5 4 ++ runs 4 3 ++ runs 5 9.

(** The worker pops the query and is about to execute it. *)
Definition serve_to_execute : list (Event nat) := runs 1 7.

(** The state an execution ends in ([pool1] if it cannot be run). *)
Definition final (es : list (Event nat)) : Pool nat :=
  default pool1 (run es pool1).

(** Worker 1 is about to execute a query that fails with "duplicate
    key". *)
Definition before_execute : Pool nat :=
  Eval vm_compute in final (start_up ++ enqueue 1 100 2 ++ serve_to_execute).

(** The pool is up: worker 1 is at the head of its loop. *)
Definition running : Pool nat := Eval vm_compute in final start_up.

(** A query was queued, then [terminate()] was called; it is at its
    last statement. *)
Definition returning : Pool nat :=
  Eval vm_compute in final (start_up ++ enqueue 0 100 2 ++ shut_down).

(** [terminate()] has returned. *)
Definition shut : Pool nat :=
  Eval vm_compute in
    final (start_up ++ enqueue 0 100 2 ++ shut_down ++ runs 3 1).

(** Two queries were queued and the worker has popped one. *)
Definition one_popped : Pool nat :=
  Eval vm_compute in
    final (start_up ++ enqueue 0 100 2 ++ enqueue 1 101 3 ++ runs 1 6).

(** [terminate()] has set the stop flag and the worker has not seen it
    yet. *)
Definition stopping : Pool nat :=
  Eval vm_compute in final (start_up ++ [CallTerminate] ++ runs 2 3).

End Demo.

(** * Further members of [namespace Data] *)

Module DataMore.
Import Data.

(** The non-const [getSqlPtr]:
    [return const_cast<void*>(getConstPtr(index));] *)
Definition getSqlPtr_mutable (s : SetClass) (index : nat) : Ptr :=
  getConstPtr s index.

Section Access.
Context {T : Type}.

(** [T& front()]: the object behind [data.front().get()];
    [data.front()] is undefined on an empty list. *)
Definition front (c : SetContainer T) : option T :=
  p ← head (data c); objs c !! p.

End Access.

End DataMore.

(** * More invariants of the worker pool *)

Module PoolSafety.
Import Sql PoolSpec.

Section Safety.
Context {T : Type} `{Statement T}.

(** The mutex a statement has to own: the one that guards the member
    it reads or writes ([terminateMutex] for [terminateBool],
    [threadsMutex] for [threads], the queue's own mutex for the
    queue), or the one it releases. *)
Definition guard (i : Instr T) : option MutexId :=
  match i with
  | ISetTerminate _ _ | IIfTerminate _ _ => Some TerminateMutex
  | IAddThreads _ _ | IIfThreadsBelowMax _ _ | IIfThreads _ _ =>
      Some ThreadsMutex
  | IPush _ _ | IPop _ | IIfNoQueries _ _ => Some QueriesMutex
  | IUnlock m _ | IWait _ m _ => Some m
  | _ => None
  end.

(** A mutex is owned only by a thread that is between its [lock] and
    its [unlock]. *)
Definition owner_inv (s : Pool T) : Prop :=
  ∀ m t, owner s m = Some t →
         ∃ th, procs s !! t = Some th ∧ holds th m = true.

(** Every message handed to a callback is what lines 639-652 make of
    a popped query with that callback; a query a worker carries has
    been popped. *)
Definition delivery_inv (s : Pool T) : Prop :=
  (∀ cb m, (cb, m) ∈ delivered s →
           ∃ q, q ∈ dequeued s ∧ callback q = cb ∧
                handle (typeVal s) q = Completed m) ∧
  (∀ t th, procs s !! t = Some th →
           ∀ q, q ∈ inflight th → q ∈ dequeued s) ∧
  (∀ t q m, procs s !! t = Some (InHandler (H654 q m)) →
            handle (typeVal s) q = Completed m).

(** The process stops running only in the [execute] of line 645. *)
Definition crash_inv (s : Pool T) : Prop :=
  match status s with
  | Running => True
  | Terminated =>
      ∃ t q, procs s !! t = Some (InHandler (H639 q)) ∧
             handle (typeVal s) q = Uncaught
  | UndefinedBehaviour =>
      ∃ t q, procs s !! t = Some (InHandler (H639 q)) ∧
             handle (typeVal s) q = Undefined
  end.

(** Some [start()] has executed line 585; some [terminate()] has
    executed line 600. *)
Definition cleared (h : list (nat * Thread T)) : Prop :=
  ∃ i u, did h i u (InStart S585).

Definition raised (h : list (nat * Thread T)) : Prop :=
  ∃ i u, did h i u (InTerminate T600).

(** A [start()] that has written the stop flag, or a worker. *)
Definition after_clear (th : Thread T) : bool :=
  match th with
  | InStart (S584 | S585) => false
  | InStart _ => true
  | InHandler _ => true
  | _ => false
  end.

(** A worker that has seen the stop flag set. *)
Definition leaving (th : Thread T) : bool :=
  match th with
  | InHandler (H658 | H659 | H660 | H661 | H662 | Hret) => true
  | _ => false
  end.

Definition flag_inv (s : Pool T) : Prop :=
  (∀ t th, procs s !! t = Some th → after_clear th = true →
           cleared (history s)) ∧
  (terminateBool s = true → cleared (history s) → raised (history s)) ∧
  (∀ t th, procs s !! t = Some th → leaving th = true →
           raised (history s)).

Record safe (s : Pool T) : Prop := mkSafe {
  safe_owner : owner_inv s;
  safe_delivery : delivery_inv s;
  safe_crash : crash_inv s;
  safe_flag : flag_inv s
}.

(** ** A pool that is to have no worker *)

(** A thread that is neither a worker nor a [start()] creating one. *)
Definition no_worker (th : Thread T) : bool :=
  match th with
  | InHandler _ => false
  | InStart (S591 | S592 | S592w) => false
  | _ => true
  end.

Record unmanned (s : Pool T) : Prop := mkUnmanned {
  unmanned_max : maxThreads s ≤ 0;
  unmanned_threads : threads s = 0;
  unmanned_procs : ∀ t th, procs s !! t = Some th → no_worker th = true;
  unmanned_dequeued : dequeued s = [];
  unmanned_delivered : delivered s = []
}.

(** ** A [terminate()] that comes between a worker's test of the stop
    flag and its wait *)

(** Worker [w], at the head of its loop, tests the flag and releases
    [terminateMutex]; [terminate()] is called as thread [u] and sets
    the flag and broadcasts; the worker locks the queue, finds it
    empty and waits; [terminate()] locks [threadsMutex], reads
    [threads] and waits. *)
Definition late_wait (w u : nat) : list (Event T) :=
  replicate 3 (Run w 0%nat) ++ [CallTerminate] ++
  replicate 4 (Run u 0%nat) ++ replicate 3 (Run w 0%nat) ++
  replicate 3 (Run u 0%nat).

(** ** A query and the workers that wait *)

(** A worker that will test the queue before it waits again: it is on
    its way to line 628, or serving a query. *)
Definition heading_for_queue (th : Thread T) : bool :=
  match th with
  | InHandler (H612 | H613 | H614 | H615 | H622 | H623 | H625 | H627
              | H628 | H630w | H631 | H635 | H637 _ | H639 _ | H654 _ _) =>
      true
  | _ => false
  end.

(** A [queue()] that has pushed its query and not yet signalled. *)
Definition about_to_notify (th : Thread T) : bool :=
  match th with InQueue Q677 _ => true | _ => false end.

(** Somebody takes care of the queue: a worker that is not blocked in
    its wait and will test the queue, or a [queue()] about to
    signal. *)
Definition attended (s : Pool T) : Prop :=
  ∃ t th, procs s !! t = Some th ∧
          ((heading_for_queue th = true ∧ t ∉ wakeUp s) ∨
           about_to_notify th = true).

(** While no [terminate()] has set the stop flag, a non-empty queue
    with a worker waiting on [wakeUp] is attended; a worker waits
    only after it has found the queue empty, under the queue's mutex;
    no thread is twice in the list of [wakeUp]. *)
Record handoff_inv (s : Pool T) : Prop := mkHandoff {
  handoff_attended :
    ¬ raised (history s) → queries s ≠ [] → wakeUp s ≠ [] → attended s;
  handoff_wait :
    ∀ t, procs s !! t = Some (InHandler H630) → queries s = [];
  handoff_nodup : NoDup (wakeUp s)
}.

(** ** [terminate()] on a pool whose workers are all idle *)

(** Worker [w], woken by the broadcast, takes and releases the
    queue's mutex, finds the stop flag set, counts itself out,
    signals and returns (nine statements); [terminate()], thread
    [u], wakes up, reads [threads] and waits again, or returns if
    it has read 0 (three statements). *)
Definition leave (u w : nat) : list (Event T) :=
  replicate 9 (Run w 0%nat) ++ replicate 3 (Run u 0%nat).

Fixpoint leaves (u : nat) (ws : list nat) : list (Event T) :=
  match ws with
  | [] => []
  | w :: ws' => leave u w ++ leaves u ws'
  end.

Definition stop_schedule (u : nat) (ws : list nat) : list (Event T) :=
  [CallTerminate] ++ replicate 7 (Run u 0%nat) ++ leaves u ws.

(** [terminate()], thread [u], has broadcast and waits for the
    workers [ws], which are still where their wait left them;
    every other thread has returned. *)
Record winding_down (u : nat) (ws : list nat) (s : Pool T) : Prop :=
  mkWindingDown {
  wd_status : status s = Running;
  wd_flag : terminateBool s = true;
  wd_free : ∀ m, owner s m = None;
  wd_wakeUp : wakeUp s = [];
  wd_threads : threads s = Z.of_nat (length ws);
  wd_workers : ∀ w, w ∈ ws → procs s !! w = Some (InHandler H630w);
  wd_nodup : NoDup ws;
  wd_u : u ∉ ws;
  wd_terminate :
    match ws with
    | [] => procs s !! u = Some (InTerminate Tret) ∧ threadsChanged s = []
    | _ :: _ =>
        procs s !! u = Some (InTerminate T606w) ∧ threadsChanged s = [u]
    end;
  wd_others : ∀ t th, procs s !! t = Some th → t ≠ u → t ∉ ws →
                      returned th = true
}.

End Safety.

End PoolSafety.

(** * More executions *)

Module Scenarios.
Import Sql PoolSpec Demo.
Local Open Scope string_scope.

(** A statement class given by what its [execute] does. *)
Inductive Stmt : Type :=
| Succeeds
| Fails (what : list ascii)
| Aborts.

Global Instance Stmt_statement : Statement Stmt := λ st _ _ _ _,
  match st with
  | Succeeds => Returns
  | Fails what => ThrowsStd what
  | Aborts => ThrowsOther
  end.

Definition stmt (st : Stmt) (cb : Callback) : Query Stmt :=
  mkQuery st None None None None cb.

(** The buffer of an exception whose description is empty, with what
    happens to lie behind it in the same allocation. *)
Definition empty_then (behind : string) : list ascii :=
  CStr.NUL :: CStr.literal behind.

(** The worker of [pool1] has executed a statement that throws
    something that is no [std::exception]. *)
Definition crashed : Pool nat :=
  Eval vm_compute in
    final (start_up ++ enqueue 3 100 2 ++ serve_to_execute ++ runs 1 1).

(** A query was served and its callback called. *)
Definition served : Pool nat :=
  Eval vm_compute in
    final (start_up ++ enqueue 1 100 2 ++ serve_to_execute ++ runs 1 2).

(** A pool that is to have no thread: [start()] has returned and a
    query has been queued. *)
Definition pool0 : Pool nat := Connection 7 0 true.

Definition waiting_for_nobody : Pool nat :=
  Eval vm_compute in
    default pool0 (run ([CallStart] ++ runs 0 6 ++ enqueue 0 100 1) pool0).

(** The pool is up and a query that fails with "duplicate key" is in
    the queue. *)
Definition queued : Pool nat :=
  Eval vm_compute in final (start_up ++ enqueue 1 100 2).

(** The worker of [pool1] is about to test the stop flag. *)
Definition testing : Pool nat := Eval vm_compute in final (start_up ++ runs 1 1).

(** A pool of two workers, both in their wait on [wakeUp]. *)
Definition pool2 : Pool nat := Connection 7 2 false.

Definition two_idle : Pool nat :=
  Eval vm_compute in
    default pool2 (run (start_schedule 0 2 ++ runs 1 6 ++ runs 2 6) pool2).

(** A query was pushed and [queue()] has signalled: worker 2 was taken
    off the list of [wakeUp], worker 1 is still on it. *)
Definition notified : Pool nat :=
  Eval vm_compute in
    default pool2
      (run (start_schedule 0 2 ++ runs 1 6 ++ runs 2 6 ++
            [CallQueue (query 0 100)] ++ [Run 3 1; Run 3 1; Run 3 1])
         pool2).

End Scenarios.

(** * Properties of the data-binding types *)

Module DataProps.
Import Data.

(** ** [Nullable] *)

(** C2, as the specification states it, fails: a default-constructed
    [Nullable] does not report null. *)
Lemma Nullable_default_reports_not_null :
  ¬ (is_null (Nullable_default 0%Z) = true).
Proof. discriminate. Qed.

(** C2 (amended): both constructors pass [false] to [NullablePar], so a
    default-constructed [Nullable] reports not-null, and so does one
    constructed from a value [x], which stores [x] and converts back
    to it. *)
Theorem Nullable_constructors {T : Type} (dflt x : T) :
  is_null (Nullable_default dflt) = false ∧
  is_null (Nullable_of x) = false ∧
  object (Nullable_of x) = x ∧
  Nullable_to (Nullable_of x) = x.
Proof. repeat split. Qed.

(** ** [Set::getSqlSize] *)

Lemma getSqlSize_overridden (s : SetClass) (f : nat → nat) (index : nat) :
  getSqlSize_override s = Some f → getSqlSize s index = Value (f index).
Proof. unfold getSqlSize. by intros ->. Qed.

Example TestSet_getSqlSize_6 : getSqlSize (TestSet 0) 6 = Value 16%nat.
Proof. reflexivity. Qed.

(** C9: in a class that does not override [getSqlSize], the call runs
    the body of [Set::getSqlSize], which has no [return]: at every
    index control flows off its end and no value is returned. *)
Theorem getSqlSize_default_returns_nothing (s : SetClass) (index : nat)
    (Hdefault : getSqlSize_override s = None) :
  getSqlSize s index = Set_getSqlSize index ∧
  Set_getSqlSize index = FlowsOffEnd ∧
  ∀ v, getSqlSize s index ≠ Value v.
Proof.
  unfold getSqlSize. rewrite Hdefault. repeat split. intros v. discriminate.
Qed.

Lemma getSqlSize_default_returns_nothing_witness :
  getSqlSize_override (TestSet_no_size 0) = None ∧
  fixed_kind (getSqlType (TestSet_no_size 0) 6) = true ∧
  (getSqlSize (TestSet_no_size 0) 6 = Set_getSqlSize 6 ∧
   Set_getSqlSize 6 = FlowsOffEnd ∧
   ∀ v, getSqlSize (TestSet_no_size 0) 6 ≠ Value v).
Proof.
  split; [reflexivity|]. split; [reflexivity|].
  apply (getSqlSize_default_returns_nothing (TestSet_no_size 0) 6).
  reflexivity.
Defined.


(** ** [SetContainer] *)

Section SetContainer.
Context {T : Type} (T_new : T).
Implicit Types c : SetContainer T.

Lemma wf_init : wf (SetContainer_init (T:=T)).
Proof. constructor. Qed.

Lemma manufacture_eq c :
  manufacture T_new c =
    Some (mkSetContainer (objs c ++ [T_new]) (data c ++ [length (objs c)]),
          length (data c)).
Proof.
  unfold manufacture, end_. cbn [Data.data].
  rewrite length_app, Nat.add_1_r. reflexivity.
Qed.

Lemma delete_last_snoc (l : list nat) (p : nat) :
  delete (length l) (l ++ [p]) = l.
Proof. induction l as [|x l IH]; [done|]. cbn. f_equal. exact IH. Qed.

Lemma trim_snoc (os : list T) (l : list nat) (p : nat) :
  trim (mkSetContainer os (l ++ [p])) = Some (mkSetContainer os l).
Proof.
  unfold trim, end_, erase. cbn [Data.data Data.objs].
  rewrite length_app, Nat.add_1_r. cbn.
  rewrite decide_True by lia. cbn [mbind option_bind].
  by rewrite delete_last_snoc.
Qed.

Lemma trim_empty c : data c = [] → trim c = None.
Proof. unfold trim, end_. by intros ->. Qed.

Lemma trim_is_Some c : is_Some (trim c) ↔ size c ≠ 0%nat.
Proof.
  destruct c as [os l]. unfold size. cbn [Data.data].
  destruct (list.last l) as [p|] eqn:Hl.
  - apply last_Some in Hl as [l' ->]. rewrite trim_snoc, length_app.
    cbn. split; [lia | eauto].
  - apply last_None in Hl as ->. cbn. split; [by intros [? ?] | done].
Qed.

Lemma trim_size c c' : trim c = Some c' → size c = S (size c').
Proof.
  destruct c as [os l]. destruct (list.last l) as [p|] eqn:Hl.
  - apply last_Some in Hl as [l' ->]. rewrite trim_snoc.
    intros [= <-]. unfold size. cbn. rewrite length_app. cbn. lia.
  - apply last_None in Hl as ->. discriminate.
Qed.

Lemma wf_manufacture c c' it :
  wf c → manufacture T_new c = Some (c', it) → wf c'.
Proof.
  rewrite manufacture_eq. intros Hwf [= <- _]. unfold wf in *. cbn.
  rewrite length_app. cbn. apply Forall_app. split.
  - eapply list.Forall_impl; [exact Hwf|]. cbn. intros; lia.
  - repeat constructor. lia.
Qed.

Lemma wf_trim c c' : wf c → trim c = Some c' → wf c'.
Proof.
  destruct c as [os l]. destruct (list.last l) as [p|] eqn:Hl.
  - apply last_Some in Hl as [l' ->]. rewrite trim_snoc.
    intros Hwf [= <-]. unfold wf in *. cbn in *.
    by apply Forall_app in Hwf as [? _].
  - apply last_None in Hl as ->. discriminate.
Qed.

(** Every container the two operations build from an empty one is
    well formed. *)
Lemma wf_apply_ops (os : list Op) c c' :
  wf c → apply_ops T_new c os = Some c' → wf c'.
Proof.
  revert c. induction os as [|o os IH]; intros c Hwf; [by intros [= <-]|].
  cbn. destruct (apply_op T_new c o) as [c1|] eqn:Hop; [|done].
  cbn. apply IH. destruct o; cbn in Hop.
  - destruct (manufacture T_new c) as [[c2 it]|] eqn:Hm; [|done].
    injection Hop as <-. by eapply wf_manufacture.
  - by eapply wf_trim.
Qed.

Lemma contents_length c : wf c → length (contents c) = size c.
Proof.
  unfold wf, contents, size. induction 1 as [|p l Hp _ IH]; [done|].
  cbn. apply lookup_lt_is_Some_2 in Hp as [x ->]. cbn. by rewrite IH.
Qed.

(** The loop visits the elements from [it] on, and stops. *)
Lemma iterate_from_drop c (fuel : nat) (it : iterator) :
  wf c → (it ≤ size c)%nat → (size c - it ≤ fuel)%nat →
  iterate_from fuel c it =
    Some (omap (λ p, (λ x, (p, x)) <$> objs c !! p) (drop it (data c))).
Proof.
  intros Hwf. revert it. unfold size, end_.
  induction fuel as [|fuel IH]; intros it Hle Hfuel.
  - assert (it = length (data c)) as -> by lia.
    cbn. unfold end_. rewrite decide_True by done. by rewrite drop_all.
  - cbn. unfold end_. destruct (decide (it = length (data c))) as [->|Hne].
    + by rewrite drop_all.
    + assert (it < length (data c))%nat as Hlt by lia.
      apply lookup_lt_is_Some_2 in Hlt as [p Hp].
      unfold iter_deref, iter_get, iterator in *. rewrite Hp. cbn.
      assert (is_Some (objs c !! p)) as [x Hx].
      { apply lookup_lt_is_Some_2.
        unfold wf in Hwf. rewrite Forall_lookup in Hwf. eauto. }
      rewrite Hx. cbn. unfold iter_inc.
      rewrite IH by lia. cbn.
      rewrite (drop_S _ _ _ Hp). cbn. by rewrite Hx.
Qed.

Lemma iterate_contents c (fuel : nat) :
  wf c → (size c ≤ fuel)%nat → iterate fuel c = Some (contents c).
Proof.
  intros Hwf Hfuel. unfold iterate, begin_.
  rewrite iterate_from_drop by (done || lia). by rewrite drop_0.
Qed.

Lemma contents_manufacture c :
  wf c →
  contents (mkSetContainer (objs c ++ [T_new]) (data c ++ [length (objs c)]))
  = contents c ++ [(length (objs c), T_new)].
Proof.
  intros Hwf. unfold contents. cbn [Data.objs Data.data].
  rewrite omap_app. cbn. rewrite lookup_app_r, Nat.sub_diag by done. cbn.
  f_equal. unfold wf in Hwf. induction Hwf as [|p l Hp _ IH]; [done|].
  cbn. rewrite lookup_app_l by done. by rewrite IH.
Qed.

Lemma manufacture_n_spec (K : nat) c :
  wf c →
  ∃ c', manufacture_n T_new K c = Some c' ∧ wf c' ∧
        data c' = data c ++ seq (length (objs c)) K ∧
        length (objs c') = (length (objs c) + K)%nat ∧
        contents c' =
          contents c ++ map (λ p, (p, T_new)) (seq (length (objs c)) K).
Proof.
  unfold manufacture_n. revert c.
  induction K as [|K IH]; intros c Hwf.
  - exists c. cbn. rewrite !app_nil_r, Nat.add_0_r. done.
  - cbn [replicate apply_ops apply_op]. rewrite manufacture_eq. cbn [fmap option_fmap option_map fst mbind option_bind].
    set (c1 := mkSetContainer _ _).
    assert (wf c1) as Hwf1.
    { eapply wf_manufacture; [exact Hwf | apply manufacture_eq]. }
    destruct (IH c1 Hwf1) as (c' & Hrun & Hwf' & Hdata & Hobjs & Hcont).
    exists c'. split; [exact Hrun|]. split; [exact Hwf'|].
    subst c1. cbn [Data.data Data.objs] in *.
    rewrite length_app in *. cbn [length] in *.
    rewrite Nat.add_1_r in *.
    repeat split.
    + rewrite Hdata, <- app_assoc. done.
    + lia.
    + rewrite Hcont, contents_manufacture, <- app_assoc by done. done.
Qed.

(** C8: appending [K] elements with [manufacture] and then iterating
    forward visits what was there before followed by exactly the [K]
    new elements, in the order they were appended (so exactly [K]
    elements for a container that was empty).  A [trim] after an
    append makes the size one less and removes the element just
    appended and nothing else: the list is again what it was before
    the append, and iterating gives the same as before. *)
Theorem append_iterate_trim c (K : nat) (Hwf : wf c) :
  (∃ c', manufacture_n T_new K c = Some c' ∧
         size c' = (size c + K)%nat ∧
         iterate (size c) c = Some (contents c) ∧
         iterate (size c') c' =
           Some (contents c ++
                 map (λ p, (p, T_new)) (seq (length (objs c)) K)) ∧
         (size c = 0%nat →
          ∃ l, iterate (size c') c' = Some l ∧ length l = K ∧
               l = map (λ p, (p, T_new)) (seq (length (objs c)) K))) ∧
  (∃ c1 it c2, manufacture T_new c = Some (c1, it) ∧
               size c1 = S (size c) ∧
               iter_get c1 it = Some (length (objs c)) ∧
               iter_deref c1 it = Some T_new ∧
               (length (objs c) ∉ data c) ∧
               trim c1 = Some c2 ∧
               size c2 = (size c1 - 1)%nat ∧
               data c2 = data c ∧
               iterate (size c2) c2 = iterate (size c) c).
Proof.
  split.
  - destruct (manufacture_n_spec K c Hwf)
      as (c' & Hrun & Hwf' & Hdata & Hobjs & Hcont).
    exists c'. split; [exact Hrun|].
    assert (size c' = (size c + K)%nat) as Hsize.
    { unfold size. rewrite Hdata, length_app, length_seq. done. }
    split; [exact Hsize|].
    split; [by apply iterate_contents|].
    split; [by rewrite iterate_contents, Hcont|].
    intros Hempty. eexists. split; [by rewrite iterate_contents, Hcont|].
    assert (contents c = []) as ->.
    { apply length_zero_iff_nil. by rewrite contents_length. }
    cbn. by rewrite length_map, length_seq.
  - rewrite manufacture_eq. destruct c as [os l]. cbn [Data.objs Data.data].
    eexists _, _, _. split; [reflexivity|].
    unfold size, iter_get, iter_deref, iter_get. cbn [Data.objs Data.data].
    rewrite length_app, Nat.add_1_r.
    split; [done|].
    rewrite lookup_app_r, Nat.sub_diag by done. cbn.
    split; [done|].
    rewrite lookup_app_r, Nat.sub_diag by done.
    split; [done|].
    split.
    { intros Hin. unfold wf in Hwf. rewrite list.Forall_forall in Hwf.
      apply Hwf in Hin. cbn in Hin. lia. }
    rewrite trim_snoc. split; [done|].
    cbn [Data.data]. split; [lia|]. split; [done|].
    rewrite !iterate_contents; try done.
    + f_equal. unfold contents. cbn [Data.objs Data.data].
      unfold wf in Hwf. cbn in Hwf.
      induction Hwf as [|p l Hp _ IH]; [done|].
      cbn. rewrite lookup_app_l by done. by rewrite IH.
    + unfold wf in *. cbn in *. eapply list.Forall_impl; [exact Hwf|].
      cbn. intros. rewrite length_app. lia.
Qed.

Lemma apply_ops_size c (os : list Op) c' :
  apply_ops T_new c os = Some c' →
  (size c' + count_op OpTrim os = size c + count_op OpManufacture os)%nat.
Proof.
  revert c. induction os as [|o os IH]; intros c.
  - intros [= ->]. cbn. lia.
  - cbn [apply_ops]. destruct (apply_op T_new c o) as [c1|] eqn:Hop; [|done].
    cbn. intros Hrun. apply IH in Hrun.
    cbn [count_op]. destruct o; cbn in Hop.
    + rewrite manufacture_eq in Hop. injection Hop as <-.
      repeat case_decide; try done.
      unfold size in *. cbn [Data.data] in Hrun.
      rewrite length_app in Hrun. cbn [length] in Hrun. lia.
    + apply trim_size in Hop.
      repeat case_decide; try done. lia.
Qed.

(** C10: [trim] decrements [data.end()] and erases there, which is
    undefined on an empty list: [trim] is defined exactly on the
    non-empty containers.  For a container built from an empty one
    by appends and trims, that is exactly when more appends than
    trims came before: every defined [trim] has an append of its own
    before it. *)
Theorem trim_defined_iff_untrimmed_append (os : list Op) c
    (Hrun : apply_ops T_new SetContainer_init os = Some c) :
  trim (SetContainer_init (T:=T)) = None ∧
  (empty c = true → trim c = None) ∧
  (is_Some (trim c) ↔ size c ≠ 0%nat) ∧
  (is_Some (trim c) ↔
     (count_op OpTrim os < count_op OpManufacture os)%nat) ∧
  (is_Some (apply_ops T_new SetContainer_init (os ++ [OpTrim])) →
     (count_op OpTrim os < count_op OpManufacture os)%nat).
Proof.
  pose proof (apply_ops_size _ _ _ Hrun) as Hsz.
  change (size SetContainer_init) with 0%nat in Hsz.
  split; [done|].
  split.
  { unfold empty. intros He. apply bool_decide_eq_true in He.
    by apply trim_empty. }
  split; [apply trim_is_Some|].
  split; [rewrite trim_is_Some; lia|].
  assert (apply_ops T_new SetContainer_init (os ++ [OpTrim]) = trim c) as ->.
  { clear Hsz. revert Hrun. generalize (SetContainer_init (T:=T)).
    induction os as [|o os IH]; intros c0.
    - intros [= ->]. cbn. by destruct (trim c).
    - cbn. destruct (apply_op T_new c0 o); [apply IH | done]. }
  rewrite trim_is_Some. lia.
Qed.

End SetContainer.

(** The two theorems at a container of integers. *)
Lemma append_iterate_trim_witness :
  wf (SetContainer_init (T:=Z)) ∧
  ∃ c', manufacture_n 0%Z 3 SetContainer_init = Some c' ∧
        iterate (size c') c' = Some [(0, 0%Z); (1, 0%Z); (2, 0%Z)]%nat.
Proof.
  split; [apply wf_init|].
  destruct (append_iterate_trim 0%Z SetContainer_init 3 wf_init)
    as [(c' & Hrun & _ & _ & Hit & _) _].
  exists c'. split; [exact Hrun | exact Hit].
Defined.

Lemma trim_defined_iff_untrimmed_append_witness :
  ∃ c, apply_ops 0%Z SetContainer_init
         [OpManufacture; OpTrim; OpManufacture] = Some c ∧
       is_Some (trim c) ∧
       apply_ops 0%Z SetContainer_init [OpManufacture; OpTrim; OpTrim]
         = None.
Proof.
  eexists. split; [reflexivity|]. split; [|reflexivity].
  apply (trim_defined_iff_untrimmed_append 0%Z
           [OpManufacture; OpTrim; OpManufacture] _ eq_refl).
  vm_compute. lia.
Defined.

End DataProps.

(** * Properties of the worker pool *)

Module PoolProps.
Import Sql PoolSpec.

Section Steps.
Context {T : Type} `{Statement T}.
Implicit Types (s : Pool T) (th k : Thread T) (t : nat).

(** ** Taking steps apart *)

Lemma step_Some t pick s s' :
  step t pick s = Some s' →
  ∃ th s1, status s = Running ∧ procs s !! t = Some th ∧
           exec_instr t pick (code th) s = Some s1 ∧
           s' = record t th s1.
Proof.
  unfold step. destruct (status s) eqn:Hst; try done.
  destruct (procs s !! t) as [th|] eqn:Hth; [|done]. cbn.
  destruct (exec_instr t pick (code th) s) as [s1|] eqn:Hex; [|done]. cbn.
  intros [= <-]. eauto 10.
Qed.

Lemma lookup_goto (l : list (Thread T)) t k t' th' :
  <[t := k]> l !! t' = Some th' →
  (t' = t ∧ th' = k) ∨ (t' ≠ t ∧ l !! t' = Some th').
Proof.
  destruct (decide (t = t')) as [<-|Hne].
  - intros Hl. left. split; [done|].
    apply list_lookup_insert_Some in Hl as [(_ & ? & _)|[? _]]; done.
  - rewrite list_lookup_insert_ne by done. intros Hl. by right.
Qed.

Lemma lookup_snoc_inv (l : list (Thread T)) th t' th' :
  (l ++ [th]) !! t' = Some th' →
  l !! t' = Some th' ∨ (t' = length l ∧ th' = th).
Proof. rewrite lookup_snoc_Some. intros [[_ ?]|[? ?]]; [by left | by right]. Qed.

(** ** Mutual exclusion *)

Lemma owner_record t th s m : owner (record t th s) m = owner s m.
Proof. by destruct m. Qed.

Lemma owner_set_procs l s m : owner (set_procs l s) m = owner s m.
Proof. by destruct m. Qed.

Lemma owner_set_waiters cv l s m : owner (set_waiters cv l s) m = owner s m.
Proof. by destruct m, cv. Qed.

Lemma owner_set_owner m0 o s m :
  owner (set_owner m0 o s) m = if decide (m = m0) then o else owner s m.
Proof. by destruct m, m0. Qed.

Lemma step_at t pick s th :
  status s = Running → procs s !! t = Some th →
  step t pick s =
    exec_instr t pick (code th) s ≫= λ s', Some (record t th s').
Proof. unfold step. by intros -> ->. Qed.

End Steps.

(** Unfolding the updates of a state down to its fields. *)
Ltac norm_state :=
  unfold record, goto, unlock, push, pop, deliver, set_owner, set_waiters,
    set_procs, set_status, set_threads, set_terminateBool,
    set_threadsMutex, set_terminateMutex, set_queriesMutex,
    set_threadsChanged, set_wakeUp;
  cbn [typeVal maxThreads threadsMutex threadsChanged threads wakeUp
       terminateMutex terminateBool queries queriesMutex procs status
       enqueued dequeued delivered history owner waiters].


(** What thread [t] itself holds according to the invariant, for
    each of the three mutexes. *)
Ltac own_facts Hinv Hth :=
  lazymatch type of Hth with
  | _ !! ?t = Some ?th =>
      let go m :=
        let Hm := fresh "Hmine" in
        pose proof (Hinv t th m Hth) as Hm; cbn in Hm;
        first [ specialize (Hm eq_refl) | clear Hm ] in
      go ThreadsMutex; go TerminateMutex; go QueriesMutex
  end.

(** The statement executed, with its effect on the state spelled
    out; then the thread looked at is the one that moved, an older
    one, or the one just created. *)
Ltac exec_cases Hex :=
  unfold lock in Hex; simplify_option_eq; repeat case_match; simplify_eq.

Ltac lookup_cases Hl :=
  cbn in Hl;
  try (apply lookup_goto in Hl as [[? ?]|[? Hl]]);
  try (apply lookup_snoc_inv in Hl as [Hl|[? ?]]);
  simplify_eq.

(** Running a thread on a state given by its fields; looking a thread
    up after a number of steps. *)
Ltac len :=
  repeat first [rewrite length_app | rewrite length_insert];
  cbn [length]; lia.

Ltac solve_lookup :=
  norm_state;
  repeat first
    [ rewrite list_lookup_insert_eq by len
    | rewrite list_lookup_insert_ne by lia
    | rewrite lookup_app_l by len
    | rewrite lookup_app_r, length_insert, Nat.sub_diag by len
    | rewrite lookup_app_r, Nat.sub_diag by len ];
  first [eassumption | reflexivity].

Ltac sym_step :=
  erewrite step_at; [|reflexivity|solve_lookup];
  cbn -[step insert lookup]; norm_state;
  rewrite ?decide_True by lia; rewrite ?decide_False by lia.

Section Invariants.
Context {T : Type} `{Statement T}.
Implicit Types (s : Pool T) (th k : Thread T) (t : nat).

Lemma mutex_inv_step t pick s s' :
  mutex_inv s → step t pick s = Some s' → mutex_inv s'.
Proof.
  intros Hinv Hstep.
  apply step_Some in Hstep as (th & s1 & Hst & Hth & Hex & ->).
  intros t' th' m Hl Hh. rewrite owner_record.
  change (procs (record t th s1)) with (procs s1) in Hl.
  destruct th as [[]|[]|[] q|[]]; cbn in Hex;
    own_facts Hinv Hth; exec_cases Hex; lookup_cases Hl;
    try (pose proof (Hinv _ _ _ Hl Hh) as Hother);
    destruct m; cbn in *; done || congruence.
Qed.

(** ** The counter counts the workers *)

Lemma live_count_app (l1 l2 : list (Thread T)) :
  live_count (l1 ++ l2) = live_count l1 + live_count l2.
Proof. induction l1 as [|th l1 IH]; cbn; [done|]. rewrite IH. lia. Qed.

Lemma live_count_insert (l : list (Thread T)) t th k :
  l !! t = Some th →
  live_count (<[t := k]> l) =
    live_count l - (if live th then 1 else 0) + (if live k then 1 else 0).
Proof.
  revert t. induction l as [|x l IH]; intros [|t]; simpl; try done.
  - intros [= ->]. lia.
  - intros Hl. specialize (IH _ Hl). simpl in IH. lia.
Qed.

Lemma count_inv_step t pick s s' :
  count_inv s → step t pick s = Some s' → count_inv s'.
Proof.
  unfold count_inv. intros Hinv Hstep.
  apply step_Some in Hstep as (th & s1 & Hst & Hth & Hex & ->).
  assert (∀ x, (procs s ++ [x]) !! t = Some th) as Hth'
    by (intros; by apply lookup_app_l_Some).
  destruct th as [[]|[]|[] q|[]]; cbn in Hex;
    exec_cases Hex; cbn;
    rewrite ?(live_count_insert _ _ _ _ (Hth' _)),
            ?(live_count_insert _ _ _ _ Hth), ?live_count_app;
    cbn; lia.
Qed.

(** ** First in, first out *)

Lemma fifo_inv_step t pick s s' :
  fifo_inv s → step t pick s = Some s' → fifo_inv s'.
Proof.
  unfold fifo_inv. intros Hinv Hstep.
  apply step_Some in Hstep as (th & s1 & Hst & Hth & Hex & ->).
  destruct th as [[]|[]|[] q|[]]; cbn in Hex;
    exec_cases Hex; cbn; try done.
  all: repeat match goal with Hq : queries _ = _ |- _ => rewrite Hq end.
  all: rewrite ?Hinv; by rewrite <- ?app_assoc.
Qed.

(** ** Every popped query is called back or on its way *)

Lemma inflight_all_app (l1 l2 : list (Thread T)) :
  inflight_all (l1 ++ l2) = inflight_all l1 ++ inflight_all l2.
Proof. apply bind_app. Qed.

Lemma inflight_all_lookup (l : list (Thread T)) t th :
  l !! t = Some th →
  inflight_all l ≡ₚ inflight th ++ inflight_all (delete t l).
Proof.
  unfold inflight_all. revert t.
  induction l as [|x l IH]; intros [|t] Hl; simplify_eq/=; try done.
  rewrite (IH _ Hl).
  by rewrite !app_assoc, (Permutation_app_comm (inflight x)).
Qed.

Lemma inflight_all_insert (l : list (Thread T)) t th k :
  l !! t = Some th →
  inflight_all (<[t := k]> l) ≡ₚ inflight k ++ inflight_all (delete t l).
Proof.
  unfold inflight_all. revert t.
  induction l as [|x l IH]; intros [|t] Hl; simplify_eq/=; try done.
  rewrite (IH _ Hl).
  by rewrite !app_assoc, (Permutation_app_comm (inflight x)).
Qed.

Lemma callback_inv_step t pick s s' :
  callback_inv s → step t pick s = Some s' → callback_inv s'.
Proof.
  unfold callback_inv. intros Hinv Hstep.
  apply step_Some in Hstep as (th & s1 & Hst & Hth & Hex & ->).
  pose proof (lookup_lt_Some _ _ _ Hth) as Hlt.
  rewrite (inflight_all_lookup _ _ _ Hth) in Hinv.
  destruct th as [[]|[]|[] q|[]]; cbn in Hex;
    exec_cases Hex; cbn [procs dequeued delivered record goto set_procs
      set_status set_threads set_terminateBool set_waiters set_owner
      set_threadsMutex set_terminateMutex set_queriesMutex unlock push
      pop deliver set_threadsChanged set_wakeUp];
    rewrite ?insert_app_l by done; rewrite ?inflight_all_app;
    rewrite ?(inflight_all_insert _ _ _ _ Hth),
            ?(inflight_all_lookup _ _ _ Hth);
    cbn in *; rewrite ?app_nil_r; try done.
  - rewrite fmap_app, Hinv, <- app_assoc. cbn.
    by rewrite (Permutation_app_comm _ [_]).
  - rewrite fmap_app, <- app_assoc. exact Hinv.
Qed.

(** ** What was read under [threadsMutex] stays true *)

Lemma knows_ext th s s1 :
  threads s1 = threads s → maxThreads s1 = maxThreads s →
  knows th s → knows th s1.
Proof. unfold knows. intros -> ->. done. Qed.

Lemma knows_no_mutex th s :
  holds th ThreadsMutex = false → knows th s.
Proof. by destruct th as [[]|[]|[] ?|[]]. Qed.

Lemma knows_inv_step t pick s s' :
  mutex_inv s → knows_inv s → step t pick s = Some s' → knows_inv s'.
Proof.
  intros Hmut Hinv Hstep.
  apply step_Some in Hstep as (th & s1 & Hst & Hth & Hex & ->).
  intros t' th' Hl.
  change (procs (record t th s1)) with (procs s1) in Hl.
  destruct th as [[]|[]|[] q|[]]; cbn in Hex;
    own_facts Hmut Hth; exec_cases Hex; lookup_cases Hl;
    try done;
    try (by (eapply knows_ext; [| |eapply Hinv; exact Hl]));
    (destruct (holds th' ThreadsMutex) eqn:Hh;
     [ pose proof (Hmut _ _ _ Hl Hh); cbn in *; congruence
     | by apply knows_no_mutex ]).
Qed.

(** ** The statements [terminate()] has gone through *)

Lemma terminate_progress_app t pc (h h' : list (nat * Thread T)) :
  terminate_progress t pc h → terminate_progress t pc (h ++ h').
Proof.
  assert (∀ i th, did h i t th → did (h ++ h') i t th) as Hdid
    by (intros i th; apply lookup_app_l_Some).
  unfold terminate_progress. destruct pc; try done.
  all: try (intros (i & Hi); exists i; by auto).
  all: try (intros (i & j & Hij & Hi & Hj); exists i, j; by auto).
  intros (i & j & k & Hij & Hi & Hj & Hk). exists i, j, k. by auto 6.
Qed.

Lemma did_snoc (h : list (nat * Thread T)) t th :
  did (h ++ [(t, th)]) (length h) t th.
Proof. unfold did. by rewrite lookup_app_r, Nat.sub_diag. Qed.

Lemma did_lt (h : list (nat * Thread T)) i t th :
  did h i t th → (i < length h)%nat.
Proof. apply lookup_lt_Some. Qed.

Lemma history_inv_step t pick s s' :
  history_inv s → step t pick s = Some s' → history_inv s'.
Proof.
  intros Hinv Hstep.
  apply step_Some in Hstep as (th & s1 & Hst & Hth & Hex & ->).
  intros t' pc' Hl.
  change (procs (record t th s1)) with (procs s1) in Hl.
  assert (history (record t th s1) = history s1 ++ [(t, th)]) as ->
    by done.
  pose proof (Hinv t) as Hmine.
  destruct th as [[]|[]|[] q|[]]; cbn in Hex;
    try specialize (Hmine _ Hth);
    exec_cases Hex; lookup_cases Hl;
    cbn [history record goto set_procs set_status set_threads
      set_terminateBool set_waiters set_owner set_threadsMutex
      set_terminateMutex set_queriesMutex unlock push pop deliver
      set_threadsChanged set_wakeUp];
    try (apply terminate_progress_app;
         first [ exact Hmine | exact I | by eapply Hinv ]).
  all: cbn in *.
  - exists (length (history s)). apply did_snoc.
  - destruct Hmine as (i & Hi). exists i, (length (history s)).
    split; [by eapply did_lt|]. split; [|apply did_snoc].
    by apply lookup_app_l_Some.
  - destruct Hmine as (i & j & Hij & Hi & Hj).
    exists i, j, (length (history s)).
    split; [split; [done | by eapply did_lt]|].
    split; [by apply lookup_app_l_Some|].
    split; [by apply lookup_app_l_Some | apply did_snoc].
Qed.

(** ** [front()] is only taken of a non-empty queue *)

Lemma front_inv_step t pick s s' :
  mutex_inv s → front_inv s → step t pick s = Some s' → front_inv s'.
Proof.
  intros Hmut Hinv Hstep.
  apply step_Some in Hstep as (th & s1 & Hst & Hth & Hex & ->).
  intros t' Hl.
  change (procs (record t th s1)) with (procs s1) in Hl.
  destruct th as [[]|[]|[] q|[]]; cbn in Hex;
    own_facts Hmut Hth; exec_cases Hex; lookup_cases Hl;
    try (pose proof (Hinv _ Hl) as Hne);
    try (pose proof (Hmut _ _ QueriesMutex Hl eq_refl) as Hown);
    cbn in *; done || congruence.
Qed.

(** ** Who is in the list of a condition variable *)

Lemma notify_one_subset (pick : nat) (l : list nat) t :
  t ∈ notify_one pick l → t ∈ l.
Proof.
  destruct l as [|x l]; [done|]. unfold notify_one.
  apply list_elem_of_delete_inv.
Qed.

Lemma waiters_inv_step t pick s s' :
  waiters_inv s → step t pick s = Some s' → waiters_inv s'.
Proof.
  intros Hinv Hstep.
  apply step_Some in Hstep as (th & s1 & Hst & Hth & Hex & ->).
  pose proof (lookup_lt_Some _ _ _ Hth) as Hlt.
  assert (∀ cv t' k, t' ∈ waiters s cv →
            (waits th cv = true → t' ≠ t) →
            ∃ th', <[t := k]> (procs s) !! t' = Some th' ∧ waits th' cv = true)
    as Hold.
  { intros cv t' k Hin0 Hne. destruct (Hinv _ _ Hin0) as (th0 & Hl0 & Hw0).
    exists th0. split; [|done]. rewrite list_lookup_insert_ne; [done|].
    intros <-. rewrite Hth in Hl0. injection Hl0 as <-. by apply Hne. }
  destruct th as [[]|[]|[] ?|[]]; cbn in Hex; exec_cases Hex;
    intros cv t' Hin; destruct cv; cbn in Hin;
    cbn [procs record goto set_procs set_status
      set_threads set_terminateBool set_waiters set_owner set_threadsMutex
      set_terminateMutex set_queriesMutex unlock push pop deliver
      set_threadsChanged set_wakeUp];
    try apply notify_one_subset in Hin;
    try (by (apply (Hinv ThreadsChanged) in Hin));
    try (by (apply (Hinv WakeUp) in Hin));
    try (by (apply Hold; [done | cbn; congruence]));
    try (by (apply elem_of_nil in Hin));
    try (apply elem_of_app in Hin as [Hin| ->%list_elem_of_singleton];
         [ by (apply Hold; [done | cbn; congruence])
         | by (eexists; split; [by apply list_lookup_insert_eq|]) ]).
  - destruct (Hold ThreadsChanged t' (InStart S592) Hin) as (th' & Hl' & Hw');
      [cbn; congruence|].
    exists th'. rewrite insert_app_l by done. split; [|exact Hw'].
    by apply lookup_app_l_Some.
  - destruct (Hold WakeUp t' (InStart S592) Hin) as (th' & Hl' & Hw');
      [cbn; congruence|].
    exists th'. rewrite insert_app_l by done. split; [|exact Hw'].
    by apply lookup_app_l_Some.
Qed.

(** ** The invariants hold in every state of every execution *)

Lemma inv_step t pick s s' : inv s → step t pick s = Some s' → inv s'.
Proof.
  intros [] Hstep. split.
  - by eapply mutex_inv_step.
  - by eapply count_inv_step.
  - by eapply fifo_inv_step.
  - by eapply callback_inv_step.
  - by eapply knows_inv_step.
  - by eapply history_inv_step.
  - by eapply front_inv_step.
  - by eapply waiters_inv_step.
Qed.

Lemma inv_call th s s' : entry th → inv s → call th s = Some s' → inv s'.
Proof.
  intros Hentry [Hm Hc Hf Hcb Hk Hh Hfr Hw]. unfold call.
  destruct (status s); intros [= <-]; split.
  - intros t' th' m Hl Hholds. rewrite owner_set_procs.
    cbn in Hl. apply lookup_snoc_inv in Hl as [Hl|[-> ->]]; [by eauto|].
    by destruct Hentry as [->|[->|[q ->]]], m.
  - unfold count_inv in *. cbn. rewrite live_count_app, Hc.
    destruct Hentry as [->|[->|[q ->]]]; cbn; lia.
  - exact Hf.
  - unfold callback_inv in *. cbn [procs set_procs dequeued delivered].
    rewrite inflight_all_app, Hcb.
    destruct Hentry as [->|[->|[q ->]]]; cbn; by rewrite app_nil_r.
  - intros t' th' Hl. cbn in Hl.
    apply lookup_snoc_inv in Hl as [Hl|[-> ->]].
    + eapply knows_ext; [done|done|by eapply Hk].
    + by destruct Hentry as [->|[->|[q ->]]].
  - intros t' pc' Hl. cbn in Hl.
    apply lookup_snoc_inv in Hl as [Hl|[-> Hl]]; [by apply (Hh t')|].
    destruct Hentry as [->|[->|[q ->]]]; by simplify_eq.
  - intros t' Hl. cbn in Hl.
    apply lookup_snoc_inv in Hl as [Hl|[-> Hl]]; [by apply (Hfr t')|].
    destruct Hentry as [->|[->|[q ->]]]; by simplify_eq.
  - intros cv t' Hin.
    assert (t' ∈ waiters s cv) as Hin' by (by destruct cv).
    destruct (Hw _ _ Hin') as (th' & Hl' & Hw'). exists th'.
    split; [|done]. cbn. by apply lookup_app_l_Some.
Qed.

Lemma inv_spurious cv t s s' :
  inv s → spurious cv t s = Some s' → inv s'.
Proof.
  intros [Hm Hc Hf Hcb Hk Hh Hfr Hw]. unfold spurious.
  destruct (status s); try done. case_decide; [|done].
  intros [= <-]. split.
  - intros t' th' m Hl Hholds. rewrite owner_set_waiters.
    apply (Hm t' th'); [|done]. by destruct cv.
  - unfold count_inv in *. by destruct cv.
  - unfold fifo_inv in *. by destruct cv.
  - unfold callback_inv in *. by destruct cv.
  - intros t' th' Hl. eapply knows_ext; [| |eapply (Hk t')].
    all: by destruct cv.
  - intros t' pc' Hl.
    assert (history (set_waiters cv (filter (λ t', t' ≠ t) (waiters s cv)) s)
            = history s) as -> by (by destruct cv).
    apply (Hh t'). by destruct cv.
  - intros t' Hl.
    assert (queries (set_waiters cv (filter (λ t', t' ≠ t) (waiters s cv)) s)
            = queries s) as -> by (by destruct cv).
    apply (Hfr t'). by destruct cv.
  - intros cv' t' Hin.
    assert (t' ∈ waiters s cv') as Hin'.
    { destruct cv, cv'; cbn in Hin |- *; try done.
      all: by apply list_elem_of_filter in Hin as [_ ?]. }
    destruct (Hw _ _ Hin') as (th' & Hl' & Hw'). exists th'.
    split; [|done]. by destruct cv.
Qed.

Lemma inv_exec e s s' : inv s → exec e s = Some s' → inv s'.
Proof.
  destruct e; cbn.
  - apply inv_step.
  - apply inv_call. by left.
  - apply inv_call. by right; left.
  - apply inv_call. right; right; by eexists.
  - apply inv_spurious.
Qed.

Lemma inv_Connection (typeVal_ maxThreads_ : Z) (tb : bool) :
  inv (T:=T) (Connection typeVal_ maxThreads_ tb).
Proof.
  split; try done.
  - by unfold callback_inv.
  - intros cv t Hin. destruct cv; by apply elem_of_nil in Hin.
Qed.

Lemma inv_reachable s0 s : inv s0 → reachable s0 s → inv s.
Proof. intros H0. induction 1; [done|]. by eapply inv_exec. Qed.

Lemma reachable_trans s0 s1 s2 :
  reachable s0 s1 → reachable s1 s2 → reachable s0 s2.
Proof. intros H01. induction 1; [done|]. by eapply reachable_step. Qed.

Lemma run_reachable es s s' : run es s = Some s' → reachable s s'.
Proof.
  revert s. induction es as [|e es IH]; intros s; cbn.
  - intros [= <-]. constructor.
  - destruct (exec e s) as [s1|] eqn:He; [|done]. cbn. intros Hrun.
    eapply reachable_trans; [|by apply IH].
    eapply reachable_step; [constructor | done].
Qed.

Lemma run_app es1 es2 s :
  run (es1 ++ es2) s = run es1 s ≫= run es2.
Proof.
  revert s. induction es1 as [|e es1 IH]; intros s; cbn; [done|].
  destruct (exec e s); cbn; [apply IH | done].
Qed.

End Invariants.

End PoolProps.

(** * The completion message of a query *)

Module HandlerProps.
Import CStr Sql.

Lemma strlen_lt (p : list ascii) (n : nat) :
  strlen p = Some n → (n < length p)%nat.
Proof.
  revert n. induction p as [|c p IH]; intros n; cbn; [done|].
  destruct (is_nul c); [intros [= <-]; lia|].
  destruct (strlen p) as [m|]; [|done]. cbn. intros [= <-].
  specialize (IH m eq_refl). lia.
Qed.

Lemma strlen_c_str (p : list ascii) (n : nat) :
  strlen p = Some n → length (c_str p) = n.
Proof.
  revert n. induction p as [|c p IH]; intros n; cbn; [done|].
  destruct (is_nul c); [by intros [= <-]|].
  destruct (strlen p) as [m|]; [|done]. cbn. intros [= <-].
  by rewrite (IH m eq_refl).
Qed.

Lemma strlen_take_c_str (p : list ascii) (n : nat) :
  strlen p = Some n → take n p = c_str p.
Proof.
  revert n. induction p as [|c p IH]; intros n; cbn; [done|].
  destruct (is_nul c); [by intros [= <-]|].
  destruct (strlen p) as [m|]; [|done]. cbn. intros [= <-].
  cbn. by rewrite (IH m eq_refl).
Qed.

(** What the [catch] block computes when the description has [n+1]
    characters: a message of [n] characters, the description without
    its last one. *)
Lemma on_catch_Some (message : Message) (what : list ascii) (n : nat) :
  strlen what = Some (S n) →
  ∃ buf, on_catch message what = Some (mkMessage (type message) n (Some buf)) ∧
         take n buf = take n (c_str what).
Proof.
  intros Hlen. destruct what as [|c r]; [done|]. cbn in Hlen.
  destruct (is_nul c) eqn:Hc; [done|].
  destruct (strlen r) as [m|] eqn:Hr; [|done]. cbn in Hlen.
  assert (m = n) as -> by congruence.
  pose proof (strlen_lt _ _ Hr) as Hlt.
  unfold on_catch, ptr_add. change (drop 1 (c :: r)) with r.
  rewrite Hr. cbn [mbind option_bind].
  unfold memcpy. rewrite decide_True.
  2:{ unfold new_char. rewrite length_replicate. cbn. lia. }
  cbn [mbind option_bind]. eexists. split; [reflexivity|].
  unfold new_char. rewrite drop_replicate, Nat.sub_diag. cbn [replicate].
  rewrite app_nil_r, take_take, Nat.min_id.
  cbn [c_str]. rewrite Hc.
  rewrite <- (strlen_take_c_str r n Hr).
  destruct n; [done|]. cbn. f_equal.
  rewrite take_take. f_equal. lia.
Qed.

Section Handle.
Context {T : Type} `{Statement T}.

Lemma handle_Returns (typeVal : Z) (query : Query T) :
  execute (statement query) (parameters query) (results query)
          (insertId query) (rows query) = Returns →
  handle typeVal query = Completed (mkMessage typeVal 0 None).
Proof. unfold handle. by intros ->. Qed.

(** What [handle] makes of a [std::exception] whose description has
    [n+1] characters. *)
Lemma handle_ThrowsStd (typeVal : Z) (query : Query T)
    (what : list ascii) (n : nat) :
  execute (statement query) (parameters query) (results query)
          (insertId query) (rows query) = ThrowsStd what →
  strlen what = Some (S n) →
  ∃ buf, handle typeVal query = Completed (mkMessage typeVal n (Some buf)) ∧
         take n buf = take n (c_str what).
Proof.
  intros Hthrows Hlen. unfold handle. rewrite Hthrows.
  destruct (on_catch_Some (mkMessage typeVal 0 None) what n Hlen)
    as (buf & -> & Hbuf).
  by exists buf.
Qed.

(** C1: for an item whose [execute] returns, the message has size 0
    and an empty payload.  For an item whose [execute] throws a
    [std::exception], the size is [strlen(e.what()+1)], one less
    than the length of the description: the payload is the
    description without its last character, and so differs from it;
    a description of one character gives the empty payload of a
    success. *)
Theorem completion_payload (typeVal : Z) (query : Query T)
    (what : list ascii) (n : nat)
    (Hthrows : execute (statement query) (parameters query)
                 (results query) (insertId query) (rows query)
               = ThrowsStd what)
    (Hlen : strlen what = Some (S n)) :
  ∃ m, handle typeVal query = Completed m ∧
       type m = typeVal ∧
       size m = n ∧
       length (c_str what) = S n ∧
       payload m = take n (c_str what) ∧
       payload m ≠ c_str what ∧
       (n = 0%nat → payload m = []).
Proof.
  destruct (handle_ThrowsStd typeVal query what n Hthrows Hlen)
    as (buf & -> & Hbuf).
  pose proof (strlen_c_str _ _ Hlen) as Hdesc.
  eexists. split; [reflexivity|]. unfold payload. cbn.
  repeat split; try done.
  - intros Heq. apply (f_equal length) in Heq.
    rewrite Hbuf, length_take, Hdesc in Heq. lia.
  - by intros ->.
Qed.

End Handle.

(** The scenario of the specification: the error is "duplicate key",
    the payload is "duplicate ke". *)
Lemma completion_payload_witness :
  ∃ m, handle 7 (Demo.query 1 100%nat) = Completed m ∧
       size m = 12%nat ∧
       payload m = list_ascii_of_string "duplicate ke" ∧
       c_str (literal "duplicate key") = list_ascii_of_string "duplicate key".
Proof.
  destruct (completion_payload 7 (Demo.query 1 100%nat)
              (literal "duplicate key") 12 eq_refl eq_refl)
    as (m & Hm & _ & Hsize & _ & Hpay & _).
  exists m. split; [exact Hm|]. split; [exact Hsize|].
  split; [exact Hpay | reflexivity].
Defined.

Example success_has_empty_payload :
  handle 7 (Demo.query 0 100%nat) = Completed (mkMessage 7 0 None) ∧
  payload (mkMessage 7 0 None) = [].
Proof. split; reflexivity. Qed.

Example one_character_error_looks_like_success :
  handle 7 (Demo.query 2 100%nat) = Completed (mkMessage 7 0 (Some [])).
Proof. reflexivity. Qed.

End HandlerProps.

(** * [start()] left alone on a stopped pool *)

Module StartUp.
Import Sql PoolSpec PoolProps.

Section Tally.
Context {T : Type} `{Statement T}.
Implicit Types (s : Pool T) (th k : Thread T) (t b : nat).
Implicit Types (f : Thread T → bool) (l : list (Thread T)).

Lemma tally_nonneg f l : 0 ≤ tally f l.
Proof. induction l as [|th l IH]; cbn; [done|]. destruct (f th); lia. Qed.

Lemma tally_app f l1 l2 : tally f (l1 ++ l2) = tally f l1 + tally f l2.
Proof. induction l1 as [|th l1 IH]; cbn; [done|]. rewrite IH. lia. Qed.

Lemma tally_insert f l t th k :
  l !! t = Some th →
  tally f (<[t := k]> l) =
    tally f l - (if f th then 1 else 0) + (if f k then 1 else 0).
Proof.
  revert t. induction l as [|x l IH]; intros [|t]; simpl; try done.
  - intros [= ->]. lia.
  - intros Hl. specialize (IH _ Hl). simpl in IH. lia.
Qed.

Lemma tally_pos f l t th : l !! t = Some th → f th = true → 1 ≤ tally f l.
Proof.
  revert t. induction l as [|x l IH]; intros [|t]; simpl; try done.
  - intros [= ->] ->. pose proof (tally_nonneg f l). lia.
  - intros Hl Hf. specialize (IH _ Hl Hf). destruct (f x); lia.
Qed.

Lemma tally_zero f l t th : tally f l = 0 → l !! t = Some th → f th = false.
Proof.
  intros Hz Hl. destruct (f th) eqn:Hf; [|done].
  pose proof (tally_pos f l t th Hl Hf). lia.
Qed.

(** Among returned threads, calls of [start()] and workers in their
    loop, the workers counted in [threads] are those past line 613. *)
Lemma live_count_tally l :
  (∀ t th, l !! t = Some th →
     returned th = true ∨ (∃ pc, th = InStart pc) ∨ inloop th = true) →
  live_count l = tally inloop l - tally at612 l - tally at613 l.
Proof.
  induction l as [|x l IH]; intros Hall; cbn; [done|].
  rewrite IH by (intros t th Hl; by apply (Hall (S t))).
  specialize (Hall 0%nat x eq_refl).
  destruct x as [[]|[]|[] ?|[]]; cbn in *; try lia;
    destruct Hall as [?|[[? ?]|?]]; done.
Qed.

Lemma notify_one_singleton (pick : nat) b : notify_one pick [b] = [].
Proof. unfold notify_one. cbn [length]. by rewrite Nat.mod_1_r. Qed.

End Tally.

(** The counts after a step of thread [t], in terms of the counts
    before. *)
Ltac tallies Hth :=
  cbn [procs threads maxThreads terminateBool threadsChanged record goto
       set_procs set_status set_threads set_terminateBool set_waiters
       set_owner set_threadsMutex set_terminateMutex set_queriesMutex
       unlock push pop deliver set_threadsChanged set_wakeUp waiters];
  rewrite ?insert_app_l by (by eapply lookup_lt_Some);
  rewrite ?tally_app, ?length_app, ?length_insert;
  rewrite ?(tally_insert _ _ _ _ _ Hth);
  cbn [tally inloop at612 at613 at614_615 thread_entry length].

Section Alone.
Context {T : Type} `{Statement T}.
Implicit Types (s : Pool T) (th k : Thread T) (t b : nat).

Lemma alone_step b t pick s s' :
  alone b s → step t pick s = Some s' → alone b s'.
Proof.
  intros [Hinv Hclass (pc & Hb & Hsync & Hflag & Hearly & Hret) Hlen Hmax] Hstep.
  pose proof (inv_step _ _ _ _ Hinv Hstep) as Hinv'.
  destruct Hinv as [Hm Hc _ _ Hk _ _ _].
  pose proof (tally_nonneg at612 (procs s)) as Hn612.
  pose proof (tally_nonneg at613 (procs s)) as Hn613.
  pose proof (tally_nonneg at614_615 (procs s)) as Hn645.
  pose proof (lookup_lt_Some _ _ _ Hb) as Hblt.
  assert (threads s = tally inloop (procs s) - tally at612 (procs s)
                      - tally at613 (procs s)) as Hlive.
  { rewrite Hc. apply live_count_tally. intros t0 th0 Hl0.
    destruct (Hclass _ _ Hl0) as [[_ ?]|[[_ ?]|[_ ?]]]; auto. }
  apply step_Some in Hstep as (th & s1 & Hst & Hth & Hex & ->).
  destruct (Hclass _ _ Hth) as [[Hlt Hr]|[[-> (pc0 & ->)]|[Hgt Hin]]].
  - destruct th as [[]|[]|[] ?|[]]; done.
  - rewrite Hb in Hth. injection Hth as <-.
    pose proof (Hk _ _ Hb) as Hknow.
    destruct pc; cbn in Hex, Hsync, Hknow; exec_cases Hex.
    all: split;
      [ exact Hinv'
      | intros t' th' Hl; lookup_cases Hl;
        first [ by apply Hclass
              | by (right; left; split; [done|eexists])
              | by (right; right; split; [lia|done]) ]
      |
      | tallies Hb; lia
      | tallies Hb; lia ].
    all: eexists;
      (split; [cbn; apply list_lookup_insert_eq; rewrite ?length_app; cbn; lia|]).
    all: unfold sync in *; tallies Hb; cbn [early].
    all: try (destruct Hsync as (Hs1 & Hs2 & Hs3 & Htc)).
    all: try (destruct Hsync as (Hs1 & Htc)).
    all: rewrite ?Htc.
    all: repeat split; try done; try lia; auto.
    all: try (right; right; by destruct Hflag as [?|[?|?]]).
    + left. split; [done|lia].
    + destruct Hsync as [[Htc _]|[_ Hs]]; [|lia].
      match goal with Hn : _ ∉ _ |- _ => rewrite Htc in Hn; destruct Hn; constructor end.
    + destruct Hsync as [[Htc _]|[Htc _]]; [|done].
      match goal with Hn : _ ∉ _ |- _ => rewrite Htc in Hn; destruct Hn; constructor end.
  - pose proof (tally_pos inloop _ _ _ Hth Hin) as Hsome.
    assert (terminateBool s = false) as Hfalse.
    { destruct Hflag as [->|[->|?]]; [| |done]; cbn in Hearly; lia. }
    assert (t ≠ b) as Htb by lia.
    destruct th as [[]|[]|[] ?|[]]; try done; cbn in Hex; exec_cases Hex.
    all: try congruence.
    all: split;
      [ exact Hinv'
      | intros t' th' Hl; lookup_cases Hl;
        first [ by apply Hclass
              | by (right; left; split; [done|eexists])
              | by (right; right; split; [lia|done]) ]
      |
      | tallies Hth; lia
      | tallies Hth; lia ].
    all: exists pc;
      (split; [cbn; first [exact Hb | by rewrite list_lookup_insert_ne]|]).
    all: pose proof (tally_pos at612 _ _ _ Hth) as P1;
      pose proof (tally_pos at613 _ _ _ Hth) as P2;
      pose proof (tally_pos at614_615 _ _ _ Hth) as P3;
      cbn in P1, P2, P3;
      try specialize (P1 eq_refl); try specialize (P2 eq_refl);
      try specialize (P3 eq_refl).
    all: (split;
      [|split; [by (right; right)
               |split; [intros He; specialize (Hearly He); lia
                       |intros Hp; specialize (Hret Hp); tallies Hth; lia]]]).
    all: destruct pc; own_facts Hm Hb; unfold sync in *; tallies Hth;
      cbn in *; try done; try congruence.
    all: first
      [ destruct Hsync as [[Htc Hs]|[Htc Hs]]; rewrite ?Htc;
        first [ exfalso; lia
              | left; split; [done|lia]
              | right; split; [first [done | apply notify_one_singleton]|lia] ]
      | destruct Hsync as (Hs1 & Hs2 & Hs3 & Htc); rewrite ?Htc;
        first [ exfalso; lia
              | repeat split; first [lia | done] ]
      | destruct Hsync as (Hs1 & Htc); rewrite ?Htc;
        first [ exfalso; lia
              | repeat split; first [lia | done] ] ].
Qed.

Lemma tally_none (f : Thread T → bool) (l : list (Thread T)) :
  (∀ t th, l !! t = Some th → f th = false) → tally f l = 0.
Proof.
  induction l as [|x l IH]; intros Hall; cbn; [done|].
  rewrite IH by (intros t th Hl; by apply (Hall (S t))).
  by rewrite (Hall 0%nat x eq_refl).
Qed.

Lemma alone_call s s' :
  inv s → at_rest s → call (InStart S584) s = Some s' →
  alone (length (procs s)) s'.
Proof.
  intros Hinv [Hst Hm1 Hm2 Htc Hret] Hcall.
  pose proof (inv_call (InStart S584) s s' (or_introl eq_refl) Hinv Hcall)
    as Hinv'.
  unfold call in Hcall. rewrite Hst in Hcall. injection Hcall as <-.
  assert (∀ f : Thread T → bool,
            (∀ th, returned th = true → f th = false) →
            tally f (procs s) = 0) as Hnone.
  { intros f Hf. apply tally_none. intros t th Hl. eauto. }
  assert (tally inloop (procs s) = 0) as Hloop
    by (apply Hnone; by intros [[]|[]|[] ?|[]]).
  assert (tally at612 (procs s) = 0) as H1
    by (apply Hnone; by intros [[]|[]|[] ?|[]]).
  assert (tally at613 (procs s) = 0) as H2
    by (apply Hnone; by intros [[]|[]|[] ?|[]]).
  assert (tally at614_615 (procs s) = 0) as H3
    by (apply Hnone; by intros [[]|[]|[] ?|[]]).
  split; cbn [procs set_procs].
  - exact Hinv'.
  - intros t th Hl. apply lookup_snoc_inv in Hl as [Hl|[-> ->]].
    + left. split; [by eapply lookup_lt_Some | by eauto].
    + right. left. split; [done | by eexists].
  - exists S584. split; [by apply list_lookup_middle|].
    unfold sync. cbn [procs set_procs threadsChanged].
    rewrite !tally_app, Hloop, H1, H2, H3.
    cbn. repeat split; try done. by left.
  - rewrite tally_app, length_app, Hloop. cbn. lia.
  - rewrite tally_app, Hloop. cbn. lia.
Qed.

Lemma alone_run b (es : list (Event T)) s s' :
  forallb is_Run es = true → alone b s → run es s = Some s' → alone b s'.
Proof.
  revert s. induction es as [|e es IH]; intros s Hes Hal; cbn.
  - by intros [= <-].
  - cbn in Hes. apply andb_prop in Hes as [He Hes].
    destruct (exec e s) as [s1|] eqn:Hexec; [|done]. cbn.
    apply IH; [done|]. destruct e; try done. by eapply alone_step.
Qed.

(** Nothing changes the configured size. *)
Lemma maxThreads_exec (e : Event T) s s' :
  exec e s = Some s' → maxThreads s' = maxThreads s.
Proof.
  destruct e as [t pick| | |q|cv t]; cbn.
  - intros Hstep.
    apply step_Some in Hstep as (th & s1 & Hst & Hth & Hex & ->).
    destruct th as [[]|[]|[] ?|[]]; cbn in Hex; by exec_cases Hex.
  - unfold call. by destruct (status s); intros [= <-].
  - unfold call. by destruct (status s); intros [= <-].
  - unfold call. by destruct (status s); intros [= <-].
  - unfold spurious. destruct (status s); try done.
    case_decide; [|done]. intros [= <-]. by destruct cv.
Qed.

Lemma maxThreads_run (es : list (Event T)) s s' :
  run es s = Some s' → maxThreads s' = maxThreads s.
Proof.
  revert s. induction es as [|e es IH]; intros s; cbn; [by intros [= <-]|].
  destruct (exec e s) as [s1|] eqn:Hexec; [|done]. cbn. intros Hrun.
  rewrite (IH _ Hrun). by eapply maxThreads_exec.
Qed.

Lemma alone_returned b s :
  alone b s → procs s !! b = Some (InStart Sret) → 0 ≤ maxThreads s →
  threads s = maxThreads s ∧
  Z.of_nat (length (procs s)) = Z.of_nat b + 1 + maxThreads s ∧
  terminateBool s = false ∧
  threadsChanged s = [] ∧
  ∀ t th, procs s !! t = Some th → (b < t)%nat → up th.
Proof.
  intros [Hinv Hclass (pc & Hb & Hsync & Hflag & Hearly & Hret) Hlen Hmax]
    Hdone HN.
  rewrite Hb in Hdone. injection Hdone as ->.
  destruct Hinv as [_ Hc _ _ _ _ _ _]. cbn in Hsync.
  destruct Hsync as [Hsum Htc].
  pose proof (tally_nonneg at612 (procs s)) as Hn612.
  pose proof (tally_nonneg at613 (procs s)) as Hn613.
  pose proof (tally_nonneg at614_615 (procs s)) as Hn645.
  assert (threads s = tally inloop (procs s) - tally at612 (procs s)
                      - tally at613 (procs s)) as Hlive.
  { rewrite Hc. apply live_count_tally. intros t0 th0 Hl0.
    destruct (Hclass _ _ Hl0) as [[_ ?]|[[_ ?]|[_ ?]]]; auto. }
  specialize (Hret eq_refl).
  split; [lia|]. split; [lia|].
  split; [by destruct Hflag as [?|[?|?]]|]. split; [done|].
  intros t th Hl Hgt.
  destruct (Hclass _ _ Hl) as [[? _]|[[? _]|[_ Hin]]]; [lia|lia|].
  split; [done|].
  repeat split; eapply tally_zero; try exact Hl; lia.
Qed.

(** [start()] called on a stopped pool with [maxThreads >= 0], when only
    it and the workers it creates run and no wait returns spuriously:
    if it returns, it has created exactly [maxThreads] threads, all of
    them workers that have counted themselves, signalled and are in
    their loop; [threads] equals [maxThreads] and the stop flag is
    clear. *)
Lemma start_alone (es : list (Event T)) s s' :
  inv s → at_rest s → 0 ≤ maxThreads s →
  forallb is_Run es = true →
  run (CallStart :: es) s = Some s' →
  procs s' !! length (procs s) = Some (InStart Sret) →
  threads s' = maxThreads s ∧
  Z.of_nat (length (procs s')) =
    Z.of_nat (length (procs s)) + 1 + maxThreads s ∧
  terminateBool s' = false ∧
  threadsChanged s' = [] ∧
  ∀ t th, procs s' !! t = Some th → (length (procs s) < t)%nat → up th.
Proof.
  intros Hinv Hrest HN Hes Hrun Hdone. cbn in Hrun.
  destruct (call (InStart S584) s) as [s1|] eqn:Hcall; [|done].
  cbn in Hrun.
  pose proof (alone_call _ _ Hinv Hrest Hcall) as Hal.
  pose proof (alone_run _ _ _ _ Hes Hal Hrun) as Hal'.
  pose proof (maxThreads_run _ _ _ Hrun) as Hmax.
  assert (maxThreads s1 = maxThreads s) as Hmax1.
  { unfold call in Hcall. by destruct (status s); simplify_eq. }
  rewrite <- Hmax1, <- Hmax in *.
  by apply alone_returned.
Qed.

(** ** [start()] can return *)

Lemma round_runs b s :
  at_test b s → threads s < maxThreads s →
  ∃ s', run (round b (length (procs s))) s = Some s' ∧
        at_test b s' ∧
        threads s' = threads s + 1 ∧ maxThreads s' = maxThreads s ∧
        length (procs s') = S (length (procs s)).
Proof.
  intros (Hst & Hb & Hmut & Htc) Hlt.
  pose proof (lookup_lt_Some _ _ _ Hb) as Hblt.
  destruct s as [tv mx m1 c1 n c2 m2 tb qs m3 ps st enq deq del hist].
  cbn in Hst, Hb, Hmut, Htc, Hlt, Hblt. subst.
  eexists. split.
  { unfold round.
    cbn [replicate app run exec mbind option_bind].
    do 8 sym_step. reflexivity. }
  unfold at_test. norm_state.
  repeat split; try done; [solve_lookup | len].
Qed.

Lemma rounds_run (n : nat) b s :
  at_test b s → maxThreads s - threads s = Z.of_nat n →
  ∃ s', run (rounds b (length (procs s)) n) s = Some s' ∧
        at_test b s' ∧
        threads s' = maxThreads s' ∧ maxThreads s' = maxThreads s.
Proof.
  revert s. induction n as [|n IH]; intros s Htest Hdef.
  - exists s. split; [done|]. split; [done|]. split; [lia|done].
  - destruct (round_runs b s Htest ltac:(lia))
      as (s1 & Hrun1 & Htest1 & Hthr1 & Hmax1 & Hlen1).
    destruct (IH s1 Htest1 ltac:(lia)) as (s' & Hrun & Htest' & Hthr & Hmax).
    exists s'. cbn [rounds]. rewrite run_app, Hrun1. cbn [mbind option_bind].
    rewrite <- Hlen1, Hrun. split; [done|]. split; [done|].
    split; [done|congruence].
Qed.

Lemma start_begins s :
  at_rest s →
  ∃ s1, run ([CallStart] ++ replicate 4 (Run (length (procs s)) 0)) s = Some s1 ∧
        at_test (length (procs s)) s1 ∧
        threads s1 = threads s ∧ maxThreads s1 = maxThreads s ∧
        length (procs s1) = S (length (procs s)).
Proof.
  intros [Hst Hm1 Hm2 Htc _].
  destruct s as [tv mx m1 c1 n c2 m2 tb qs m3 ps st enq deq del hist].
  cbn in Hst, Hm1, Hm2, Htc. subst.
  eexists. split.
  { cbn [replicate app run exec call status set_procs procs mbind option_bind].
    do 4 sym_step. reflexivity. }
  unfold at_test. norm_state.
  repeat split; try done; [solve_lookup | len].
Qed.

Lemma start_ends b s :
  at_test b s → ¬ threads s < maxThreads s →
  ∃ s', run (replicate 2 (Run b 0)) s = Some s' ∧
        procs s' !! b = Some (InStart Sret).
Proof.
  intros (Hst & Hb & Hmut & Htc) Hge.
  pose proof (lookup_lt_Some _ _ _ Hb) as Hblt.
  destruct s as [tv mx m1 c1 n c2 m2 tb qs m3 ps st enq deq del hist].
  cbn in Hst, Hb, Hmut, Htc, Hge, Hblt. subst.
  eexists. split.
  { cbn [replicate app run exec mbind option_bind].
    do 2 sym_step. reflexivity. }
  solve_lookup.
Qed.

Lemma live_count_returned (l : list (Thread T)) :
  (∀ t th, l !! t = Some th → returned th = true) → live_count l = 0.
Proof.
  induction l as [|x l IH]; intros Hall; cbn; [done|].
  rewrite IH by (intros t th Hl; by apply (Hall (S t))).
  specialize (Hall 0%nat x eq_refl). by destruct x as [[]|[]|[] ?|[]].
Qed.

Lemma rounds_are_runs (b w n : nat) :
  forallb is_Run (rounds (T:=T) b w n) = true.
Proof. revert w. induction n as [|n IH]; intros w; cbn; [done|apply IH]. Qed.

(** [start()] called on a stopped pool with [maxThreads >= 0] can
    return: it does in the run [start_schedule]. *)
Lemma start_can_return s :
  inv s → at_rest s → 0 ≤ maxThreads s →
  ∃ s', run (start_schedule (length (procs s)) (Z.to_nat (maxThreads s))) s
          = Some s' ∧
        procs s' !! length (procs s) = Some (InStart Sret) ∧
        forallb is_Run
          (tail (start_schedule (T:=T) (length (procs s))
                   (Z.to_nat (maxThreads s)))) = true.
Proof.
  intros Hinv Hrest HN.
  assert (threads s = 0) as Hzero.
  { destruct Hinv as [_ Hc _ _ _ _ _ _]. rewrite Hc.
    apply live_count_returned, Hrest. }
  destruct (start_begins s Hrest) as (s1 & Hrun1 & Htest1 & Hthr1 & Hmax1 & Hlen1).
  destruct (rounds_run (Z.to_nat (maxThreads s)) _ s1 Htest1 ltac:(lia))
    as (s2 & Hrun2 & Htest2 & Hthr2 & Hmax2).
  destruct (start_ends _ s2 Htest2 ltac:(lia)) as (s' & Hrun3 & Hdone).
  exists s'. split; [|split; [done|]].
  - unfold start_schedule. rewrite app_assoc, run_app, Hrun1.
    cbn [mbind option_bind]. rewrite run_app, <- Hlen1, Hrun2.
    exact Hrun3.
  - unfold start_schedule. cbn [app tail replicate forallb is_Run andb].
    rewrite forallb_app, rounds_are_runs. done.
Qed.

End Alone.

End StartUp.

(** * The claims about the worker pool *)

Module PoolClaims.
Import CStr Sql PoolSpec PoolProps StartUp.

(** The step of a thread whose program point is known. *)
Ltac step_at_pc Hstep Hth :=
  let th' := fresh "th" in
  let s1 := fresh "s" in
  let Hst := fresh "Hst" in
  let Hth' := fresh "Hth" in
  let Hex := fresh "Hex" in
  apply step_Some in Hstep as (th' & s1 & Hst & Hth' & Hex & ->);
  rewrite Hth in Hth'; injection Hth' as <-;
  cbn in Hex; exec_cases Hex.

Section Claims.
Context {T : Type} `{Statement T}.
Implicit Types (s : Pool T) (th k : Thread T) (t : nat).

Lemma goto_lookup t k s th :
  procs s !! t = Some th → procs (goto t k s) !! t = Some k.
Proof. intros Hl. cbn. apply list_lookup_insert_eq. by eapply lookup_lt_Some. Qed.

(** ** A failing query *)

(** C3 (amended): a failure of [execute] that is a [std::exception]
    with a non-empty description is caught in the worker's loop and
    turned into a completion message of the pool's type, which the
    worker's next statement hands to the callback of that query;
    the worker is then back at the head of its loop, the process
    still runs and the queue is as it was. *)
Theorem std_exception_is_delivered s t (pick pick' : nat)
    (query : Query T) (what : list ascii) (n : nat)
    (Hst : status s = Running)
    (Hth : procs s !! t = Some (InHandler (H639 query)))
    (Hthrows : execute (statement query) (parameters query)
                 (results query) (insertId query) (rows query)
               = ThrowsStd what)
    (Hlen : strlen what = Some (S n)) :
  ∃ m s1 s2,
    handle (typeVal s) query = Completed m ∧ type m = typeVal s ∧
    step t pick s = Some s1 ∧
    procs s1 !! t = Some (InHandler (H654 query m)) ∧
    step t pick' s1 = Some s2 ∧
    delivered s2 = delivered s ++ [(callback query, m)] ∧
    procs s2 !! t = Some (InHandler H622) ∧
    code (InHandler H622 : Thread T) = ILock TerminateMutex (InHandler H623) ∧
    status s2 = Running ∧
    queries s2 = queries s ∧
    dequeued s2 = dequeued s.
Proof.
  destruct (HandlerProps.handle_ThrowsStd (typeVal s) query what n
              Hthrows Hlen) as (buf & Hm & _).
  set (m := mkMessage (typeVal s) n (Some buf)) in *.
  assert (type m = typeVal s) as Htype by done.
  pose proof (lookup_lt_Some _ _ _ Hth) as Hlt.
  eexists m, _, _. split; [exact Hm|]. split; [exact Htype|].
  split. { rewrite (step_at _ _ _ _ Hst Hth). cbn. rewrite Hm. reflexivity. }
  split. { cbn. by apply list_lookup_insert_eq. }
  split.
  { erewrite step_at; [|exact Hst|cbn; by apply list_lookup_insert_eq].
    reflexivity. }
  cbn. repeat split; try done.
  apply list_lookup_insert_eq. by rewrite length_insert.
Qed.

(** ** After the workers have stopped *)

Lemma stopped_exec (e : Event T) s s' :
  stopped s → is_CallStart e = false → exec e s = Some s' →
  stopped s' ∧ dequeued s' = dequeued s ∧ delivered s' = delivered s ∧
  ∃ more, queries s' = queries s ++ more.
Proof.
  intros Hstop Hne Hexec. destruct e as [t pick| | |q|cv t]; try done.
  - cbn in Hexec.
    apply step_Some in Hexec as (th & s1 & Hst & Hth & Hex & ->).
    pose proof (Hstop _ _ Hth) as Hidle.
    destruct th as [[]|[]|[] q|[]]; try done; cbn in Hex;
      exec_cases Hex;
      (split; [intros t' th' Hl; lookup_cases Hl; by eauto|]);
      cbn; (split; [done|]); (split; [done|]);
      first [ by exists [] ; rewrite app_nil_r | by eexists ].
  - cbn in Hexec. unfold call in Hexec.
    destruct (status s); simplify_eq. cbn.
    split; [|by (repeat split; exists []; rewrite app_nil_r)].
    intros t' th' Hl. cbn in Hl.
    apply lookup_snoc_inv in Hl as [Hl|[-> ->]]; [by eauto|done].
  - cbn in Hexec. unfold call in Hexec.
    destruct (status s); simplify_eq. cbn.
    split; [|by (repeat split; exists []; rewrite app_nil_r)].
    intros t' th' Hl. cbn in Hl.
    apply lookup_snoc_inv in Hl as [Hl|[-> ->]]; [by eauto|done].
  - cbn in Hexec. unfold spurious in Hexec.
    destruct (status s); try done. case_decide; simplify_eq.
    destruct cv; cbn;
      (split; [exact Hstop|by (repeat split; exists []; rewrite app_nil_r)]).
Qed.

Lemma stopped_run (es : list (Event T)) s s' :
  stopped s → forallb (λ e, negb (is_CallStart e)) es = true →
  run es s = Some s' →
  stopped s' ∧ dequeued s' = dequeued s ∧ delivered s' = delivered s ∧
  ∃ more, queries s' = queries s ++ more.
Proof.
  revert s. induction es as [|e es IH]; intros s Hstop Hes; cbn.
  - intros [= <-]. repeat split; try done. exists []. by rewrite app_nil_r.
  - cbn in Hes. apply andb_prop in Hes as [He Hes].
    apply negb_true_iff in He.
    destruct (exec e s) as [s1|] eqn:Hexec; [|done]. cbn. intros Hrun.
    destruct (stopped_exec _ _ _ Hstop He Hexec)
      as (Hstop1 & Hd1 & Hc1 & more1 & Hq1).
    destruct (IH _ Hstop1 Hes Hrun) as (Hstop' & Hd' & Hc' & more & Hq').
    split; [done|]. split; [congruence|]. split; [congruence|].
    exists (more1 ++ more). by rewrite Hq', Hq1, app_assoc.
Qed.

(** ** When the counter is zero *)

Lemma live_count_nonneg (l : list (Thread T)) : 0 ≤ live_count l.
Proof. induction l as [|th l IH]; cbn; [done|]. destruct (live th); lia. Qed.

Lemma live_count_0_inflight (l : list (Thread T)) :
  live_count l = 0 → inflight_all l = [].
Proof.
  unfold inflight_all. induction l as [|th l IH]; cbn; [done|].
  pose proof (live_count_nonneg l). intros Hsum.
  rewrite IH by (destruct (live th); lia).
  destruct th as [[]|[]|[] ?|[]]; cbn in *; done || lia.
Qed.

(** ** [terminate()] *)

(** The last statement of [terminate()] is executed with [threads]
    equal to 0, under [threadsMutex]. *)
Lemma terminate_last_statement s t (pick : nat) s' :
  inv s →
  procs s !! t = Some (InTerminate T607) → step t pick s = Some s' →
  threads s = 0 ∧ owner s ThreadsMutex = Some t ∧
  threads s' = 0 ∧ procs s' !! t = Some (InTerminate Tret).
Proof.
  intros [Hm _ _ _ Hk _ _ _] Hth Hstep.
  pose proof (Hm _ _ ThreadsMutex Hth eq_refl) as Hown.
  pose proof (Hk _ _ Hth) as Hzero. cbn in Hzero.
  pose proof (lookup_lt_Some _ _ _ Hth) as Hlt.
  step_at_pc Hstep Hth. cbn. by rewrite list_lookup_insert_eq.
Qed.

(** C4 (amended): in every execution, [terminate()] sets the stop
    flag while it owns [terminateMutex]; its [notify_all] leaves no
    thread waiting on [wakeUp]; it executes its last statement, and
    returns, only with [threads] equal to 0; and a [terminate()]
    that has returned has done these three in this order.  Once
    every worker has left its loop and no [start()] is under way,
    and for as long as [start()] is not called again, the queries
    still in the queue stay there, at its front: nothing is popped
    and no callback is called. *)
Theorem terminate_protocol s0 s (Hinv0 : inv s0) (Hreach : reachable s0 s) :
  (∀ t pick s',
     procs s !! t = Some (InTerminate T600) → step t pick s = Some s' →
     owner s TerminateMutex = Some t ∧ terminateBool s' = true ∧
     procs s' !! t = Some (InTerminate T601)) ∧
  (∀ t pick s',
     procs s !! t = Some (InTerminate T602) → step t pick s = Some s' →
     waiters s' WakeUp = [] ∧ procs s' !! t = Some (InTerminate T604)) ∧
  (∀ t pick s',
     procs s !! t = Some (InTerminate T607) → step t pick s = Some s' →
     threads s = 0 ∧ owner s ThreadsMutex = Some t ∧
     threads s' = 0 ∧ procs s' !! t = Some (InTerminate Tret)) ∧
  (∀ t,
     procs s !! t = Some (InTerminate Tret) →
     ∃ i j n : nat, (i < j < n)%nat ∧
              did (history s) i t (InTerminate T600) ∧
              did (history s) j t (InTerminate T602) ∧
              did (history s) n t (InTerminate T607)) ∧
  (stopped s →
   ∀ es s',
     forallb (λ e, negb (is_CallStart e)) es = true →
     run es s = Some s' →
     stopped s' ∧ dequeued s' = dequeued s ∧ delivered s' = delivered s ∧
     ∃ more, queries s' = queries s ++ more).
Proof.
  pose proof (inv_reachable _ _ Hinv0 Hreach) as Hinv.
  destruct (inv_reachable _ _ Hinv0 Hreach) as [Hm _ _ _ Hk Hh _ _].
  split; [|split; [|split; [|split]]].
  - intros t pick s' Hth Hstep.
    pose proof (Hm _ _ TerminateMutex Hth eq_refl) as Hown.
    pose proof (lookup_lt_Some _ _ _ Hth) as Hlt.
    step_at_pc Hstep Hth. cbn. by rewrite list_lookup_insert_eq.
  - intros t pick s' Hth Hstep.
    pose proof (lookup_lt_Some _ _ _ Hth) as Hlt.
    step_at_pc Hstep Hth. cbn. by rewrite list_lookup_insert_eq.
  - intros t pick s'. by apply terminate_last_statement.
  - intros t Hth. exact (Hh _ _ Hth).
  - intros Hstop es s'. by apply stopped_run.
Qed.

(** ** Callbacks *)

(** C5 (amended): at the moment a [terminate()] returns, [threads]
    is 0, the queries popped so far are the first of those pushed,
    in order, and the callbacks called so far are exactly the
    callbacks of the popped queries, each once per popped query.
    So, with distinct callbacks, no callback has been called twice,
    and the callback of a query that is still in the queue has not
    been called. *)
Theorem callbacks_when_terminate_returns s0 s t (pick : nat) s'
    (Hinv0 : inv s0) (Hreach : reachable s0 s)
    (Hth : procs s !! t = Some (InTerminate T607))
    (Hstep : step t pick s = Some s') :
  procs s' !! t = Some (InTerminate Tret) ∧
  threads s' = 0 ∧
  enqueued s' = dequeued s' ++ queries s' ∧
  fst <$> delivered s' ≡ₚ callback <$> dequeued s' ∧
  (NoDup (callback <$> enqueued s') →
   NoDup (fst <$> delivered s') ∧
   ∀ q, q ∈ queries s' → callback q ∉ fst <$> delivered s').
Proof.
  assert (reachable s0 s') as Hreach'
    by (eapply (reachable_step _ _ (Run t pick)); [exact Hreach | exact Hstep]).
  destruct (inv_reachable _ _ Hinv0 Hreach') as [_ Hc Hf Hcb _ _ _ _].
  destruct (terminate_last_statement s t pick s'
              (inv_reachable _ _ Hinv0 Hreach) Hth Hstep)
    as (_ & _ & Hzero & Hth').
  unfold count_inv in Hc. rewrite Hzero in Hc. symmetry in Hc.
  apply live_count_0_inflight in Hc.
  unfold callback_inv in Hcb. rewrite Hc in Hcb. cbn in Hcb.
  rewrite app_nil_r in Hcb.
  split; [done|]. split; [done|]. split; [exact Hf|].
  split; [by symmetry|].
  rewrite Hf, fmap_app. intros Hnd.
  apply list.NoDup_app in Hnd as (Hnd & Hdisj & _).
  split; [by rewrite <- Hcb|].
  intros q Hq Hin. rewrite <- Hcb in Hin.
  apply (Hdisj _ Hin). by apply list_elem_of_fmap_2.
Qed.

(** ** [queue] *)

Lemma notify_one_wakes_one (pick : nat) (l : list nat) :
  (l = [] → notify_one pick l = []) ∧
  (l ≠ [] → ∃ w, w ∈ l ∧ l ≡ₚ w :: notify_one pick l) ∧
  length (notify_one pick l) = (length l - 1)%nat.
Proof.
  destruct l as [|x l]; [done|]. split; [done|].
  assert (pick mod length (x :: l) < length (x :: l))%nat as Hlt
    by (apply Nat.mod_upper_bound; cbn; lia).
  apply lookup_lt_is_Some_2 in Hlt as Hw. destruct Hw as [w Hw].
  split.
  - intros _. exists w. split; [by eapply list_elem_of_lookup_2|].
    unfold notify_one. by apply delete_Permutation.
  - unfold notify_one. rewrite length_delete by eauto. cbn. lia.
Qed.

(** Only workers wait on [wakeUp]. *)
Lemma waits_WakeUp (th : Thread T) :
  waits th WakeUp = true → th = InHandler H630w.
Proof. by destruct th as [[]|[]|[] ?|[]]. Qed.


(** ** [start()] *)

Lemma lookup_last (l : list (Thread T)) th : (l ++ [th]) !! length l = Some th.
Proof. by apply list_lookup_middle. Qed.

Lemma insert_last (l : list (Thread T)) th k :
  <[length l := k]> (l ++ [th]) = l ++ [k].
Proof.
  rewrite insert_app_r_alt, Nat.sub_diag by done. done.
Qed.

(** [start()] on a pool that already has [maxThreads] workers, run
    without interruption: it only clears the stop flag. *)
Lemma start_when_full s
    (Hst : status s = Running)
    (Hfull : threads s = maxThreads s)
    (Hfree1 : terminateMutex s = None)
    (Hfree2 : threadsMutex s = None) :
  ∃ s', run (CallStart :: replicate 6 (Run (length (procs s)) 0)) s = Some s' ∧
        procs s' = procs s ++ [InStart Sret] ∧
        terminateBool s' = false ∧
        threads s' = threads s ∧ maxThreads s' = maxThreads s ∧
        typeVal s' = typeVal s ∧ queries s' = queries s ∧
        (∀ m, owner s' m = owner s m) ∧
        (∀ cv, waiters s' cv = waiters s cv) ∧
        enqueued s' = enqueued s ∧ dequeued s' = dequeued s ∧
        delivered s' = delivered s ∧ status s' = Running.
Proof.
  destruct s as [tv mx m1 c1 n c2 m2 tb qs m3 ps st enq deq del hist].
  cbn in Hst, Hfull, Hfree1, Hfree2. subst.
  eexists. split.
  { cbn [replicate run exec call status set_procs procs mbind option_bind].
    do 6 (erewrite step_at; [|reflexivity|norm_state; apply lookup_last];
          cbn -[step insert lookup]; norm_state;
          rewrite ?insert_last; rewrite ?decide_False by lia).
    reflexivity. }
  norm_state. repeat split; try done; by intros [].
Qed.

(** C7 (amended): in every execution, [start()] first clears the
    stop flag, under [terminateMutex]; it creates a worker, one at a
    time, only when it has read [threads < maxThreads] under
    [threadsMutex], and then waits on [threadsChanged], releasing
    the mutex; a worker begins by incrementing [threads] under the
    mutex and then signals [threadsChanged]; [start()] executes its
    last statement, and returns, only after it has read
    [threads >= maxThreads].  Called when [threads] equals
    [maxThreads] and [terminateMutex] and [threadsMutex] are free,
    and run to its return with no other thread moving in between,
    it creates no thread and changes nothing but the stop flag,
    which it clears.  Called on a stopped pool (every thread has
    returned, the two mutexes are free, nobody waits for the
    counter) with [maxThreads >= 0], with only itself and the
    workers it creates running and no wait returning without a
    signal, it can return, and whenever it returns it has created
    exactly [maxThreads] workers, all counted and in their loop, and
    [threads] is [maxThreads]. *)
Theorem start_protocol s0 s (Hinv0 : inv s0) (Hreach : reachable s0 s) :
  (∀ t pick s',
     procs s !! t = Some (InStart S585) → step t pick s = Some s' →
     owner s TerminateMutex = Some t ∧ terminateBool s' = false ∧
     procs s' !! t = Some (InStart S586)) ∧
  (∀ t pick s',
     procs s !! t = Some (InStart S591) → step t pick s = Some s' →
     threads s < maxThreads s ∧ owner s ThreadsMutex = Some t ∧
     procs s' = <[t := InStart S592]> (procs s) ++ [thread_entry] ∧
     threads s' = threads s) ∧
  (∀ t pick s',
     procs s !! t = Some (InStart S592) → step t pick s = Some s' →
     owner s' ThreadsMutex = None ∧
     waiters s' ThreadsChanged = waiters s ThreadsChanged ++ [t] ∧
     procs s' !! t = Some (InStart S592w)) ∧
  (∀ t pick,
     procs s !! t = Some (InStart S592w) →
     t ∈ waiters s ThreadsChanged → step t pick s = None) ∧
  (∀ t pick s',
     procs s !! t = Some (InHandler H613) → step t pick s = Some s' →
     owner s ThreadsMutex = Some t ∧ threads s' = threads s + 1 ∧
     procs s' !! t = Some (InHandler H614)) ∧
  (∀ t pick s',
     procs s !! t = Some (InHandler H615) → step t pick s = Some s' →
     waiters s' ThreadsChanged = notify_one pick (waiters s ThreadsChanged) ∧
     (waiters s ThreadsChanged ≠ [] →
      ∃ w, w ∈ waiters s ThreadsChanged ∧
           waiters s ThreadsChanged ≡ₚ w :: waiters s' ThreadsChanged) ∧
     procs s' !! t = Some (InHandler H622)) ∧
  (∀ t pick s',
     procs s !! t = Some (InStart S594) → step t pick s = Some s' →
     maxThreads s ≤ threads s ∧ threads s' = threads s ∧
     procs s' !! t = Some (InStart Sret)) ∧
  (status s = Running → threads s = maxThreads s →
   terminateMutex s = None → threadsMutex s = None →
   ∃ s', run (CallStart :: replicate 6 (Run (length (procs s)) 0)) s
           = Some s' ∧
         procs s' = procs s ++ [InStart Sret] ∧
         terminateBool s' = false ∧
         threads s' = threads s ∧ maxThreads s' = maxThreads s ∧
         typeVal s' = typeVal s ∧ queries s' = queries s ∧
         (∀ m, owner s' m = owner s m) ∧
         (∀ cv, waiters s' cv = waiters s cv) ∧
         enqueued s' = enqueued s ∧ dequeued s' = dequeued s ∧
         delivered s' = delivered s ∧ status s' = Running) ∧
  (at_rest s → 0 ≤ maxThreads s →
   (∃ s', run (start_schedule (length (procs s)) (Z.to_nat (maxThreads s))) s
            = Some s' ∧
          procs s' !! length (procs s) = Some (InStart Sret)) ∧
   (∀ es s',
      forallb is_Run es = true →
      run (CallStart :: es) s = Some s' →
      procs s' !! length (procs s) = Some (InStart Sret) →
      threads s' = maxThreads s ∧
      Z.of_nat (length (procs s')) =
        Z.of_nat (length (procs s)) + 1 + maxThreads s ∧
      terminateBool s' = false ∧
      threadsChanged s' = [] ∧
      ∀ t th, procs s' !! t = Some th → (length (procs s) < t)%nat → up th)).
Proof.
  pose proof (inv_reachable _ _ Hinv0 Hreach) as Hinv.
  destruct (inv_reachable _ _ Hinv0 Hreach) as [Hm _ _ _ Hk _ _ Hw].
  repeat apply conj.
  - intros t pick s' Hth Hstep.
    pose proof (Hm _ _ TerminateMutex Hth eq_refl) as Hown.
    pose proof (lookup_lt_Some _ _ _ Hth) as Hlt.
    step_at_pc Hstep Hth. cbn. by rewrite list_lookup_insert_eq.
  - intros t pick s' Hth Hstep.
    pose proof (Hm _ _ ThreadsMutex Hth eq_refl) as Hown.
    pose proof (Hk _ _ Hth) as Hbelow. cbn in Hbelow.
    pose proof (lookup_lt_Some _ _ _ Hth) as Hlt.
    step_at_pc Hstep Hth. cbn. by rewrite insert_app_l.
  - intros t pick s' Hth Hstep.
    pose proof (lookup_lt_Some _ _ _ Hth) as Hlt.
    step_at_pc Hstep Hth. cbn. by rewrite list_lookup_insert_eq.
  - intros t pick Hth Hin.
    destruct (step t pick s) as [s'|] eqn:Hstep; [|done].
    step_at_pc Hstep Hth.
  - intros t pick s' Hth Hstep.
    pose proof (Hm _ _ ThreadsMutex Hth eq_refl) as Hown.
    pose proof (lookup_lt_Some _ _ _ Hth) as Hlt.
    step_at_pc Hstep Hth. cbn. by rewrite list_lookup_insert_eq.
  - intros t pick s' Hth Hstep.
    pose proof (lookup_lt_Some _ _ _ Hth) as Hlt.
    destruct (notify_one_wakes_one pick (waiters s ThreadsChanged))
      as (_ & Hone & _).
    step_at_pc Hstep Hth. cbn in *. by rewrite list_lookup_insert_eq.
  - intros t pick s' Hth Hstep.
    pose proof (Hk _ _ Hth) as Hfull. cbn in Hfull.
    pose proof (lookup_lt_Some _ _ _ Hth) as Hlt.
    step_at_pc Hstep Hth. cbn. rewrite list_lookup_insert_eq by done.
    repeat split; try done. lia.
  - apply start_when_full.
  - intros Hrest HN. split.
    + destruct (start_can_return s Hinv Hrest HN) as (s' & Hrun & Hdone & _).
      by exists s'.
    + intros es s'. by apply start_alone.
Qed.

End Claims.

Import Demo.

Lemma std_exception_is_delivered_witness :
  ∃ s2, run (start_up ++ enqueue 1 100 2 ++ serve_to_execute) pool1
          = Some before_execute ∧
        procs before_execute !! 1%nat = Some (InHandler (H639 (query 1 100))) ∧
        run (runs 1 2) before_execute = Some s2 ∧
        fst <$> delivered s2 = [100%nat] ∧
        procs s2 !! 1%nat = Some (InHandler H622).
Proof.
  destruct (std_exception_is_delivered before_execute
              1 0 0 (query 1 100) (literal "duplicate key") 12
              eq_refl eq_refl eq_refl eq_refl)
    as (m & s1 & s2 & _ & _ & Hs1 & _ & Hs2 & Hd & Hp & _).
  exists s2. split; [vm_compute; reflexivity|].
  split; [reflexivity|].
  split.
  { change (run (runs 1 2) before_execute)
      with (step 1 0 before_execute ≫= λ s', step 1 0 s' ≫= Some).
    rewrite Hs1. cbn [mbind option_bind]. by rewrite Hs2. }
  split; [by rewrite Hd | exact Hp].
Defined.

(** C3, as the specification states it, fails for a failure that is
    not a [std::exception]: nothing catches it, the process ends with
    the callback not called and the next query still in the queue,
    and no thread moves any more. *)
Lemma other_exception_is_not_caught :
  ∃ s, run (start_up ++ enqueue 3 100 2 ++ enqueue 0 101 3 ++ runs 1 8) pool1
         = Some s ∧
       execute (statement (query 3 100)) None None None None = ThrowsOther ∧
       dequeued s = [query 3 100] ∧
       delivered s = [] ∧
       queries s = [query 0 101] ∧
       status s = Terminated ∧
       ∀ e, exec e s = None.
Proof.
  eexists. split; [vm_compute; reflexivity|].
  repeat split. by intros [].
Qed.

(** ** The claims at concrete executions *)

Lemma inv_pool1 : inv pool1.
Proof. apply inv_Connection. Qed.

Ltac by_running es :=
  apply (run_reachable es); vm_compute; reflexivity.

(** C5, as the specification states it, fails: a query queued before
    [terminate()] is called, on a running pool, can still be in the
    queue, with its callback not called, when [terminate()] has
    returned. *)
Lemma queued_before_terminate_not_called_back :
  run (start_up ++ enqueue 0 100 2 ++ shut_down ++ runs 3 1) pool1 = Some shut ∧
  (∃ i j : nat, (i < j)%nat ∧
     did (history shut) i 2 (InQueue Q678 (query 0 100)) ∧
     did (history shut) j 3 (InTerminate T599)) ∧
  procs shut !! 3%nat = Some (InTerminate Tret) ∧
  enqueued shut = [query 0 100] ∧
  queries shut = [query 0 100] ∧
  delivered shut = [].
Proof.
  split; [vm_compute; reflexivity|].
  split.
  { exists 17%nat, 18%nat. split; [lia|]. split; vm_compute; reflexivity. }
  done.
Qed.

Lemma callbacks_when_terminate_returns_witness :
  reachable pool1 returning ∧
  procs returning !! 3%nat = Some (InTerminate T607) ∧
  step 3 0 returning = Some shut ∧
  fst <$> delivered shut ≡ₚ callback <$> dequeued shut ∧
  dequeued shut = [] ∧
  threads shut = 0.
Proof.
  assert (reachable pool1 returning) as Hreach
    by by_running (start_up ++ enqueue 0 100 2 ++ shut_down).
  assert (step 3 0 returning = Some shut) as Hstep
    by (vm_compute; reflexivity).
  destruct (callbacks_when_terminate_returns pool1 returning 3 0 shut
              inv_pool1 Hreach eq_refl Hstep)
    as (_ & Hzero & _ & Hperm & _).
  repeat split; done.
Defined.

Lemma stopped_shut : stopped shut.
Proof.
  intros t th Hl.
  destruct t as [|[|[|[|t]]]]; cbn in Hl; by simplify_eq.
Qed.

(** C4, as the specification states it, fails in its last part: the
    query left in the queue when the workers stopped is popped, and
    its callback called, after [start()] is called again. *)
Lemma restart_serves_what_was_left :
  run (start_up ++ enqueue 0 100 2 ++ shut_down ++ runs 3 1) pool1 = Some shut ∧
  stopped shut ∧ threads shut = 0 ∧
  procs shut !! 3%nat = Some (InTerminate Tret) ∧
  queries shut = [query 0 100] ∧ delivered shut = [] ∧
  ∃ s', run restart shut = Some s' ∧
        queries s' = [] ∧
        dequeued s' = [query 0 100] ∧
        delivered s' = [(100%nat, mkMessage 7 0 None)].
Proof.
  split; [vm_compute; reflexivity|].
  split; [apply stopped_shut|].
  repeat split. eexists. split; [vm_compute; reflexivity|]. done.
Qed.

Lemma terminate_protocol_witness :
  reachable pool1 shut ∧
  (∃ i j n : nat, (i < j < n)%nat ∧
     did (history shut) i 3 (InTerminate T600) ∧
     did (history shut) j 3 (InTerminate T602) ∧
     did (history shut) n 3 (InTerminate T607)) ∧
  ∃ s', run (enqueue 1 101 4) shut = Some s' ∧
        delivered s' = [] ∧ dequeued s' = [] ∧
        queries s' = [query 0 100; query 1 101].
Proof.
  assert (reachable pool1 shut) as Hreach
    by by_running (start_up ++ enqueue 0 100 2 ++ shut_down ++ runs 3 1).
  destruct (terminate_protocol pool1 shut inv_pool1 Hreach)
    as (_ & _ & _ & Hhist & Hleft).
  split; [exact Hreach|]. split; [by apply Hhist|].
  destruct (run (enqueue 1 101 4) shut) as [s'|] eqn:Hrun; [|by vm_compute in Hrun].
  exists s'. split; [done|].
  destruct (Hleft stopped_shut (enqueue 1 101 4) s' eq_refl Hrun)
    as (_ & Hdeq & Hdel & _).
  split; [by rewrite Hdel|]. split; [by rewrite Hdeq|].
  vm_compute in Hrun. by injection Hrun as <-.
Defined.

(** Why the last part of C4 asks that no [start()] is under way: a
    [start()] that was called before the workers left, and had not
    yet cleared the stop flag, brings up a worker that serves what
    was left, with no further call of [start()]. *)
Example pending_start_serves_what_was_left :
  ∃ s s',
    run (start_up ++ enqueue 0 100 2 ++ [CallStart] ++ [CallTerminate] ++
         runs 4 7 ++ runs 1 7 ++ runs 4 3) pool1 = Some s ∧
    procs s = [InStart Sret; InHandler Hret; InQueue Qret (query 0 100);
               InStart S584; InTerminate Tret] ∧
    threads s = 0 ∧ queries s = [query 0 100] ∧ delivered s = [] ∧
    run (runs 3 7 ++ runs 5 4 ++ runs 3 3 ++ runs 5 9) s = Some s' ∧
    queries s' = [] ∧
    delivered s' = [(100%nat, mkMessage 7 0 None)].
Proof.
  eexists _, _. split; [vm_compute; reflexivity|].
  do 4 (split; [reflexivity|]). split; [vm_compute; reflexivity|]. done.
Qed.


(** C7, as the specification states it, fails in its last part:
    [start()] called when [threads] equals [maxThreads] changes the
    stop flag if a [terminate()] has just set it. *)
Lemma start_when_full_clears_stop_flag :
  run (start_up ++ [CallTerminate] ++ runs 2 3) pool1 = Some stopping ∧
  threads stopping = maxThreads stopping ∧
  terminateBool stopping = true ∧
  ∃ s', run ([CallStart] ++ runs 3 6) stopping = Some s' ∧
        procs s' !! 3%nat = Some (InStart Sret) ∧
        terminateBool s' = false ∧
        terminateBool s' ≠ terminateBool stopping.
Proof.
  split; [vm_compute; reflexivity|]. repeat split.
  eexists. split; [vm_compute; reflexivity|]. done.
Qed.

Lemma at_rest_shut : at_rest shut.
Proof.
  split; try done. intros t th Hl.
  destruct t as [|[|[|[|t]]]]; cbn in Hl; by simplify_eq.
Qed.

Lemma start_protocol_witness :
  reachable pool1 running ∧
  threads running = maxThreads running ∧
  (∃ s', run (CallStart :: replicate 6 (Run 2 0)) running = Some s' ∧
         procs s' = procs running ++ [InStart Sret] ∧
         threads s' = threads running ∧
         terminateBool s' = terminateBool running) ∧
  reachable pool1 shut ∧ threads shut = 0 ∧ terminateBool shut = true ∧
  ∃ s', run (CallStart :: runs 4 7 ++ runs 5 4 ++ runs 4 3) shut = Some s' ∧
        procs s' !! 4%nat = Some (InStart Sret) ∧
        threads s' = 1 ∧ terminateBool s' = false ∧
        length (procs s') = 6%nat.
Proof.
  assert (reachable pool1 running) as Hreach by by_running start_up.
  destruct (start_protocol pool1 running inv_pool1 Hreach)
    as (_ & _ & _ & _ & _ & _ & _ & Hfull & _).
  destruct (Hfull eq_refl eq_refl eq_refl eq_refl)
    as (s' & Hrun & Hprocs & Hflag & Hthreads & _).
  split; [exact Hreach|]. split; [done|].
  split; [exists s'; repeat split; done|].
  assert (reachable pool1 shut) as Hshut
    by by_running (start_up ++ enqueue 0 100 2 ++ shut_down ++ runs 3 1).
  destruct (start_protocol pool1 shut inv_pool1 Hshut)
    as (_ & _ & _ & _ & _ & _ & _ & _ & Halone).
  destruct (Halone at_rest_shut) as [_ Hsafe]; [done|].
  split; [exact Hshut|]. split; [done|]. split; [done|].
  destruct (run (CallStart :: runs 4 7 ++ runs 5 4 ++ runs 4 3) shut)
    as [s2|] eqn:Hrun2; [|by vm_compute in Hrun2].
  assert (procs s2 !! 4%nat = Some (InStart Sret)) as Hret.
  { vm_compute in Hrun2. by injection Hrun2 as <-. }
  destruct (Hsafe (runs 4 7 ++ runs 5 4 ++ runs 4 3) s2 eq_refl Hrun2 Hret)
    as (Hn & Hlen & Hfl & _).
  exists s2. split; [done|]. split; [done|]. split; [done|].
  split; [done|]. change (length (procs shut)) with 4%nat in Hlen.
  change (maxThreads shut) with 1 in Hlen. lia.
Defined.

(** Why C7 asks that no other thread moves while [start()] runs at
    full strength: when the worker leaves between the call and the
    test of line 589, [start()] finds [threads] below [maxThreads]
    and creates a worker. *)
Example interleaved_start_creates_a_worker :
  threads stopping = maxThreads stopping ∧
  ∃ s', run ([CallStart] ++ runs 1 7 ++ runs 3 7 ++ runs 4 4 ++ runs 3 3)
          stopping = Some s' ∧
        procs s' = [InStart Sret; InHandler Hret; InTerminate T602;
                    InStart Sret; InHandler H622] ∧
        threads s' = 1.
Proof.
  split; [reflexivity|]. eexists. split; [vm_compute; reflexivity|]. done.
Qed.

(** Why the last part of C7 asks for a pool left alone: with a wait
    that returns without a signal, [start()] on a pool of size 1 creates
    two workers. *)
Example spurious_wakeup_starts_two_workers :
  ∃ s', run ([CallStart] ++ runs 0 7 ++ [Spurious ThreadsChanged 0] ++
             runs 0 4 ++ runs 1 4 ++ runs 2 4 ++ runs 0 3) pool1 = Some s' ∧
        procs s' = [InStart Sret; InHandler H622; InHandler H622] ∧
        maxThreads s' = 1 ∧ threads s' = 2.
Proof. eexists. split; [vm_compute; reflexivity|]. done. Qed.

End PoolClaims.

(** * More about the data-binding types *)

Module DataExtras.
Import CStr Data DataMore DataProps.

(** ** The [TestSet] of the documentation *)

(** X1: the three accessors of [TestSet] agree on which indices
    exist: an index has a type other than [NOTHING] exactly when it
    is below [numberOfSqlElements], and exactly then both
    [getSqlPtr] give a pointer, the same one, that no other index
    gives; [getSqlSize] is the size of the member (16) at the
    indices of fixed binary or character kind and 0 elsewhere. *)
Theorem TestSet_accessors_agree (base index : nat) :
  let s := TestSet base in
  ((index < numberOfSqlElements s)%nat ↔ getSqlType s index ≠ NOTHING) ∧
  ((index < numberOfSqlElements s)%nat ↔ is_Some (getSqlPtr s index)) ∧
  getSqlPtr_mutable s index = getSqlPtr s index ∧
  (∀ j, is_Some (getSqlPtr s index) →
        getSqlPtr s j = getSqlPtr s index → j = index) ∧
  getSqlSize s index =
    Value (if fixed_kind (getSqlType s index) then 16 else 0)%nat.
Proof.
  cbn. unfold getSqlPtr, getSqlPtr_mutable, getSqlSize. cbn.
  split; [|split; [|split; [done|split]]].
  - do 7 (destruct index as [|index]; [split; [done|lia]|]).
    split; [lia|done].
  - case_decide; split; intros Hx;
      first [done | lia | by destruct Hx | by eexists].
  - intros j Hsome Heq. repeat case_decide; simplify_eq; try lia.
    by destruct Hsome.
  - by do 7 (destruct index as [|index]; [done|]).
Qed.

Section SetContainer.
Context {T : Type}.
Variable T_new : T.
Implicit Types (c : SetContainer T) (os : list Op).

(** ** Sequences of appends and trims *)

Lemma manufacture_size c :
  ∃ c' it, manufacture T_new c = Some (c', it) ∧ size c' = S (size c).
Proof.
  rewrite manufacture_eq. eexists _, _. split; [done|].
  unfold size. cbn. rewrite length_app. cbn. lia.
Qed.

Lemma count_op_take_S (o x : Op) os k :
  count_op o (take (S k) (x :: os)) =
    ((if decide (x = o) then 1 else 0) + count_op o (take k os))%nat.
Proof. done. Qed.

(** X2: a sequence of appends and trims is defined exactly when no
    trim comes at a moment when the container is empty, that is
    when in every initial part of the sequence the trims are at most
    the elements there were plus the appends; and then the size is
    the initial size plus the appends minus the trims. *)
Theorem apply_ops_defined_iff os c :
  (is_Some (apply_ops T_new c os) ↔
     ∀ k, (count_op OpTrim (take k os)
           ≤ size c + count_op OpManufacture (take k os))%nat) ∧
  (∀ c', apply_ops T_new c os = Some c' →
         (size c' + count_op OpTrim os
          = size c + count_op OpManufacture os)%nat).
Proof.
  revert c. induction os as [|o os IH]; intros c.
  { split; [|intros c' [= <-]; cbn; lia].
    split; [intros _ k; rewrite take_nil; cbn; lia | by eexists]. }
  destruct o.
  - destruct (manufacture_size c) as (c1 & it & Hm & Hsz).
    cbn [apply_ops apply_op]. rewrite Hm. cbn [fmap option_fmap option_map
      mbind option_bind fst].
    destruct (IH c1) as [IHd IHs]. split.
    + rewrite IHd. split.
      * intros Hk [|k]; [cbn; lia|].
        rewrite !count_op_take_S. specialize (Hk k).
        repeat case_decide; try done. lia.
      * intros Hk k. specialize (Hk (S k)).
        rewrite !count_op_take_S in Hk.
        repeat case_decide; try done. lia.
    + intros c' Hrun. specialize (IHs c' Hrun). cbn [count_op].
      repeat case_decide; try done. lia.
  - cbn [apply_ops apply_op].
    destruct (trim c) as [c1|] eqn:Ht.
    + pose proof (trim_size _ _ Ht) as Hsz.
      cbn [mbind option_bind]. destruct (IH c1) as [IHd IHs]. split.
      * rewrite IHd. split.
        -- intros Hk [|k]; [cbn; lia|].
           rewrite !count_op_take_S. specialize (Hk k).
           repeat case_decide; try done. lia.
        -- intros Hk k. specialize (Hk (S k)).
           rewrite !count_op_take_S in Hk.
           repeat case_decide; try done. lia.
      * intros c' Hrun. specialize (IHs c' Hrun). cbn [count_op].
        repeat case_decide; try done. lia.
    + cbn [mbind option_bind]. split; [|done].
      split; [by intros [? ?]|]. intros Hk. specialize (Hk 1%nat).
      rewrite !count_op_take_S, take_0 in Hk. cbn [count_op] in Hk.
      assert (size c ≠ 0%nat) as Hne
        by (repeat case_decide; try done; lia).
      apply trim_is_Some in Hne as [c1 Hc1]. congruence.
Qed.

(** ** Elements and their objects *)

Lemma NoDup_manufacture c c' it :
  wf c → NoDup (data c) → manufacture T_new c = Some (c', it) →
  NoDup (data c').
Proof.
  rewrite manufacture_eq. intros Hwf Hnd [= <- _]. cbn.
  apply list.NoDup_app. split; [done|]. split; [|apply NoDup_singleton].
  intros p Hp ->%list_elem_of_singleton.
  unfold wf in Hwf. rewrite list.Forall_forall in Hwf.
  specialize (Hwf _ Hp). lia.
Qed.

Lemma NoDup_trim c c' : NoDup (data c) → trim c = Some c' → NoDup (data c').
Proof.
  destruct c as [os l]. destruct (list.last l) as [p|] eqn:Hl.
  - apply last_Some in Hl as [l' ->]. rewrite trim_snoc.
    intros Hnd [= <-]. cbn in *. by apply list.NoDup_app in Hnd as [? _].
  - apply last_None in Hl as ->. discriminate.
Qed.

Lemma NoDup_apply_ops os c c' :
  wf c → NoDup (data c) → apply_ops T_new c os = Some c' → NoDup (data c').
Proof.
  revert c. induction os as [|o os IH]; intros c Hwf Hnd; [by intros [= <-]|].
  cbn. destruct (apply_op T_new c o) as [c1|] eqn:Hop; [|done].
  cbn. destruct o; cbn in Hop.
  - destruct (manufacture T_new c) as [[c2 it]|] eqn:Hm; [|done].
    injection Hop as <-. apply IH.
    + by eapply wf_manufacture.
    + by eapply NoDup_manufacture.
  - apply IH; [by eapply wf_trim | by eapply NoDup_trim].
Qed.

(** X3: in a container built from an empty one by appends and
    trims, every position below [size] can be dereferenced (its
    shared pointer points at an allocated object), and no two
    positions share an object. *)
Theorem elements_own_their_objects os c
    (Hrun : apply_ops T_new SetContainer_init os = Some c) :
  (∀ it, (it < size c)%nat → is_Some (iter_deref c it)) ∧
  (∀ i j p, iter_get c i = Some p → iter_get c j = Some p → i = j) ∧
  (∀ it, (size c ≤ it)%nat → iter_deref c it = None).
Proof.
  assert (wf c) as Hwf by (eapply wf_apply_ops; [apply wf_init | exact Hrun]).
  assert (NoDup (data c)) as Hnd.
  { eapply NoDup_apply_ops; [apply (wf_init (T:=T)) | | exact Hrun].
    apply NoDup_nil_2. }
  split; [|split].
  - intros it Hlt. unfold iter_deref, iter_get, size, iterator in *.
    apply lookup_lt_is_Some_2 in Hlt as [p Hp]. rewrite Hp. cbn.
    apply lookup_lt_is_Some_2.
    unfold wf in Hwf. rewrite list.Forall_forall in Hwf.
    apply Hwf. by eapply list_elem_of_lookup_2.
  - intros i j p Hi Hj. unfold iter_get in *. by eapply NoDup_lookup.
  - intros it Hge. unfold iter_deref, iter_get, size, iterator in *.
    by rewrite lookup_ge_None_2.
Qed.

(** ** The two ends of a container *)

Lemma back_snoc (os : list T) (l : list nat) (p : nat) :
  back (mkSetContainer os (l ++ [p])) = os !! p.
Proof. unfold back. cbn. by rewrite last_snoc. Qed.

(** X4: [empty()], [size() == 0] and [begin() == end()] say the
    same; on an empty container [front()] and [back()] are
    undefined and the loop from [begin()] to [end()] visits
    nothing; on a non-empty one [front()] is the object at
    [begin()] and [back()] the object before [end()]; and after an
    append [back()] is the new object, while [front()] is what it
    was unless the container was empty. *)
Theorem front_and_back c (Hwf : wf c) :
  (empty c = true ↔ size c = 0%nat) ∧
  (empty c = true ↔ begin_ c = end_ c) ∧
  (empty c = true →
     front c = None ∧ back c = None ∧ ∀ fuel, iterate fuel c = Some []) ∧
  (empty c = false →
     is_Some (front c) ∧ front c = iter_deref c (begin_ c) ∧
     is_Some (back c) ∧
     ∃ it, iter_dec (end_ c) = Some it ∧ back c = iter_deref c it) ∧
  (∀ c' it, manufacture T_new c = Some (c', it) →
     back c' = Some T_new ∧ back c' = iter_deref c' it ∧
     front c' = if empty c then Some T_new else front c).
Proof.
  destruct c as [os l]. unfold wf in Hwf. cbn in Hwf.
  unfold empty, size, begin_, end_, front, back, iter_deref, iter_get,
    iterator.
  cbn [Data.data Data.objs].
  split; [|split; [|split; [|split]]].
  - rewrite bool_decide_eq_true. by destruct l.
  - rewrite bool_decide_eq_true. by destruct l.
  - rewrite bool_decide_eq_true. intros ->. repeat split.
    intros fuel. unfold iterate, begin_. by destruct fuel.
  - rewrite bool_decide_eq_false. intros Hne.
    rewrite list.Forall_forall in Hwf.
    assert (is_Some (head l ≫= λ p, os !! p)) as Hfront.
    { destruct l as [|p l]; [done|]. cbn.
      apply lookup_lt_is_Some_2, Hwf. by left. }
    split; [exact Hfront|]. split; [by destruct l|].
    destruct (list.last l) as [p|] eqn:Hl.
    + apply last_Some in Hl as [l' ->]. cbn.
      split.
      { apply lookup_lt_is_Some_2, Hwf, elem_of_app. right. by left. }
      exists (length l'). rewrite length_app, Nat.add_1_r. split; [done|].
      by rewrite list_lookup_middle.
    + by apply last_None in Hl.
  - intros c' it. rewrite manufacture_eq. intros [= <- <-].
    cbn [Data.data Data.objs]. rewrite last_snoc. cbn.
    rewrite list_lookup_middle by done. cbn.
    rewrite list_lookup_middle by done.
    split; [done|].
    split; [cbn; by rewrite list_lookup_middle|].
    destruct l as [|p l]; cbn.
    + by rewrite list_lookup_middle.
    + apply lookup_app_l. apply list.Forall_cons in Hwf as [Hp _]. done.
Qed.

End SetContainer.

Lemma apply_ops_defined_iff_example :
  is_Some (apply_ops 0%Z (SetContainer_init (T:=Z))
             [OpManufacture; OpManufacture; OpTrim; OpTrim]) ∧
  apply_ops 0%Z (SetContainer_init (T:=Z))
    [OpManufacture; OpTrim; OpTrim; OpManufacture] = None.
Proof. split; [by eexists | done]. Qed.

Lemma elements_own_their_objects_witness :
  ∃ c, apply_ops 0%Z (SetContainer_init (T:=Z))
         [OpManufacture; OpManufacture; OpTrim; OpManufacture] = Some c ∧
       size c = 2%nat ∧
       is_Some (iter_deref c 0%nat) ∧ is_Some (iter_deref c 1%nat) ∧
       iter_deref c 2%nat = None.
Proof.
  eexists. split; [reflexivity|].
  destruct (elements_own_their_objects 0%Z
              [OpManufacture; OpManufacture; OpTrim; OpManufacture] _ eq_refl)
    as (Hin & _ & Hout).
  split; [done|]. split; [apply Hin; cbn; lia|].
  split; [apply Hin; cbn; lia | apply Hout; cbn; lia].
Defined.

Lemma front_and_back_witness :
  let c := mkSetContainer [5%Z; 6%Z] [0%nat; 1%nat] in
  empty c = false ∧ front c = Some 5%Z ∧ back c = Some 6%Z.
Proof.
  intros c.
  assert (wf c) as Hwf by (repeat constructor; cbn; lia).
  destruct (front_and_back 0%Z c Hwf) as (_ & _ & _ & Hne & _).
  destruct (Hne eq_refl) as (_ & Hf & _ & _).
  split; [done|]. split; [by rewrite Hf | done].
Defined.

End DataExtras.

(** * More about the completion message *)

Module HandlerExtras.
Import CStr Sql HandlerProps.

Section Handle.
Context {T : Type} `{Statement T}.

(** The read of [strlen] runs off the buffer exactly when the buffer
    holds no NUL. *)
Lemma strlen_None (p : list ascii) : strlen p = None ↔ NUL ∉ p.
Proof.
  induction p as [|c r IH]; cbn.
  - split; [intros _; apply not_elem_of_nil | done].
  - unfold is_nul. destruct (ascii_dec c NUL) as [->|Hc].
    + split; [done|]. intros Hn. destruct Hn. by left.
    + rewrite not_elem_of_cons, <- IH.
      destruct (strlen r); cbn; split; try done. by intros [_ ?].
Qed.

(** X5: when [execute] throws a [std::exception] whose description
    is the empty string, [strlen(e.what()+1)] measures the string
    that lies behind the terminator of the description.  If no NUL
    follows the terminator in the buffer (so also if the buffer ends
    with it), that read runs off the buffer.  If one follows, the
    message has as size the length [n] of the string behind the
    terminator, and as payload the first [n] characters of the
    buffer: nothing if [n] is 0, and else the terminator followed by
    the first [n - 1] characters behind it, which is not the
    description. *)
Theorem empty_description (typeVal : Z) (query : Query T) (what : list ascii)
    (Hthrows : execute (statement query) (parameters query)
                 (results query) (insertId query) (rows query)
               = ThrowsStd what)
    (Hempty : strlen what = Some 0%nat) :
  c_str what = [] ∧
  (strlen (ptr_add what 1) = None ↔ NUL ∉ ptr_add what 1) ∧
  match strlen (ptr_add what 1) with
  | None => handle typeVal query = Undefined
  | Some n =>
      n = length (c_str (ptr_add what 1)) ∧
      ∃ m, handle typeVal query = Completed m ∧
           type m = typeVal ∧ size m = n ∧
           payload m = take n what ∧
           (n = 0%nat → payload m = [] ∧ payload m = c_str what) ∧
           (n ≠ 0%nat →
            payload m = NUL :: take (n - 1) (c_str (ptr_add what 1)) ∧
            payload m ≠ c_str what)
  end.
Proof.
  destruct what as [|c rest]; [done|]. cbn in Hempty.
  destruct (is_nul c) eqn:Hc; [|by destruct (strlen rest)].
  assert (c = NUL) as ->
    by (unfold is_nul in Hc; by destruct (ascii_dec c NUL)).
  split; [done|]. split; [apply strlen_None|].
  unfold handle. rewrite Hthrows. unfold on_catch, ptr_add.
  change (drop 1 (NUL :: rest)) with rest.
  destruct (strlen rest) as [n|] eqn:Hn; [|done]. cbn [mbind option_bind].
  pose proof (strlen_lt _ _ Hn) as Hlt.
  pose proof (strlen_c_str _ _ Hn) as Hlen.
  pose proof (strlen_take_c_str _ _ Hn) as Htake.
  split; [done|].
  unfold memcpy. rewrite decide_True.
  2:{ unfold new_char. rewrite length_replicate. cbn. lia. }
  cbn [mbind option_bind]. eexists. split; [reflexivity|].
  unfold payload, new_char. cbn [type size data].
  rewrite drop_replicate, Nat.sub_diag. cbn [replicate].
  rewrite app_nil_r, take_take, Nat.min_id.
  split; [done|]. split; [done|]. split; [done|]. split.
  - by intros ->.
  - intros Hne. destruct n as [|n]; [done|]. cbn. rewrite Nat.sub_0_r.
    split; [|done]. f_equal. rewrite <- Htake, take_take.
    f_equal. lia.
Qed.

End Handle.

(** The description is the empty string literal: nothing lies behind
    its terminator. *)
Lemma empty_description_witness :
  handle 7 (Scenarios.stmt (Scenarios.Fails (literal "")) 100%nat)
    = Undefined.
Proof.
  destruct (empty_description 7
              (Scenarios.stmt (Scenarios.Fails (literal "")) 100%nat)
              (literal "") eq_refl eq_refl) as (_ & _ & Hh).
  exact Hh.
Defined.

(** The description is empty and the characters of "secret" lie
    behind it: the payload is the terminator and "secre". *)
Example empty_description_discloses :
  ∃ m, handle 7 (Scenarios.stmt
                   (Scenarios.Fails (Scenarios.empty_then "secret"))
                   100%nat) = Completed m ∧
       size m = 6%nat ∧
       payload m = NUL :: list_ascii_of_string "secre".
Proof. eexists. split; [reflexivity|]. split; reflexivity. Qed.

(** The description is empty and another empty string lies behind
    it: the message is the one an empty description should give. *)
Example empty_description_twice :
  ∃ m, handle 7 (Scenarios.stmt (Scenarios.Fails [NUL; NUL]) 100%nat)
         = Completed m ∧
       size m = 0%nat ∧ payload m = [].
Proof. eexists. split; [reflexivity|]. split; reflexivity. Qed.

End HandlerExtras.

(** * More about the worker pool *)

Module PoolExtras.
Import CStr Sql PoolSpec PoolProps PoolSafety.

(** ** Running a schedule one event at a time *)

Lemma run_cons_Some {T : Type} `{Statement T} (e : Event T) es
    (s s1 s' : Pool T) :
  exec e s = Some s1 → run es s1 = Some s' → run (e :: es) s = Some s'.
Proof. intros He Hr. cbn. by rewrite He. Qed.

(** The list of threads is kept in the form [<[w:=_]> ps ++ [_]] when
    a thread of the list and the last one run in turn, and in the form
    [<[u:=_]> (<[w:=_]> ps)] when two threads [u] and [w] of the list
    do. *)
Ltac norm_procs :=
  repeat first
    [ rewrite list_insert_insert_eq
    | rewrite insert_app_l by len
    | rewrite insert_app_r_alt, length_insert, Nat.sub_diag by len ];
  cbn [insert list_insert].

Ltac norm_two u w :=
  repeat first
    [ rewrite list_insert_insert_eq
    | rewrite (list_insert_insert_ne _ w u) by done ].

Ltac norm_last := rewrite ?PoolClaims.insert_last.

(** A state down to its fields, the innermost update first. *)
Ltac eval_state :=
  cbv beta iota zeta delta
    [record goto unlock lock push pop deliver set_owner set_waiters
     set_procs set_status set_threads set_terminateBool set_threadsMutex
     set_terminateMutex set_queriesMutex set_threadsChanged set_wakeUp
     notify_all typeVal maxThreads threadsMutex threadsChanged threads
     wakeUp terminateMutex terminateBool queries queriesMutex procs status
     enqueued dequeued delivered history owner waiters
     mbind option_bind fmap option_fmap option_map
     code start_code terminate_code queue_code handler_code exec_instr
     thread_entry].

(** The next event of the schedule is the step of a thread: the state
    it leads to is computed, [norm] putting the list of threads in
    form and [more] rewriting with what is known about the state. *)
Ltac run_step norm more :=
  eapply run_cons_Some;
  [ cbn [exec]; erewrite step_at;
    [|reflexivity|first [solve_lookup | apply PoolClaims.lookup_last]];
    eval_state;
    rewrite ?decide_False by (apply not_elem_of_nil);
    rewrite ?decide_True by lia; rewrite ?decide_False by lia;
    more;
    eval_state; norm;
    reflexivity
  | ].

(** The next event is a call. *)
Ltac run_call :=
  eapply run_cons_Some; [cbn [exec call status]; norm_state; reflexivity|].

Section Safety.
Context {T : Type} `{Statement T}.
Implicit Types (s : Pool T) (th k : Thread T) (t : nat).

(** ** Who owns a mutex *)

Lemma guard_holds th m : guard (code th) = Some m → holds th m = true.
Proof. destruct th as [[]|[]|[] ?|[]]; cbn; by intros [= <-]. Qed.

Lemma owner_inv_step t pick s s' :
  owner_inv s → step t pick s = Some s' → owner_inv s'.
Proof.
  intros Hinv Hstep.
  apply step_Some in Hstep as (th & s1 & Hst & Hth & Hex & ->).
  pose proof (lookup_lt_Some _ _ _ Hth) as Hlt.
  intros m t' Hown. rewrite owner_record in Hown.
  change (procs (record t th s1)) with (procs s1).
  assert (∀ k, owner s m = Some t' →
            (t' = t → holds k m = true) →
            ∃ th', <[t := k]> (procs s) !! t' = Some th' ∧ holds th' m = true)
    as Hold.
  { intros k Hown0 Hk. destruct (decide (t' = t)) as [->|Hne].
    - exists k. split; [by apply list_lookup_insert_eq | by apply Hk].
    - destruct (Hinv _ _ Hown0) as (th0 & Hl0 & Hh0). exists th0.
      by rewrite list_lookup_insert_ne. }
  assert (∀ m', owner s m' = Some t → holds th m' = true) as Hmine.
  { intros m' Hown0. destruct (Hinv _ _ Hown0) as (th0 & Hl0 & Hh0).
    congruence. }
  specialize (Hmine m).
  destruct th as [[]|[]|[] ?|[]]; cbn in Hex; exec_cases Hex;
    destruct m; cbn in Hown, Hmine;
    cbn [procs record goto set_procs set_status set_threads
      set_terminateBool set_waiters set_owner set_threadsMutex
      set_terminateMutex set_queriesMutex unlock push pop deliver
      set_threadsChanged set_wakeUp];
    simplify_eq;
    try (rewrite insert_app_l by done);
    first
      [ by (eexists; split; [by apply list_lookup_insert_eq|])
      | by (apply Hold; [exact Hown | intros ->; by auto])
      | by (eapply (Hinv ThreadsMutex))
      | by (eapply (Hinv TerminateMutex))
      | by (eapply (Hinv QueriesMutex))
      | idtac ].
  all: destruct (Hold (InStart S592) Hown) as (th' & Hl' & Hh');
    [intros ->; by auto|];
    exists th'; split; [by apply lookup_app_l_Some | done].
Qed.

(** ** What a callback is given *)

Lemma delivery_inv_step t pick s s' :
  delivery_inv s → step t pick s = Some s' → delivery_inv s'.
Proof.
  intros (Hdel & Hfly & Hmsg) Hstep.
  apply step_Some in Hstep as (th & s1 & Hst & Hth & Hex & ->).
  pose proof (lookup_lt_Some _ _ _ Hth) as Hlt.
  pose proof (Hfly _ _ Hth) as Hmine.
  pose proof (Hmsg t) as Hmymsg.
  destruct th as [[]|[]|[] ?|[]]; cbn in Hex; exec_cases Hex;
    (split; [intros cb m0 Hin
            |split; [intros t' th' Hl q0 Hq | intros t' q0 m0 Hl]]);
    cbn [procs record goto set_procs set_status set_threads
      set_terminateBool set_waiters set_owner set_threadsMutex
      set_terminateMutex set_queriesMutex unlock push pop deliver
      set_threadsChanged set_wakeUp typeVal dequeued delivered] in *;
    try lookup_cases Hl;
    try (by eauto).
  - destruct (Hdel _ _ Hin) as (q1 & Hq1 & Hcb & Hh). exists q1.
    split; [apply elem_of_app; by left | done].
  - apply list_elem_of_singleton in Hq as ->.
    apply elem_of_app. right. by left.
  - apply elem_of_app. left. by eapply Hfly.
  - apply elem_of_app in Hin as [Hin|Hin%list_elem_of_singleton];
      [by apply Hdel|].
    injection Hin as -> ->. exists query.
    split; [apply Hmine; by left|]. split; [done|]. by apply Hmymsg.
  - by apply elem_of_nil in Hq.
Qed.

(** ** How the process stops running *)

Lemma crash_inv_step t pick s s' :
  front_inv s → step t pick s = Some s' → crash_inv s'.
Proof.
  intros Hfront Hstep.
  apply step_Some in Hstep as (th & s1 & Hst & Hth & Hex & ->).
  pose proof (Hfront t) as Hne.
  destruct th as [[]|[]|[] ?|[]]; cbn in Hex; exec_cases Hex;
    unfold crash_inv;
    cbn [status record goto set_procs set_status set_threads
      set_terminateBool set_waiters set_owner set_threadsMutex
      set_terminateMutex set_queriesMutex unlock push pop deliver
      set_threadsChanged set_wakeUp typeVal procs];
    rewrite ?Hst; try done; try (by eauto).
  by destruct (Hne Hth).
Qed.

(** ** Who has written the stop flag *)

Lemma cleared_app (h h' : list (nat * Thread T)) :
  cleared h → cleared (h ++ h').
Proof. intros (i & u & Hi). exists i, u. by apply lookup_app_l_Some. Qed.

Lemma raised_app (h h' : list (nat * Thread T)) :
  raised h → raised (h ++ h').
Proof. intros (i & u & Hi). exists i, u. by apply lookup_app_l_Some. Qed.

Lemma cleared_snoc_inv (h : list (nat * Thread T)) t th :
  cleared (h ++ [(t, th)]) → th ≠ InStart S585 → cleared h.
Proof.
  intros (i & u & Hi) Hne. exists i, u. unfold did in *.
  apply lookup_snoc_Some in Hi as [[_ ?]|[_ ?]]; [done|]. congruence.
Qed.

Lemma flag_inv_step t pick s s' :
  flag_inv s → step t pick s = Some s' → flag_inv s'.
Proof.
  intros (Hclr & Hflag & Hleave) Hstep.
  apply step_Some in Hstep as (th & s1 & Hst & Hth & Hex & ->).
  pose proof (Hclr _ _ Hth) as Hmyclr.
  pose proof (Hleave _ _ Hth) as Hmyleave.
  assert (history (record t th s1) = history s1 ++ [(t, th)]) as Hh
    by done.
  unfold flag_inv. rewrite Hh. clear Hh.
  destruct th as [[]|[]|[] ?|[]]; cbn in Hex; exec_cases Hex;
    cbn [history terminateBool record goto set_procs set_status set_threads
      set_terminateBool set_waiters set_owner set_threadsMutex
      set_terminateMutex set_queriesMutex unlock push pop deliver
      set_threadsChanged set_wakeUp typeVal procs];
    (split; [intros t' th' Hl Hac
            |split; [intros Htb Hc | intros t' th' Hl Hlv]]);
    try lookup_cases Hl;
    first
      [ by (apply cleared_app, Hmyclr)
      | by (apply cleared_app; eapply Hclr; eassumption)
      | by (apply raised_app, Hmyleave)
      | by (apply raised_app; eapply Hleave; eassumption)
      | by (eexists _, _; apply did_snoc)
      | by (apply raised_app, Hflag; [done | by eapply cleared_snoc_inv])
      | by (apply raised_app, Hflag; [done | by apply Hmyclr]) ].
Qed.

(** ** The four invariants together *)

Lemma safe_step t pick s s' :
  inv s → safe s → step t pick s = Some s' → safe s'.
Proof.
  intros [_ _ _ _ _ _ Hfront _] [] Hstep. split.
  - by eapply owner_inv_step.
  - by eapply delivery_inv_step.
  - by eapply crash_inv_step.
  - by eapply flag_inv_step.
Qed.

Lemma safe_call th s s' : entry th → safe s → call th s = Some s' → safe s'.
Proof.
  intros Hentry [Ho (Hdel & Hfly & Hmsg) Hc (Hclr & Hflag & Hleave)].
  unfold call. destruct (status s) eqn:Hst; intros [= <-]. split.
  - intros m t Hown. rewrite owner_set_procs in Hown.
    destruct (Ho _ _ Hown) as (th' & Hl & Hh). exists th'.
    split; [|done]. cbn. by apply lookup_app_l_Some.
  - split; [exact Hdel|]. split.
    + intros t' th' Hl q Hq. cbn in Hl.
      apply lookup_snoc_inv in Hl as [Hl|[-> ->]]; [by eapply Hfly|].
      destruct Hentry as [->|[->|[q' ->]]]; by apply elem_of_nil in Hq.
    + intros t' q m Hl. cbn in Hl.
      apply lookup_snoc_inv in Hl as [Hl|[-> Hl]]; [by eapply Hmsg|].
      destruct Hentry as [->|[->|[q' ->]]]; by simplify_eq.
  - unfold crash_inv. cbn. by rewrite Hst.
  - split; [|split; [exact Hflag|]].
    + intros t' th' Hl Hac. cbn in Hl.
      apply lookup_snoc_inv in Hl as [Hl|[-> ->]]; [by eapply Hclr|].
      by destruct Hentry as [->|[->|[q' ->]]].
    + intros t' th' Hl Hlv. cbn in Hl.
      apply lookup_snoc_inv in Hl as [Hl|[-> ->]]; [by eapply Hleave|].
      by destruct Hentry as [->|[->|[q' ->]]].
Qed.

Lemma safe_spurious cv t s s' :
  safe s → spurious cv t s = Some s' → safe s'.
Proof.
  intros [Ho Hd Hc Hf]. unfold spurious.
  destruct (status s) eqn:Hst; try done. case_decide; [|done].
  intros [= <-]. split.
  - intros m t' Hown. rewrite owner_set_waiters in Hown.
    destruct (Ho _ _ Hown) as (th' & Hl & Hh). exists th'.
    split; [|done]. by destruct cv.
  - by destruct cv.
  - unfold crash_inv. destruct cv; cbn; by rewrite Hst.
  - by destruct cv.
Qed.

Lemma safe_exec e s s' : inv s → safe s → exec e s = Some s' → safe s'.
Proof.
  intros Hinv Hsafe. destruct e; cbn.
  - by apply safe_step.
  - apply safe_call; [by left | done].
  - apply safe_call; [right; by left | done].
  - apply safe_call; [right; right; by eexists | done].
  - by apply safe_spurious.
Qed.

Lemma safe_Connection (typeVal_ maxThreads_ : Z) (tb : bool) :
  safe (T:=T) (Connection typeVal_ maxThreads_ tb).
Proof.
  split.
  - by intros [].
  - split; [|split]; try done. intros cb m Hin. by apply elem_of_nil in Hin.
  - done.
  - split; [done|]. split; [|done].
    intros _ (i & u & Hi). done.
Qed.

(** Every state of an execution that begins with a new connection
    satisfies all the invariants. *)
Lemma Connection_reachable (typeVal_ maxThreads_ : Z) (tb : bool) s :
  reachable (Connection typeVal_ maxThreads_ tb) s → inv s ∧ safe s.
Proof.
  induction 1 as [|s e s' Hreach [Hinv Hsafe] Hexec].
  - split; [apply inv_Connection | apply safe_Connection].
  - split; [by eapply inv_exec | by eapply safe_exec].
Qed.

(** [typeVal] and [maxThreads] are [const]. *)
Lemma consts_exec (e : Event T) s s' :
  exec e s = Some s' →
  typeVal s' = typeVal s ∧ maxThreads s' = maxThreads s.
Proof.
  destruct e as [t pick| | |q|cv t]; cbn.
  - intros Hstep.
    apply step_Some in Hstep as (th & s1 & Hst & Hth & Hex & ->).
    destruct th as [[]|[]|[] ?|[]]; cbn in Hex; by exec_cases Hex.
  - unfold call. destruct (status s); by intros [= <-].
  - unfold call. destruct (status s); by intros [= <-].
  - unfold call. destruct (status s); by intros [= <-].
  - unfold spurious. destruct (status s); try done.
    case_decide; [|done]. intros [= <-]. by destruct cv.
Qed.

Lemma consts_reachable s0 s :
  reachable s0 s → typeVal s = typeVal s0 ∧ maxThreads s = maxThreads s0.
Proof.
  induction 1 as [|s e s' _ [IH1 IH2] Hexec]; [done|].
  apply consts_exec in Hexec as [-> ->]. done.
Qed.

(** X6: in every execution, a thread that is at a statement reading
    or writing [terminateBool], [threads] or the queue, or releasing
    a mutex (by [unlock] or by a wait), owns the mutex that guards
    that member, or that it releases; so no two threads are at
    statements guarded by the same mutex. *)
Theorem accesses_are_guarded (typeVal_ maxThreads_ : Z) (tb : bool) s t th m
    (Hreach : reachable (Connection typeVal_ maxThreads_ tb) s)
    (Hth : procs s !! t = Some th)
    (Hguard : guard (code th) = Some m) :
  owner s m = Some t ∧
  ∀ t' th', procs s !! t' = Some th' → guard (code th') = Some m → t' = t.
Proof.
  destruct (Connection_reachable _ _ _ _ Hreach) as [[Hm _ _ _ _ _ _ _] _].
  assert (owner s m = Some t) as Hown
    by (apply (Hm t th); [done | by apply guard_holds]).
  split; [done|]. intros t' th' Hth' Hguard'.
  assert (owner s m = Some t') as Hown'
    by (apply (Hm t' th'); [done | by apply guard_holds]).
  congruence.
Qed.

(** X7: in every execution, a mutex is owned by a thread exactly
    while that thread is between taking it and releasing it; a
    thread that has returned from [start()], [terminate()],
    [queue()] or [intHandler()] owns no mutex. *)
Theorem mutexes_are_released (typeVal_ maxThreads_ : Z) (tb : bool) s
    (Hreach : reachable (Connection typeVal_ maxThreads_ tb) s) :
  (∀ m t, owner s m = Some t ↔
          ∃ th, procs s !! t = Some th ∧ holds th m = true) ∧
  (∀ t th m, procs s !! t = Some th → returned th = true →
             owner s m ≠ Some t) ∧
  ((∀ t th, procs s !! t = Some th → returned th = true) →
   ∀ m, owner s m = None).
Proof.
  destruct (Connection_reachable _ _ _ _ Hreach)
    as [[Hm _ _ _ _ _ _ _] [Ho _ _ _]].
  assert (∀ t th m, procs s !! t = Some th → returned th = true →
                    owner s m ≠ Some t) as Hret.
  { intros t th m Hth Hr Hown.
    destruct (Ho _ _ Hown) as (th' & Hth' & Hh).
    rewrite Hth in Hth'. injection Hth' as <-.
    by destruct th as [[]|[]|[] ?|[]], m. }
  split; [|split; [exact Hret|]].
  - intros m t. split; [apply Ho|].
    intros (th & Hth & Hh). by apply (Hm t th).
  - intros Hall m. destruct (owner s m) as [t|] eqn:Hown; [|done].
    destruct (Ho _ _ Hown) as (th & Hth & _).
    by destruct (Hret t th m Hth (Hall _ _ Hth)).
Qed.

(** ** Mutexes cannot deadlock *)

(** A thread between a [lock] and an [unlock] is at a statement that
    does not block, unless it is the worker at line 658. *)
Lemma holder_moves t pick s th m :
  status s = Running → procs s !! t = Some th → holds th m = true →
  th ≠ InHandler H658 → is_Some (step t pick s).
Proof.
  intros Hst Hth Hh Hne. rewrite (step_at _ _ _ _ Hst Hth).
  destruct th as [[]|[]|[] ?|[]], m; try done; cbn;
    repeat case_match; by eexists.
Qed.

(** X8: in every execution, the owner of a mutex can take a step,
    unless it is a worker that holds [terminateMutex] and is
    waiting for [threadsMutex] at line 658, and then the owner of
    [threadsMutex] can take a step: threads blocked on mutexes never
    wait for each other in a circle. *)
Theorem mutex_owner_can_move (typeVal_ maxThreads_ : Z) (tb : bool) s m t
    (pick : nat)
    (Hreach : reachable (Connection typeVal_ maxThreads_ tb) s)
    (Hst : status s = Running)
    (Hown : owner s m = Some t) :
  is_Some (step t pick s) ∨
  (m = TerminateMutex ∧ procs s !! t = Some (InHandler H658) ∧
   ∃ t', owner s ThreadsMutex = Some t' ∧ t' ≠ t ∧
         is_Some (step t' pick s)).
Proof.
  destruct (Connection_reachable _ _ _ _ Hreach)
    as [[Hm _ _ _ _ _ _ _] [Ho _ _ _]].
  destruct (Ho _ _ Hown) as (th & Hth & Hh).
  assert (th = InHandler H658 ∨ th ≠ InHandler H658) as [->|Hne]
    by (destruct th as [[]|[]|[] ?|[]]; by auto);
    [|left; by eapply holder_moves].
  destruct (owner s ThreadsMutex) as [t'|] eqn:Hown'.
  - right. split; [by destruct m|]. split; [done|]. exists t'.
    destruct (Ho _ _ Hown') as (th' & Hth' & Hh').
    assert (t' ≠ t) as Hne by (intros ->; by simplify_eq).
    split; [done|]. split; [done|].
    eapply holder_moves; [done..|].
    intros ->. done.
  - left. rewrite (step_at _ _ _ _ Hst Hth). cbn. unfold lock.
    rewrite Hown'. by eexists.
Qed.

(** ** The counter and the callbacks at any moment *)

Lemma live_count_le_length (l : list (Thread T)) :
  live_count l ≤ Z.of_nat (length l).
Proof.
  induction l as [|th l IH]; cbn [live_count length]; [done|].
  destruct (live th); lia.
Qed.

(** X9: in every execution, at every moment, [threads] is the number
    of threads that run [intHandler] and are between its
    [++threads] and its [--threads]; so it is never negative. *)
Theorem threads_counts_the_workers (typeVal_ maxThreads_ : Z) (tb : bool) s
    (Hreach : reachable (Connection typeVal_ maxThreads_ tb) s) :
  threads s = live_count (procs s) ∧
  0 ≤ threads s ≤ Z.of_nat (length (procs s)).
Proof.
  destruct (Connection_reachable _ _ _ _ Hreach)
    as [[_ Hc _ _ _ _ _ _] _].
  split; [exact Hc|]. rewrite Hc. split.
  - apply PoolClaims.live_count_nonneg.
  - apply live_count_le_length.
Qed.

(** X10: in every execution, at every moment, the callbacks called
    so far are callbacks of queries that have been popped, each at
    most as often as it was queued: with distinct callbacks none
    has been called twice, and the callbacks of the queries still
    in the queue have not been called. *)
Theorem callbacks_at_most_once (typeVal_ maxThreads_ : Z) (tb : bool) s
    (Hreach : reachable (Connection typeVal_ maxThreads_ tb) s) :
  fst <$> delivered s ⊆+ callback <$> dequeued s ∧
  fst <$> delivered s ⊆+ callback <$> enqueued s ∧
  (NoDup (callback <$> enqueued s) →
   NoDup (fst <$> delivered s) ∧
   ∀ q, q ∈ queries s → callback q ∉ fst <$> delivered s).
Proof.
  destruct (Connection_reachable _ _ _ _ Hreach)
    as [[_ _ Hf Hcb _ _ _ _] _].
  unfold fifo_inv in Hf. unfold callback_inv in Hcb.
  assert (fst <$> delivered s ⊆+ callback <$> dequeued s) as Hsub.
  { rewrite Hcb. by apply submseteq_inserts_r. }
  split; [exact Hsub|].
  assert (fst <$> delivered s ⊆+ callback <$> enqueued s) as Hsub'.
  { rewrite Hf, fmap_app. by apply submseteq_inserts_r. }
  split; [exact Hsub'|].
  rewrite Hf, fmap_app. intros Hnd.
  apply list.NoDup_app in Hnd as (Hnd & Hdisj & _).
  apply submseteq_Permutation in Hsub as [k Hk].
  split.
  - rewrite Hk in Hnd. by apply list.NoDup_app in Hnd as (Hnd & _ & _).
  - intros q Hq Hin. apply (Hdisj (callback q)).
    + rewrite Hk. apply elem_of_app. by left.
    + by apply list_elem_of_fmap_2.
Qed.

(** ** What a callback is given *)

Lemma handle_Completed (tv : Z) (q : Query T) (m : Message) :
  handle tv q = Completed m →
  type m = tv ∧ length (payload m) = size m.
Proof.
  unfold handle.
  destruct (execute _ _ _ _ _) as [|what|]; [by intros [= <-]| |done].
  unfold on_catch.
  destruct (strlen (ptr_add what 1)) as [n|] eqn:Hn; [|done]. cbn.
  unfold memcpy. case_decide as Hle; [|done]. cbn. intros [= <-].
  split; [done|]. unfold payload. cbn.
  rewrite length_take, length_app, length_take, length_drop.
  unfold new_char in *. rewrite length_replicate in *. lia.
Qed.

(** X11: in every execution, a message that has been handed to a
    callback is the completion message, as lines 639 to 652 compute
    it, of a query that was queued with that callback and has been
    popped; it has the connection's type and as many characters as
    its size says. *)
Theorem callback_gets_its_own_result (typeVal_ maxThreads_ : Z) (tb : bool)
    s (cb : Callback) (m : Message)
    (Hreach : reachable (Connection typeVal_ maxThreads_ tb) s)
    (Hin : (cb, m) ∈ delivered s) :
  ∃ q, q ∈ enqueued s ∧ q ∈ dequeued s ∧ callback q = cb ∧
       handle typeVal_ q = Completed m ∧
       type m = typeVal_ ∧ length (payload m) = size m.
Proof.
  destruct (Connection_reachable _ _ _ _ Hreach)
    as [[_ _ Hf _ _ _ _ _] [_ (Hdel & _ & _) _ _]].
  destruct (consts_reachable _ _ Hreach) as [Htv _]. cbn in Htv.
  destruct (Hdel _ _ Hin) as (q & Hq & Hcb & Hh). rewrite Htv in Hh.
  exists q. split; [rewrite Hf; apply elem_of_app; by left|].
  split; [done|]. split; [done|]. split; [done|].
  by apply handle_Completed in Hh.
Qed.

(** ** How the process stops running *)

(** X12: thread creation and [new] succeed, and a callback that is
    called returns (line 654 is outside of the [try], so a callback
    that throws, or an empty [boost::function], would end the
    process there).  That granted, the only statements of the pool
    that end the process are those of lines 645 to 651: whenever the
    process has stopped, a worker is inside the [try] with a popped
    query
    whose [execute] threw something that is no [std::exception]
    (nothing catches it), or threw a [std::exception] for which
    [strlen(e.what()+1)] or the [memcpy] runs off the buffer.  In
    particular a worker that is about to take [queries.front()]
    finds the queue non-empty. *)
Theorem process_stops_only_in_execute (typeVal_ maxThreads_ : Z) (tb : bool)
    s (Hreach : reachable (Connection typeVal_ maxThreads_ tb) s) :
  (∀ t, procs s !! t = Some (InHandler H635) → queries s ≠ []) ∧
  match status s with
  | Running => True
  | Terminated =>
      ∃ t q, procs s !! t = Some (InHandler (H639 q)) ∧
           q ∈ dequeued s ∧
           execute (statement q) (parameters q) (results q)
                   (insertId q) (rows q) = ThrowsOther
  | UndefinedBehaviour =>
      ∃ t q what, procs s !! t = Some (InHandler (H639 q)) ∧
           q ∈ dequeued s ∧
           execute (statement q) (parameters q) (results q)
                   (insertId q) (rows q) = ThrowsStd what ∧
           on_catch (mkMessage typeVal_ 0 None) what = None
  end.
Proof.
  destruct (Connection_reachable _ _ _ _ Hreach)
    as [[_ _ _ _ _ _ Hfront _] [_ (_ & Hfly & _) Hc _]].
  split; [exact Hfront|].
  destruct (consts_reachable _ _ Hreach) as [Htv _]. cbn in Htv.
  unfold crash_inv in Hc. rewrite Htv in Hc.
  destruct (status s); [done| |].
  - destruct Hc as (t & q & Hth & Hh). exists t, q. split; [exact Hth|].
    split; [eapply Hfly; [exact Hth | by left]|].
    unfold handle in Hh.
    destruct (execute _ _ _ _ _) as [|what|]; [done| |done].
    by destruct (on_catch _ what).
  - destruct Hc as (t & q & Hth & Hh).
    unfold handle in Hh.
    destruct (execute _ _ _ _ _) as [|what|] eqn:Hex; [done| |done].
    exists t, q, what. split; [exact Hth|].
    split; [eapply Hfly; [exact Hth | by left]|].
    split; [done|]. by destruct (on_catch _ what).
Qed.

(** ** The stop flag *)

(** X13: the constructor leaves [terminateBool] without a value, but
    in every execution a thread that is about to read it (a worker
    at line 623) does so after some [start()] has executed line
    585, which writes it. *)
Theorem stop_flag_is_written_before_read (typeVal_ maxThreads_ : Z)
    (tb : bool) s t th kt kf
    (Hreach : reachable (Connection typeVal_ maxThreads_ tb) s)
    (Hth : procs s !! t = Some th)
    (Hread : code th = IIfTerminate kt kf) :
  ∃ i u, (i < length (history s))%nat ∧
         did (history s) i u (InStart S585).
Proof.
  destruct (Connection_reachable _ _ _ _ Hreach)
    as [_ [_ _ _ (Hclr & _ & _)]].
  destruct (Hclr t th Hth) as (i & u & Hi).
  - by destruct th as [[]|[]|[] ?|[]].
  - exists i, u. split; [by eapply did_lt | done].
Qed.

(** X14: in every execution, a worker that has left its loop (it is
    at one of lines 658 to 662, or has returned) has done so after
    some [terminate()] has executed line 600: whatever value
    [terminateBool] had at first, no worker leaves by itself. *)
Theorem worker_leaves_only_after_terminate (typeVal_ maxThreads_ : Z)
    (tb : bool) s t th
    (Hreach : reachable (Connection typeVal_ maxThreads_ tb) s)
    (Hth : procs s !! t = Some th)
    (Hleft : leaving th = true) :
  ∃ i j u v, did (history s) i u (InStart S585) ∧
             did (history s) j v (InTerminate T600).
Proof.
  destruct (Connection_reachable _ _ _ _ Hreach)
    as [_ [_ _ _ (Hclr & _ & Hleave)]].
  destruct (Hclr t th Hth) as (i & u & Hi).
  { by destruct th as [[]|[]|[] ?|[]]. }
  destruct (Hleave t th Hth Hleft) as (j & v & Hj).
  by exists i, j, u, v.
Qed.

(** ** A pool that is to have no worker *)

Lemma unmanned_step t pick s s' :
  unmanned s → step t pick s = Some s' → unmanned s'.
Proof.
  intros [Hmax Hthr Hprocs Hdeq Hdel] Hstep.
  apply step_Some in Hstep as (th & s1 & Hst & Hth & Hex & ->).
  pose proof (Hprocs _ _ Hth) as Hnw.
  destruct th as [[]|[]|[] ?|[]]; try done; cbn in Hex; exec_cases Hex;
    try lia;
    (split; cbn [maxThreads threads dequeued delivered procs record goto
       set_procs set_status set_threads set_terminateBool set_waiters
       set_owner set_threadsMutex set_terminateMutex set_queriesMutex
       unlock push pop deliver set_threadsChanged set_wakeUp];
     [done | done | intros t' th' Hl; lookup_cases Hl; by eauto
     | done | done]).
Qed.

Lemma unmanned_exec (e : Event T) s s' :
  unmanned s → exec e s = Some s' → unmanned s'.
Proof.
  intros Hu. destruct e as [t pick| | |q|cv t]; cbn.
  - by apply unmanned_step.
  - destruct Hu as [Hmax Hthr Hprocs Hdeq Hdel].
    unfold call. destruct (status s); intros [= <-].
    split; try done. intros t' th' Hl. cbn in Hl.
    apply lookup_snoc_inv in Hl as [Hl|[-> ->]]; by eauto.
  - destruct Hu as [Hmax Hthr Hprocs Hdeq Hdel].
    unfold call. destruct (status s); intros [= <-].
    split; try done. intros t' th' Hl. cbn in Hl.
    apply lookup_snoc_inv in Hl as [Hl|[-> ->]]; by eauto.
  - destruct Hu as [Hmax Hthr Hprocs Hdeq Hdel].
    unfold call. destruct (status s); intros [= <-].
    split; try done. intros t' th' Hl. cbn in Hl.
    apply lookup_snoc_inv in Hl as [Hl|[-> ->]]; by eauto.
  - destruct Hu as [Hmax Hthr Hprocs Hdeq Hdel].
    unfold spurious. destruct (status s); try done.
    case_decide; [|done]. intros [= <-]. by destruct cv.
Qed.

(** X15: a pool constructed with [maxThreads] zero or negative never
    has a worker, whatever is called on it: [threads] stays 0, no
    thread runs [intHandler], every query that is queued stays in
    the queue, no callback is called, and the process keeps
    running. *)
Theorem no_worker_without_maxThreads (typeVal_ maxThreads_ : Z) (tb : bool) s
    (Hmax : maxThreads_ ≤ 0)
    (Hreach : reachable (Connection typeVal_ maxThreads_ tb) s) :
  threads s = 0 ∧
  (∀ t pc, procs s !! t ≠ Some (InHandler pc)) ∧
  queries s = enqueued s ∧ dequeued s = [] ∧ delivered s = [] ∧
  status s = Running.
Proof.
  assert (unmanned s) as [_ Hthr Hprocs Hdeq Hdel].
  { induction Hreach as [|s e s' _ IH Hexec]; [by split|].
    by eapply unmanned_exec. }
  destruct (Connection_reachable _ _ _ _ Hreach)
    as [[_ _ Hf _ _ _ _ _] [_ _ Hc _]].
  assert (∀ t pc, procs s !! t ≠ Some (InHandler pc)) as Hnone.
  { intros t pc Hth. by specialize (Hprocs _ _ Hth). }
  split; [done|]. split; [done|].
  split; [by rewrite Hf, Hdeq|]. split; [done|]. split; [done|].
  unfold crash_inv in Hc. destruct (status s); [done| |].
  - destruct Hc as (t & q & Hth & _). by destruct (Hnone _ _ Hth).
  - destruct Hc as (t & q & Hth & _). by destruct (Hnone _ _ Hth).
Qed.

(** ** [terminate()] and [queue()] run without interruption *)

(** X16: [terminate()] called when [threads] is 0 and the two
    mutexes it takes are free, and run without interruption,
    returns after seven statements: it has set the stop flag and
    emptied the list of [wakeUp], and changed nothing else. *)
Theorem terminate_when_idle s
    (Hst : status s = Running)
    (Hidle : threads s = 0)
    (Hfree1 : terminateMutex s = None)
    (Hfree2 : threadsMutex s = None) :
  ∃ s', run (CallTerminate :: replicate 7 (Run (length (procs s)) 0)) s
          = Some s' ∧
        procs s' = procs s ++ [InTerminate Tret] ∧
        terminateBool s' = true ∧ wakeUp s' = [] ∧
        threads s' = 0 ∧ maxThreads s' = maxThreads s ∧
        typeVal s' = typeVal s ∧ queries s' = queries s ∧
        (∀ m, owner s' m = owner s m) ∧
        threadsChanged s' = threadsChanged s ∧
        enqueued s' = enqueued s ∧ dequeued s' = dequeued s ∧
        delivered s' = delivered s ∧ status s' = Running.
Proof.
  destruct s as [tv mx m1 c1 n c2 m2 tb qs m3 ps st enq deq del hist].
  cbn in Hst, Hidle, Hfree1, Hfree2. subst.
  eexists. split.
  { cbn [replicate]. run_call.
    do 7 run_step norm_last idtac. reflexivity. }
  norm_state. repeat split; try done; by intros [].
Qed.

(** X17: [queue()] called when the queue's mutex is free, and run
    without interruption, returns after four statements: the query
    is at the back of the queue, one thread less waits on [wakeUp]
    if any did, and nothing else has changed. *)
Theorem queue_when_free s (q : Query T) (pick : nat)
    (Hst : status s = Running)
    (Hfree : queriesMutex s = None) :
  ∃ s', run (CallQueue q :: replicate 4 (Run (length (procs s)) pick)) s
          = Some s' ∧
        procs s' = procs s ++ [InQueue Qret q] ∧
        queries s' = queries s ++ [q] ∧
        enqueued s' = enqueued s ++ [q] ∧
        wakeUp s' = notify_one pick (wakeUp s) ∧
        threadsChanged s' = threadsChanged s ∧
        (∀ m, owner s' m = owner s m) ∧
        terminateBool s' = terminateBool s ∧ threads s' = threads s ∧
        maxThreads s' = maxThreads s ∧ typeVal s' = typeVal s ∧
        dequeued s' = dequeued s ∧ delivered s' = delivered s ∧
        status s' = Running.
Proof.
  destruct s as [tv mx m1 c1 n c2 m2 tb qs m3 ps st enq deq del hist].
  cbn in Hst, Hfree. subst.
  eexists. split.
  { cbn [replicate]. run_call.
    do 4 run_step norm_last idtac. reflexivity. }
  norm_state. repeat split; try done; by intros [].
Qed.

(** ** One iteration of a worker *)

(** X18: a worker at the head of its loop, with the stop flag clear,
    [terminateMutex] and the queue's mutex free and a query at the
    front of the queue whose [execute] returns or throws a
    [std::exception] that the [catch] block can copy, run without
    interruption, is back at the head of its loop after nine
    statements: it has popped that query and called its callback
    with the completion message, and has changed nothing else. *)
Theorem worker_serves_front_query s (w : nat) (q : Query T)
    (rest : list (Query T)) (m : Message)
    (Hst : status s = Running)
    (Hw : procs s !! w = Some (InHandler H622))
    (Hflag : terminateBool s = false)
    (Hfree1 : terminateMutex s = None)
    (Hfree2 : queriesMutex s = None)
    (Hq : queries s = q :: rest)
    (Hm : handle (typeVal s) q = Completed m) :
  ∃ s', run (replicate 9 (Run w 0)) s = Some s' ∧
        procs s' = procs s ∧
        queries s' = rest ∧
        dequeued s' = dequeued s ++ [q] ∧
        delivered s' = delivered s ++ [(callback q, m)] ∧
        enqueued s' = enqueued s ∧
        (∀ m, owner s' m = owner s m) ∧
        (∀ cv, waiters s' cv = waiters s cv) ∧
        terminateBool s' = false ∧ threads s' = threads s ∧
        maxThreads s' = maxThreads s ∧ typeVal s' = typeVal s ∧
        status s' = Running.
Proof.
  pose proof (lookup_lt_Some _ _ _ Hw) as Hwlt.
  destruct s as [tv mx m1 c1 n c2 m2 tb qs m3 ps st enq deq del hist].
  cbn in Hst, Hw, Hflag, Hfree1, Hfree2, Hq, Hm, Hwlt. subst.
  eexists. split.
  { cbn [replicate].
    do 9 run_step norm_procs ltac:(rewrite ?Hm). reflexivity. }
  norm_state. split; [by apply list_insert_id|].
  repeat split; try done; by intros [].
Qed.

(** ** A [terminate()] that comes between a worker's test of the stop
    flag and its wait *)

Lemma live_count_pos (l : list (Thread T)) t th :
  l !! t = Some th → live th = true → 1 ≤ live_count l.
Proof.
  revert t. induction l as [|x l IH]; intros [|t]; cbn; try done.
  - intros [= ->] ->. pose proof (PoolClaims.live_count_nonneg l). lia.
  - intros Hl Hlive. specialize (IH _ Hl Hlive). destruct (live x); lia.
Qed.

(** X19: [terminate()] broadcasts on [wakeUp] without the queue's
    mutex, so a worker that has tested the stop flag before
    [terminate()] sets it, and waits on [wakeUp] after the
    broadcast, is not woken.  From a state where the worker is at
    the head of its loop, the flag is clear, the queue is empty and
    every other thread has returned, the run [late_wait] ends with
    the flag set, the worker waiting on [wakeUp], [terminate()]
    waiting for [threads] to become 0, and no thread able to take a
    step. *)
Theorem terminate_can_miss_a_worker (typeVal_ maxThreads_ : Z) (tb : bool)
    s (w : nat)
    (Hreach : reachable (Connection typeVal_ maxThreads_ tb) s)
    (Hst : status s = Running)
    (Hw : procs s !! w = Some (InHandler H622))
    (Hflag : terminateBool s = false)
    (Hq : queries s = [])
    (Hothers : ∀ t th, procs s !! t = Some th → t ≠ w → returned th = true) :
  ∃ s', run (late_wait w (length (procs s))) s = Some s' ∧
        terminateBool s' = true ∧
        procs s' !! w = Some (InHandler H630w) ∧ w ∈ wakeUp s' ∧
        procs s' !! length (procs s) = Some (InTerminate T606w) ∧
        length (procs s) ∈ threadsChanged s' ∧
        threads s' = threads s ∧ 0 < threads s' ∧
        ∀ t pick, step t pick s' = None.
Proof.
  destruct (Connection_reachable _ _ _ _ Hreach)
    as [[_ Hc _ _ _ _ _ Hwait] [Ho _ _ _]].
  pose proof (lookup_lt_Some _ _ _ Hw) as Hwlt.
  assert (∀ m, owner s m = None) as Hfree.
  { intros m. destruct (owner s m) as [t|] eqn:Hown; [|done].
    destruct (Ho _ _ Hown) as (th & Hth & Hh).
    destruct (decide (t = w)) as [->|Hne].
    - rewrite Hw in Hth. injection Hth as <-. by destruct m.
    - specialize (Hothers _ _ Hth Hne).
      by destruct th as [[]|[]|[] ?|[]], m. }
  assert (0 < threads s) as Hpos.
  { rewrite Hc. pose proof (live_count_pos _ _ _ Hw eq_refl). lia. }
  assert (∀ cv, waiters s cv = []) as Hnone.
  { intros cv. destruct (waiters s cv) as [|t l] eqn:Hcv; [done|].
    destruct (Hwait cv t) as (th & Hth & Hwt); [rewrite Hcv; by left|].
    destruct (decide (t = w)) as [->|Hne].
    - rewrite Hw in Hth. injection Hth as <-. by destruct cv.
    - specialize (Hothers _ _ Hth Hne).
      by destruct th as [[]|[]|[] ?|[]], cv. }
  pose proof (Hfree ThreadsMutex) as Hf1.
  pose proof (Hfree TerminateMutex) as Hf2.
  pose proof (Hfree QueriesMutex) as Hf3.
  pose proof (Hnone ThreadsChanged) as Hn1.
  pose proof (Hnone WakeUp) as Hn2.
  clear Hfree Hnone Hc Hwait Hreach Ho.
  destruct s as [tv mx m1 c1 n c2 m2 tb' qs m3 ps st enq deq del hist].
  cbn in Hst, Hw, Hflag, Hq, Hothers, Hwlt, Hpos, Hf1, Hf2, Hf3, Hn1, Hn2.
  subst.
  eexists. split.
  { unfold late_wait. cbn [replicate app].
    do 3 run_step norm_procs idtac. run_call.
    do 10 run_step norm_procs idtac. reflexivity. }
  norm_state.
  split; [done|]. split; [solve_lookup|]. split; [by left|].
  split; [solve_lookup|]. split; [by left|]. split; [done|].
  split; [done|].
  intros t pick. unfold step. cbn [status procs].
  destruct (decide (t = w)) as [->|Hne];
    [|destruct (decide (t = length ps)) as [->|Hne']].
  - rewrite lookup_app_l, list_lookup_insert_eq by len.
    cbn. rewrite decide_True by (by left). done.
  - rewrite lookup_app_r, length_insert, Nat.sub_diag by len.
    cbn. rewrite decide_True by (by left). done.
  - destruct ((<[w:=InHandler H630w]> ps ++ [InTerminate T606w]) !! t)
      as [th|] eqn:Hth; [|done].
    apply lookup_snoc_inv in Hth as [Hth|[Hth _]];
      [|rewrite length_insert in Hth; done].
    rewrite list_lookup_insert_ne in Hth by done.
    specialize (Hothers _ _ Hth Hne).
    by destruct th as [[]|[]|[] ?|[]].
Qed.

(** ** [terminate()] on a pool whose workers are all idle *)

Lemma live_count_workers (l : list (Thread T)) (ws : list nat) :
  NoDup ws →
  (∀ w, w ∈ ws → ∃ th, l !! w = Some th ∧ live th = true) →
  (∀ t th, l !! t = Some th → t ∉ ws → live th = false) →
  live_count l = Z.of_nat (length ws).
Proof.
  revert l. induction ws as [|w ws IH]; intros l Hnd Hin Hout.
  - clear Hin Hnd. induction l as [|x l IHl]; [done|]. cbn.
    rewrite IHl.
    + rewrite (Hout 0%nat x eq_refl); [done|]. apply not_elem_of_nil.
    + intros t th Hl _. apply (Hout (S t)); [done|]. apply not_elem_of_nil.
  - apply list.NoDup_cons in Hnd as [Hw Hnd].
    destruct (Hin w) as (th & Hth & Hlive); [by left|].
    pose proof (live_count_insert l w th (InHandler Hret) Hth) as Hins.
    rewrite Hlive in Hins. cbn [live] in Hins.
    rewrite (IH (<[w := InHandler Hret]> l)) in Hins; [|done| |].
    + cbn [length]. lia.
    + intros w' Hw'. destruct (Hin w') as (th' & Hth' & Hl'); [by right|].
      exists th'. split; [|done].
      rewrite list_lookup_insert_ne; [done|]. by intros ->.
    + intros t th' Hl Ht. apply lookup_goto in Hl as [[-> ->]|[Hne Hl]].
      * done.
      * apply (Hout t th' Hl). by intros [->|?]%elem_of_cons.
Qed.

Lemma leave_runs u w ws s :
  winding_down u (w :: ws) s →
  ∃ s', run (leave u w) s = Some s' ∧ winding_down u ws s' ∧
        length (procs s') = length (procs s) ∧
        queries s' = queries s ∧ dequeued s' = dequeued s ∧
        delivered s' = delivered s.
Proof.
  intros [Hst Hflag Hfree Hwake Hthr Hws Hnd Hu [Hterm Htc] Hothers].
  pose proof (Hws w ltac:(by left)) as Hw.
  pose proof (lookup_lt_Some _ _ _ Hw) as Hwlt.
  pose proof (lookup_lt_Some _ _ _ Hterm) as Hult.
  assert (w ≠ u) as Hwu by (intros ->; apply Hu; by left).
  apply list.NoDup_cons in Hnd as [Hwws Hnd].
  pose proof (Hfree ThreadsMutex) as Hf1.
  pose proof (Hfree TerminateMutex) as Hf2.
  pose proof (Hfree QueriesMutex) as Hf3.
  clear Hfree.
  cbn [length] in Hthr. rewrite Nat2Z.inj_succ in Hthr.
  destruct s as [tv mx m1 c1 n c2 m2 tb qs m3 ps st enq deq del hist].
  cbn in Hst, Hflag, Hwake, Hthr, Hws, Hterm, Htc, Hothers, Hw, Hwlt, Hult,
    Hf1, Hf2, Hf3.
  subst st tb c2 c1 m1 m2 m3.
  assert (∀ (U W : Thread T) t th,
            returned W = true →
            <[u:=U]> (<[w:=W]> ps) !! t = Some th → t ≠ u →
            t ∉ ws → returned th = true) as Hrest.
  { intros U W t th HW Hl Htu Htws.
    rewrite list_lookup_insert_ne in Hl by done.
    apply lookup_goto in Hl as [[-> ->]|[Hne Hl]]; [done|].
    apply (Hothers t th Hl Htu). by intros [->|?]%elem_of_cons. }
  assert (∀ (U W : Thread T) w0, w0 ∈ ws →
            <[u:=U]> (<[w:=W]> ps) !! w0 = Some (InHandler H630w))
    as Hstill.
  { intros U W w0 Hw0.
    rewrite !list_lookup_insert_ne.
    - apply Hws. by right.
    - by intros ->.
    - intros ->. apply Hu. by right. }
  assert (u ∉ ws) as Hu' by (intros ?; apply Hu; by right).
  destruct ws as [|w' ws].
  - cbn in Hthr. eexists. split.
    { unfold leave. cbn [replicate app].
      do 12 run_step ltac:(norm_two u w)
                     ltac:(try change (notify_one 0 [u]) with (@nil nat)).
      reflexivity. }
    norm_state.
    split; [|by rewrite !length_insert].
    split; norm_state; try done.
    + by intros [].
    + cbn. lia.
    + apply Hstill.
    + split; [solve_lookup | done].
    + intros t th. by apply Hrest.
  - cbn [length] in Hthr. rewrite Nat2Z.inj_succ in Hthr.
    eexists. split.
    { unfold leave. cbn [replicate app].
      do 12 run_step ltac:(norm_two u w)
                     ltac:(try change (notify_one 0 [u]) with (@nil nat)).
      reflexivity. }
    norm_state.
    split; [|by rewrite !length_insert].
    split; norm_state; try done.
    + by intros [].
    + cbn [length]. rewrite Nat2Z.inj_succ. lia.
    + apply Hstill.
    + split; [solve_lookup | done].
    + intros t th. by apply Hrest.
Qed.

Lemma leaves_run u ws s :
  winding_down u ws s →
  ∃ s', run (leaves u ws) s = Some s' ∧ winding_down u [] s' ∧
        length (procs s') = length (procs s) ∧
        queries s' = queries s ∧ dequeued s' = dequeued s ∧
        delivered s' = delivered s.
Proof.
  revert s. induction ws as [|w ws IH]; intros s Hwd.
  - by exists s.
  - destruct (leave_runs _ _ _ _ Hwd)
      as (s1 & Hrun1 & Hwd1 & Hlen1 & Hq1 & Hd1 & Hc1).
    destruct (IH _ Hwd1) as (s' & Hrun & Hwd' & Hlen & Hq & Hd & Hc).
    exists s'. cbn [leaves]. rewrite run_app, Hrun1. cbn [mbind option_bind].
    split; [done|]. split; [done|]. repeat split; congruence.
Qed.

Lemma terminate_begins (ws : list nat) s :
  status s = Running → (∀ m, owner s m = None) →
  threadsChanged s = [] → threads s = Z.of_nat (length ws) →
  ∃ s1, run ([CallTerminate] ++ replicate 7 (Run (length (procs s)) 0)) s
          = Some s1 ∧
        status s1 = Running ∧ terminateBool s1 = true ∧
        (∀ m, owner s1 m = None) ∧ wakeUp s1 = [] ∧
        threads s1 = threads s ∧
        match ws with
        | [] => procs s1 = procs s ++ [InTerminate Tret] ∧
                threadsChanged s1 = []
        | _ :: _ => procs s1 = procs s ++ [InTerminate T606w] ∧
                    threadsChanged s1 = [length (procs s)]
        end ∧
        queries s1 = queries s ∧ dequeued s1 = dequeued s ∧
        delivered s1 = delivered s.
Proof.
  intros Hst Hfree Htc Hthr.
  pose proof (Hfree ThreadsMutex) as Hf1.
  pose proof (Hfree TerminateMutex) as Hf2.
  pose proof (Hfree QueriesMutex) as Hf3.
  clear Hfree.
  destruct s as [tv mx m1 c1 n c2 m2 tb qs m3 ps st enq deq del hist].
  cbn in Hst, Htc, Hthr, Hf1, Hf2, Hf3. subst st c1 m1 m2 m3.
  destruct ws as [|w ws].
  - cbn in Hthr. eexists. split.
    { cbn [app replicate]. run_call.
      do 7 run_step norm_last idtac. reflexivity. }
    norm_state. repeat split; try done. by intros [].
  - cbn [length] in Hthr. rewrite Nat2Z.inj_succ in Hthr.
    eexists. split.
    { cbn [app replicate]. run_call.
      do 7 run_step norm_last idtac. reflexivity. }
    norm_state. repeat split; try done. by intros [].
Qed.

(** X20: [terminate()] called on a pool in which the workers are
    all in their wait on [wakeUp] and every other thread has
    returned, and left alone with them, returns: in the run in
    which each worker in turn gets the processor, every worker
    finds the stop flag set and returns, [threads] goes down to 0,
    and [terminate()] returns after it has read 0; the queue and
    the callbacks called are as they were. *)
Theorem terminate_stops_idle_workers (typeVal_ maxThreads_ : Z) (tb : bool)
    s (ws : list nat)
    (Hreach : reachable (Connection typeVal_ maxThreads_ tb) s)
    (Hst : status s = Running)
    (Hws : ∀ w, w ∈ ws → procs s !! w = Some (InHandler H630w))
    (Hnd : NoDup ws)
    (Hothers : ∀ t th, procs s !! t = Some th → t ∉ ws →
                       returned th = true) :
  threads s = Z.of_nat (length ws) ∧
  ∃ s', run (stop_schedule (length (procs s)) ws) s = Some s' ∧
        procs s' !! length (procs s) = Some (InTerminate Tret) ∧
        (∀ t th, procs s' !! t = Some th → returned th = true) ∧
        length (procs s') = S (length (procs s)) ∧
        threads s' = 0 ∧ terminateBool s' = true ∧
        (∀ m, owner s' m = None) ∧
        queries s' = queries s ∧ dequeued s' = dequeued s ∧
        delivered s' = delivered s.
Proof.
  destruct (Connection_reachable _ _ _ _ Hreach)
    as [[_ Hc _ _ _ _ _ Hwait] [Ho _ _ _]].
  assert (threads s = Z.of_nat (length ws)) as Hthr.
  { rewrite Hc. apply live_count_workers; [done| |].
    - intros w Hw. exists (InHandler H630w). by split; [apply Hws|].
    - intros t th Hth Ht. specialize (Hothers _ _ Hth Ht).
      by destruct th as [[]|[]|[] ?|[]]. }
  split; [done|].
  assert (∀ t th, procs s !! t = Some th →
            th = InHandler H630w ∨ returned th = true) as Hall.
  { intros t th Hth. destruct (decide (t ∈ ws)) as [Hin|Hout].
    - left. rewrite (Hws _ Hin) in Hth. by injection Hth.
    - right. by eapply Hothers. }
  assert (∀ m, owner s m = None) as Hfree.
  { intros m. destruct (owner s m) as [t|] eqn:Hown; [|done].
    destruct (Ho _ _ Hown) as (th & Hth & Hh).
    destruct (Hall _ _ Hth) as [->|Hr]; [by destruct m|].
    by destruct th as [[]|[]|[] ?|[]], m. }
  assert (threadsChanged s = []) as Htc.
  { destruct (threadsChanged s) as [|t l] eqn:Hcv; [done|].
    destruct (Hwait ThreadsChanged t) as (th & Hth & Hwt);
      [cbn; rewrite Hcv; by left|].
    destruct (Hall _ _ Hth) as [->|Hr]; [done|].
    by destruct th as [[]|[]|[] ?|[]]. }
  destruct (terminate_begins ws s Hst Hfree Htc Hthr)
    as (s1 & Hrun1 & Hst1 & Hflag1 & Hfree1 & Hwake1 & Hthr1 & Hterm1 &
        Hq1 & Hd1 & Hc1).
  assert (length (procs s) ∉ ws) as Hu.
  { intros Hin. apply Hws, lookup_lt_Some in Hin. lia. }
  assert (winding_down (length (procs s)) ws s1 ∧
          length (procs s1) = S (length (procs s))) as [Hwd Hlen1].
  { destruct ws as [|w ws]; destruct Hterm1 as [Hp1 Htc1].
    - split; [|rewrite Hp1, length_app; cbn; lia].
      split; try done; try congruence.
      + intros w Hw. by apply elem_of_nil in Hw.
      + split; [|done]. rewrite Hp1. apply PoolClaims.lookup_last.
      + intros t th Hth Htu _. rewrite Hp1 in Hth.
        apply lookup_snoc_inv in Hth as [Hth|[? _]]; [|done].
        apply (Hothers _ _ Hth). apply not_elem_of_nil.
    - split; [|rewrite Hp1, length_app; cbn; lia].
      split; try done; try congruence.
      + intros w0 Hw0. rewrite Hp1. apply lookup_app_l_Some. by apply Hws.
      + split; [|done]. rewrite Hp1. apply PoolClaims.lookup_last.
      + intros t th Hth Htu Htws. rewrite Hp1 in Hth.
        apply lookup_snoc_inv in Hth as [Hth|[? _]]; [|done].
        by apply (Hothers _ _ Hth). }
  destruct (leaves_run _ _ _ Hwd)
    as (s' & Hrun & [Hst' Hflag' Hfree' _ Hthr' _ _ _ [Hterm' _] Hothers']
        & Hlen & Hq & Hd & Hc').
  exists s'. split.
  { unfold stop_schedule. rewrite app_assoc, run_app, Hrun1. exact Hrun. }
  split; [done|]. split.
  { intros t th Hth.
    destruct (decide (t = length (procs s))) as [->|Hne].
    - rewrite Hterm' in Hth. by injection Hth as <-.
    - apply (Hothers' t th Hth Hne). apply not_elem_of_nil. }
  split; [congruence|]. split; [done|]. split; [done|]. split; [done|].
  repeat split; congruence.
Qed.

(** ** A query and the workers that wait *)

Lemma NoDup_notify_one (pick : nat) (l : list nat) :
  NoDup l → NoDup (notify_one pick l).
Proof.
  destruct l as [|x l]; [done|]. unfold notify_one. intros Hnd.
  exact (sublist_NoDup _ _ Hnd (sublist_delete _ _)).
Qed.

Lemma wait_step t pick s s' :
  mutex_inv s →
  (∀ t', procs s !! t' = Some (InHandler H630) → queries s = []) →
  step t pick s = Some s' →
  ∀ t', procs s' !! t' = Some (InHandler H630) → queries s' = [].
Proof.
  intros Hmut Hinv Hstep.
  apply step_Some in Hstep as (th & s1 & Hst & Hth & Hex & ->).
  intros t' Hl.
  change (procs (record t th s1)) with (procs s1) in Hl.
  destruct th as [[]|[]|[] q|[]]; cbn in Hex;
    own_facts Hmut Hth; exec_cases Hex; lookup_cases Hl;
    try (pose proof (Hinv _ Hl) as He);
    try (pose proof (Hmut _ _ QueriesMutex Hl eq_refl) as Hown);
    cbn in *; done || congruence.
Qed.

Lemma wakeUp_NoDup_step t pick s s' :
  waiters_inv s → NoDup (wakeUp s) → step t pick s = Some s' →
  NoDup (wakeUp s').
Proof.
  intros Hwait Hnd Hstep.
  apply step_Some in Hstep as (th & s1 & Hst & Hth & Hex & ->).
  assert (waits th WakeUp = false → t ∉ wakeUp s) as Hnotin.
  { intros Hw Hin. destruct (Hwait WakeUp t Hin) as (th' & Hth' & Hw').
    congruence. }
  destruct th as [[]|[]|[] q|[]]; cbn in Hex; exec_cases Hex;
    cbn [wakeUp record goto set_procs set_status set_threads
      set_terminateBool set_waiters set_owner set_threadsMutex
      set_terminateMutex set_queriesMutex unlock push pop deliver
      set_threadsChanged set_wakeUp notify_all];
    first
      [ exact Hnd
      | by apply NoDup_notify_one
      | apply NoDup_nil_2
      | idtac ].
  apply list.NoDup_app. split; [done|]. split; [|apply NoDup_singleton].
  intros x Hx ->%list_elem_of_singleton. by apply Hnotin.
Qed.

(** The thread that attends the queue is still there after a step of
    thread [t], if that step leaves [t] attending when it was. *)
Lemma attended_move (ps : list (Thread T)) (wk wk' : list nat) t th k :
  ps !! t = Some th →
  (∃ t0 th0, ps !! t0 = Some th0 ∧
             ((heading_for_queue th0 = true ∧ t0 ∉ wk) ∨
              about_to_notify th0 = true)) →
  (∀ x, x ∈ wk' → x ∈ wk) →
  (heading_for_queue th = true → heading_for_queue k = true) →
  (about_to_notify th = true → about_to_notify k = true) →
  ∃ t0 th0, <[t := k]> ps !! t0 = Some th0 ∧
            ((heading_for_queue th0 = true ∧ t0 ∉ wk') ∨
             about_to_notify th0 = true).
Proof.
  intros Hth (t0 & th0 & Hl0 & Hok) Hsub Hhead Habout.
  pose proof (lookup_lt_Some _ _ _ Hth) as Hlt.
  destruct (decide (t0 = t)) as [->|Hne].
  - rewrite Hth in Hl0. injection Hl0 as <-.
    exists t, k. split; [by apply list_lookup_insert_eq|].
    destruct Hok as [[Hh Hn]|Ha]; [left|right; by apply Habout].
    split; [by apply Hhead|]. intros Hin. by apply Hn, Hsub.
  - exists t0, th0. split; [by rewrite list_lookup_insert_ne|].
    destruct Hok as [[Hh Hn]|Ha]; [left|by right].
    split; [done|]. intros Hin. by apply Hn, Hsub.
Qed.

Lemma not_elem_of_delete (l : list nat) (i x : nat) :
  NoDup l → l !! i = Some x → x ∉ delete i l.
Proof.
  intros Hnd Hi Hin. apply list_elem_of_lookup in Hin as [j Hj].
  destruct (decide (j < i)%nat) as [Hlt|Hge].
  - rewrite list_lookup_delete_lt in Hj by done.
    pose proof (NoDup_lookup _ _ _ _ Hnd Hi Hj). lia.
  - rewrite list_lookup_delete_ge in Hj by lia.
    pose proof (NoDup_lookup _ _ _ _ Hnd Hi Hj). lia.
Qed.

Lemma attended_step t pick s s' :
  inv s → safe s → handoff_inv s → step t pick s = Some s' →
  ¬ raised (history s') → queries s' ≠ [] → wakeUp s' ≠ [] → attended s'.
Proof.
  intros [Hmut _ _ _ _ Hhist _ Hwait] [_ _ _ (Hclr & Hflag & _)]
    [Hatt Hw630 Hnd] Hstep.
  apply step_Some in Hstep as (th & s1 & Hst & Hth & Hex & ->).
  pose proof (lookup_lt_Some _ _ _ Hth) as Hlt.
  pose proof (Hw630 t) as Hempty.
  pose proof (Hclr _ _ Hth) as Hmyclr.
  pose proof (Hhist t) as Hmyhist.
  assert (history (record t th s1) = history s1 ++ [(t, th)]) as -> by done.
  change (queries (record t th s1)) with (queries s1).
  change (wakeUp (record t th s1)) with (wakeUp s1).
  unfold attended.
  change (procs (record t th s1)) with (procs s1).
  intros Hnr Hq Hwk.
  assert (history s1 = history s → ¬ raised (history s)) as Hnr0.
  { intros Hh Hr. apply Hnr. rewrite Hh. by apply raised_app. }
  destruct th as [[]|[]|[] ?|[]]; cbn in Hex; exec_cases Hex;
    cbn [history queries wakeUp procs record goto set_procs set_status
      set_threads set_terminateBool set_waiters set_owner set_threadsMutex
      set_terminateMutex set_queriesMutex unlock push pop deliver
      set_threadsChanged set_wakeUp notify_all] in *;
    specialize (Hnr0 eq_refl);
    try done;
    try (by (apply (attended_move _ (wakeUp s) _ _ _ _ Hth);
             [by apply Hatt | done | done | done]));
    try (by apply Hatt);
    try (by destruct Hq; apply Hempty);
    try (by destruct Hnr0; apply Hflag; [|apply Hmyclr]).
  - (* 591: the thread created is on its way to the queue *)
    exists (length (procs s)), thread_entry. split.
    + rewrite list_lookup_insert_ne by lia. apply PoolClaims.lookup_last.
    + left. split; [done|]. intros Hin.
      destruct (Hwait WakeUp _ Hin) as (th & Hl & _).
      apply lookup_lt_Some in Hl. lia.
  - (* 667-675: the query is pushed, the signal is to come *)
    exists t, (InQueue Q677 query).
    split; [by apply list_lookup_insert_eq | by right].
  - (* 677: the thread taken off the list is on its way *)
    destruct (wakeUp s) as [|x l] eqn:Hwake; [done|].
    assert (pick mod length (x :: l) < length (x :: l))%nat as Hi
      by (apply Nat.mod_upper_bound; cbn; lia).
    apply lookup_lt_is_Some_2 in Hi as [w Hw].
    destruct (Hwait WakeUp w) as (th & Hl & Hwt).
    { cbn. rewrite Hwake. by eapply list_elem_of_lookup_2. }
    apply PoolClaims.waits_WakeUp in Hwt as ->.
    exists w, (InHandler H630w). split.
    + rewrite list_lookup_insert_ne; [done|]. intros ->. by simplify_eq.
    + left. split; [done|]. unfold notify_one.
      by apply not_elem_of_delete.
Qed.

Lemma handoff_inv_step t pick s s' :
  inv s → safe s → handoff_inv s → step t pick s = Some s' → handoff_inv s'.
Proof.
  intros Hinv Hsafe Hh Hstep. split.
  - by eapply attended_step.
  - destruct Hinv as [Hmut _ _ _ _ _ _ _], Hh as [_ Hw _].
    by eapply wait_step.
  - destruct Hinv as [_ _ _ _ _ _ _ Hwait], Hh as [_ _ Hnd].
    by eapply wakeUp_NoDup_step.
Qed.

Lemma handoff_inv_exec (e : Event T) s s' :
  inv s → safe s → handoff_inv s → exec e s = Some s' → handoff_inv s'.
Proof.
  intros Hinv Hsafe Hh. destruct e as [t pick| | |q|cv t]; cbn.
  - by apply handoff_inv_step.
  - destruct Hh as [Hatt Hw Hnd].
    unfold call. destruct (status s); intros [= <-]. split; [| |done].
    + intros Hnr Hq Hwk. destruct (Hatt Hnr Hq Hwk) as (t0 & th0 & Hl & Hok).
      exists t0, th0. split; [by apply lookup_app_l_Some | done].
    + intros t' Hl. cbn in Hl.
      apply lookup_snoc_inv in Hl as [Hl|[_ ?]]; [by eapply Hw | done].
  - destruct Hh as [Hatt Hw Hnd].
    unfold call. destruct (status s); intros [= <-]. split; [| |done].
    + intros Hnr Hq Hwk. destruct (Hatt Hnr Hq Hwk) as (t0 & th0 & Hl & Hok).
      exists t0, th0. split; [by apply lookup_app_l_Some | done].
    + intros t' Hl. cbn in Hl.
      apply lookup_snoc_inv in Hl as [Hl|[_ ?]]; [by eapply Hw | done].
  - destruct Hh as [Hatt Hw Hnd].
    unfold call. destruct (status s); intros [= <-]. split; [| |done].
    + intros Hnr Hq Hwk. destruct (Hatt Hnr Hq Hwk) as (t0 & th0 & Hl & Hok).
      exists t0, th0. split; [by apply lookup_app_l_Some | done].
    + intros t' Hl. cbn in Hl.
      apply lookup_snoc_inv in Hl as [Hl|[_ ?]]; [by eapply Hw | done].
  - destruct Hh as [Hatt Hw Hnd].
    unfold spurious. destruct (status s); try done.
    case_decide as Hin; [|done]. intros [= <-].
    destruct cv; [done|]. split; [|done|by apply list.NoDup_filter].
    intros Hnr Hq Hwk. cbn in Hnr, Hq, Hwk.
    destruct (Hatt Hnr Hq) as (t0 & th0 & Hl & Hok).
    { intros Hnil. cbn in Hin. rewrite Hnil in Hin.
      by apply elem_of_nil in Hin. }
    exists t0, th0. split; [done|]. cbn.
    destruct Hok as [[Hhd Hn]|Ha]; [left|by right].
    split; [done|]. intros Hf. by apply list_elem_of_filter in Hf as [_ ?].
Qed.

Lemma handoff_Connection (typeVal_ maxThreads_ : Z) (tb : bool) :
  handoff_inv (T:=T) (Connection typeVal_ maxThreads_ tb).
Proof. split; [done|done|apply NoDup_nil_2]. Qed.

(** X21: as long as no [terminate()] has set the stop flag, a query
    is never left in the queue with every worker asleep: whenever
    the queue is not empty while a worker waits on [wakeUp], some
    worker that is not blocked in its wait is on its way to test
    the queue, or a [queue()] has pushed and is about to signal. *)
Theorem queue_is_attended (typeVal_ maxThreads_ : Z) (tb : bool) s t
    (Hreach : reachable (Connection typeVal_ maxThreads_ tb) s)
    (Hnever : ∀ i u, ¬ did (history s) i u (InTerminate T600))
    (Hasleep : t ∈ wakeUp s)
    (Hquery : queries s ≠ []) :
  procs s !! t = Some (InHandler H630w) ∧
  ∃ t' th', procs s !! t' = Some th' ∧ t' ≠ t ∧
            ((heading_for_queue th' = true ∧ t' ∉ wakeUp s) ∨
             about_to_notify th' = true).
Proof.
  assert (inv s ∧ safe s ∧ handoff_inv s) as (Hinv & _ & [Hatt _ _]).
  { clear Hnever Hasleep Hquery.
    induction Hreach as [|s e s' _ (Hinv & Hsafe & Hh) Hexec].
    - split; [apply inv_Connection|].
      split; [apply safe_Connection | apply handoff_Connection].
    - split; [by eapply inv_exec|].
      split; [by eapply safe_exec | by eapply handoff_inv_exec]. }
  destruct Hinv as [_ _ _ _ _ _ _ Hwait].
  destruct (Hwait WakeUp t Hasleep) as (th & Hth & Hwt).
  apply PoolClaims.waits_WakeUp in Hwt as ->.
  split; [done|].
  destruct Hatt as (t' & th' & Hl & Hok).
  - intros (i & u & Hi). by apply (Hnever i u).
  - done.
  - intros Hnil. rewrite Hnil in Hasleep. by apply elem_of_nil in Hasleep.
  - exists t', th'. split; [done|]. split; [|done].
    intros ->. rewrite Hth in Hl. injection Hl as <-.
    destruct Hok as [[_ Hn]|Ha]; [by apply Hn | done].
Qed.

End Safety.

(** ** The theorems on concrete executions *)

Import Demo Scenarios.

Lemma accesses_are_guarded_witness :
  reachable pool1 one_popped ∧
  procs one_popped !! 1%nat = Some (InHandler (H637 (query 0 100))) ∧
  owner one_popped QueriesMutex = Some 1%nat.
Proof.
  assert (reachable pool1 one_popped) as Hreach
    by PoolClaims.by_running
         (start_up ++ enqueue 0 100 2 ++ enqueue 1 101 3 ++ runs 1 6).
  destruct (accesses_are_guarded 7 1 true one_popped 1
              (InHandler (H637 (query 0 100))) QueriesMutex
              Hreach eq_refl eq_refl) as [Hown _].
  split; [exact Hreach|]. split; [reflexivity | exact Hown].
Defined.

Lemma mutexes_are_released_witness :
  reachable pool1 shut ∧ ∀ m, owner shut m = None.
Proof.
  assert (reachable pool1 shut) as Hreach
    by PoolClaims.by_running
         (start_up ++ enqueue 0 100 2 ++ shut_down ++ runs 3 1).
  destruct (mutexes_are_released 7 1 true shut Hreach) as (_ & _ & Hall).
  split; [exact Hreach|]. apply Hall.
  intros t th Hl. destruct t as [|[|[|[|t]]]]; cbn in Hl; by simplify_eq.
Defined.

Lemma mutex_owner_can_move_witness :
  owner one_popped QueriesMutex = Some 1%nat ∧
  is_Some (step 1 0 one_popped).
Proof.
  assert (reachable pool1 one_popped) as Hreach
    by PoolClaims.by_running
         (start_up ++ enqueue 0 100 2 ++ enqueue 1 101 3 ++ runs 1 6).
  split; [reflexivity|].
  destruct (mutex_owner_can_move 7 1 true one_popped QueriesMutex 1 0
              Hreach eq_refl eq_refl) as [Hmove|(Hm & _)];
    [exact Hmove | discriminate Hm].
Defined.

Lemma threads_counts_the_workers_witness :
  threads running = 1 ∧ live_count (procs running) = 1.
Proof.
  assert (reachable pool1 running) as Hreach
    by PoolClaims.by_running start_up.
  destruct (threads_counts_the_workers 7 1 true running Hreach) as [Hc _].
  split; [reflexivity|]. rewrite <- Hc. reflexivity.
Defined.

Lemma callbacks_at_most_once_witness :
  enqueued one_popped = [query 0 100; query 1 101] ∧
  queries one_popped = [query 1 101] ∧
  NoDup (fst <$> delivered one_popped) ∧
  101%nat ∉ fst <$> delivered one_popped.
Proof.
  assert (reachable pool1 one_popped) as Hreach
    by PoolClaims.by_running
         (start_up ++ enqueue 0 100 2 ++ enqueue 1 101 3 ++ runs 1 6).
  destruct (callbacks_at_most_once 7 1 true one_popped Hreach)
    as (_ & _ & Honce).
  destruct Honce as [Hnd Hnot].
  { apply list.NoDup_cons. split; [|apply NoDup_singleton].
    by intros Hin%list_elem_of_singleton. }
  split; [reflexivity|]. split; [reflexivity|]. split; [exact Hnd|].
  apply (Hnot (query 1 101)). by left.
Defined.

Lemma callback_gets_its_own_result_witness :
  ∃ m q, delivered served = [(100%nat, m)] ∧
         q ∈ enqueued served ∧ callback q = 100%nat ∧
         handle 7 q = Completed m ∧ type m = 7 ∧
         length (payload m) = size m.
Proof.
  assert (reachable pool1 served) as Hreach
    by PoolClaims.by_running
         (start_up ++ enqueue 1 100 2 ++ serve_to_execute ++ runs 1 2).
  eexists _, _. split; [reflexivity|].
  destruct (callback_gets_its_own_result 7 1 true served 100%nat _ Hreach
              ltac:(by left)) as (q & Hq & _ & Hcb & Hh & Ht & Hl).
  assert (q = query 1 100) as ->.
  { apply list_elem_of_singleton in Hq. exact Hq. }
  repeat split; done.
Defined.

Lemma process_stops_only_in_execute_witness :
  status crashed = Terminated ∧
  ∃ t q, procs crashed !! t = Some (InHandler (H639 q)) ∧
       q ∈ dequeued crashed ∧
       execute (statement q) (parameters q) (results q)
               (insertId q) (rows q) = ThrowsOther.
Proof.
  assert (reachable pool1 crashed) as Hreach
    by PoolClaims.by_running
         (start_up ++ enqueue 3 100 2 ++ serve_to_execute ++ runs 1 1).
  split; [reflexivity|].
  exact (proj2 (process_stops_only_in_execute 7 1 true crashed Hreach)).
Defined.

Lemma stop_flag_is_written_before_read_witness :
  procs testing !! 1%nat = Some (InHandler H623) ∧
  ∃ i u, (i < length (history testing))%nat ∧
         did (history testing) i u (InStart S585).
Proof.
  assert (reachable pool1 testing) as Hreach
    by PoolClaims.by_running (start_up ++ runs 1 1).
  split; [reflexivity|].
  exact (stop_flag_is_written_before_read 7 1 true testing 1
           (InHandler H623) _ _ Hreach eq_refl eq_refl).
Defined.

Lemma worker_leaves_only_after_terminate_witness :
  procs shut !! 1%nat = Some (InHandler Hret) ∧
  ∃ i j u v, did (history shut) i u (InStart S585) ∧
             did (history shut) j v (InTerminate T600).
Proof.
  assert (reachable pool1 shut) as Hreach
    by PoolClaims.by_running
         (start_up ++ enqueue 0 100 2 ++ shut_down ++ runs 3 1).
  split; [reflexivity|].
  exact (worker_leaves_only_after_terminate 7 1 true shut 1
           (InHandler Hret) Hreach eq_refl eq_refl).
Defined.

Lemma no_worker_without_maxThreads_witness :
  procs waiting_for_nobody = [InStart Sret; InQueue Qret (query 0 100)] ∧
  threads waiting_for_nobody = 0 ∧
  queries waiting_for_nobody = [query 0 100] ∧
  delivered waiting_for_nobody = [].
Proof.
  assert (reachable pool0 waiting_for_nobody) as Hreach
    by PoolClaims.by_running ([CallStart] ++ runs 0 6 ++ enqueue 0 100 1).
  destruct (no_worker_without_maxThreads 7 0 true waiting_for_nobody
              ltac:(done) Hreach) as (Hthr & _ & Hq & _ & Hdel & _).
  split; [reflexivity|]. split; [exact Hthr|].
  split; [exact Hq | exact Hdel].
Defined.

Lemma terminate_when_idle_witness :
  ∃ s', run (CallTerminate :: replicate 7 (Run 0 0)) pool1 = Some s' ∧
        procs s' = [InTerminate Tret] ∧ terminateBool s' = true.
Proof.
  destruct (terminate_when_idle pool1 eq_refl eq_refl eq_refl eq_refl)
    as (s' & Hrun & Hprocs & Hflag & _).
  exists s'. split; [exact Hrun|]. split; [exact Hprocs | exact Hflag].
Defined.

Lemma queue_when_free_witness :
  ∃ s', run (CallQueue (query 0 100) :: replicate 4 (Run 2 0)) running
          = Some s' ∧
        queries s' = [query 0 100] ∧
        procs s' !! 2%nat = Some (InQueue Qret (query 0 100)).
Proof.
  destruct (queue_when_free running (query 0 100) 0 eq_refl eq_refl)
    as (s' & Hrun & Hprocs & Hq & _).
  exists s'. split; [exact Hrun|]. split; [exact Hq|].
  rewrite Hprocs. reflexivity.
Defined.

Lemma worker_serves_front_query_witness :
  ∃ s' m, run (replicate 9 (Run 1 0)) queued = Some s' ∧
          handle 7 (query 1 100) = Completed m ∧
          queries s' = [] ∧ delivered s' = [(100%nat, m)] ∧
          procs s' = procs queued.
Proof.
  assert (∃ m, handle 7 (query 1 100) = Completed m) as [m Hm]
    by (eexists; reflexivity).
  destruct (worker_serves_front_query queued 1 (query 1 100) [] m
              eq_refl eq_refl eq_refl eq_refl eq_refl eq_refl Hm)
    as (s' & Hrun & Hprocs & Hq & _ & Hdel & _).
  exists s', m. split; [exact Hrun|]. split; [exact Hm|].
  split; [exact Hq|]. split; [exact Hdel | exact Hprocs].
Defined.

Lemma terminate_can_miss_a_worker_witness :
  ∃ s', run (late_wait 1 2) running = Some s' ∧
        terminateBool s' = true ∧
        procs s' !! 1%nat = Some (InHandler H630w) ∧
        procs s' !! 2%nat = Some (InTerminate T606w) ∧
        threads s' = 1 ∧
        ∀ t pick, step t pick s' = None.
Proof.
  assert (reachable pool1 running) as Hreach
    by PoolClaims.by_running start_up.
  destruct (terminate_can_miss_a_worker 7 1 true running 1 Hreach
              eq_refl eq_refl eq_refl eq_refl)
    as (s' & Hrun & Hflag & Hw & _ & Hu & _ & Hthr & _ & Hstuck).
  { intros t th Hl Hne.
    destruct t as [|[|t]]; cbn in Hl; by simplify_eq. }
  exists s'. split; [exact Hrun|]. split; [exact Hflag|].
  split; [exact Hw|]. split; [exact Hu|]. split; [exact Hthr|].
  exact Hstuck.
Defined.

Lemma queue_is_attended_witness :
  1%nat ∈ wakeUp notified ∧ queries notified = [query 0 100] ∧
  ∃ t' th', procs notified !! t' = Some th' ∧ t' ≠ 1%nat ∧
            ((heading_for_queue th' = true ∧ t' ∉ wakeUp notified) ∨
             about_to_notify th' = true).
Proof.
  assert (reachable pool2 notified) as Hreach
    by PoolClaims.by_running
         (start_schedule 0 2 ++ runs 1 6 ++ runs 2 6 ++
          [CallQueue (query 0 100)] ++ [Run 3 1; Run 3 1; Run 3 1]).
  destruct (queue_is_attended 7 2 false notified 1 Hreach) as [_ Hatt].
  { intros i u Hi. unfold did in Hi.
    apply list_elem_of_lookup_2 in Hi.
    assert (Forall (λ x, x.2 ≠ InTerminate T600) (history notified)) as Hall
      by (repeat (constructor; [done|]); constructor).
    rewrite list.Forall_forall in Hall. by apply (Hall _ Hi). }
  { by left. }
  { done. }
  split; [by left|]. split; [reflexivity | exact Hatt].
Defined.

Lemma terminate_stops_idle_workers_witness :
  procs two_idle = [InStart Sret; InHandler H630w; InHandler H630w] ∧
  threads two_idle = 2 ∧
  ∃ s', run (stop_schedule 3 [1; 2]%nat) two_idle = Some s' ∧
        procs s' !! 3%nat = Some (InTerminate Tret) ∧
        (∀ t th, procs s' !! t = Some th → returned th = true) ∧
        threads s' = 0.
Proof.
  assert (reachable pool2 two_idle) as Hreach
    by PoolClaims.by_running (start_schedule 0 2 ++ runs 1 6 ++ runs 2 6).
  destruct (terminate_stops_idle_workers 7 2 false two_idle [1; 2]%nat
              Hreach eq_refl)
    as (Hthr & s' & Hrun & Hu & Hall & _ & Hzero & _).
  { intros w [->|[->|Hw%elem_of_nil]%elem_of_cons]%elem_of_cons; done. }
  { apply list.NoDup_cons. split; [|apply NoDup_singleton].
    by intros Hin%list_elem_of_singleton. }
  { intros t th Hl Ht. destruct t as [|[|[|t]]]; cbn in Hl; simplify_eq.
    - done.
    - destruct Ht. by left.
    - destruct Ht. right. by left. }
  split; [reflexivity|]. split; [exact Hthr|].
  exists s'. split; [exact Hrun|]. split; [exact Hu|].
  split; [exact Hall | exact Hzero].
Defined.

End PoolExtras.
